(** * visualise.py: the balanced-expression parser and the key/layer aligner

    A shallow embedding of the parsing and alignment core of
    [visualise.py] (KMonad configuration to keyboard crib sheet), and the
    properties of it that the specification states.

    Python strings are sequences of Unicode code points: a string is a
    [list N], a character its code point.  Python's non-negative offsets
    are [nat].  Dictionaries are [gmap]s, except the physical key table,
    whose iteration order is used, which is an association list. *)

From Stdlib Require Import NArith String Ascii.
From stdpp Require Import base numbers option list gmap sorting.

Local Open Scope nat_scope.

(** ** Strings and characters *)

Abbreviation str := (list N).

(** A string literal of the source (characters below 256). *)
Definition py (s : string) : str :=
  (fun a => N_of_ascii a) <$> list_ascii_of_string s.

Definition LPAREN : N := 40.
Definition RPAREN : N := 41.
Definition HASH : N := 35.
Definition BAR : N := 124.
Definition SEMI : N := 59.
Definition NEWLINE : N := 10.

(** [str.isspace] on one character: CPython's [_PyUnicode_IsWhitespace]. *)
Definition isspace (c : N) : bool :=
  ((9 <=? c) && (c <=? 13) || (28 <=? c) && (c <=? 32)
   || (c =? 133) || (c =? 160) || (c =? 5760)
   || (8192 <=? c) && (c <=? 8202) || (c =? 8232) || (c =? 8233)
   || (c =? 8239) || (c =? 8287) || (c =? 12288))%N.

(** [s[a:b]] for offsets [0 <= a], [0 <= b]. *)
Definition slice (s : str) (a b : nat) : str := take (b - a) (drop a s).

(** [s.lstrip()], [s.rstrip()] and [s.strip()]. *)
Fixpoint lstrip (s : str) : str :=
  match s with
  | c :: r => if isspace c then lstrip r else s
  | [] => []
  end.

Definition rstrip (s : str) : str := reverse (lstrip (reverse s)).

Definition strip (s : str) : str := rstrip (lstrip s).

(** ** Balanced parsing: [find_top_level_expression] *)

Inductive ValueError :=
| Unmatched_close (i : nat)            (* "Unmatched ')' at index i" *)
| Unmatched_open (start_index : nat).  (* "Unmatched '(' in expression starting at index start_index" *)

(** The [while i < length] loop; [rest] is [content[i:]] and [stack] the
    list of pushed characters.  It ends with the offset after the closing
    parenthesis that emptied the stack, or with the stack left at the end
    of the buffer. *)
Fixpoint scan_loop (rest : str) (i : nat) (stack : list N)
  : ValueError + (nat + list N) :=
  match rest with
  | [] => inr (inr stack)
  | c :: rest' =>
      if decide (c = LPAREN) then scan_loop rest' (S i) (stack ++ [LPAREN])
      else if decide (c = RPAREN) then
        match stack with
        | [] => inl (Unmatched_close i)
        | _ :: _ =>
            match removelast stack with
            | [] => inr (inl (S i))
            | stack' => scan_loop rest' (S i) stack'
            end
        end
      else scan_loop rest' (S i) stack
  end.

(** Returns [(expr_string, next_index)]; [None] is Python's [None]. *)
Definition find_top_level_expression (content : str) (start_index : nat)
  : ValueError + (option str * nat) :=
  match scan_loop (drop start_index content) start_index [] with
  | inl e => inl e
  | inr (inl next) => inr (Some (slice content start_index next), next)
  | inr (inr []) => inr (None, length content)
  | inr (inr (_ :: _)) => inl (Unmatched_open start_index)
  end.

(** ** Block extraction: [extract_defblocks] *)

Fixpoint starts_with (s sub : str) : bool :=
  match sub, s with
  | [], _ => true
  | _ :: _, [] => false
  | x :: sub', c :: s' => bool_decide (c = x) && starts_with s' sub'
  end.

(** [rest] is [s[i:]]: the lowest offset from [i] on where [sub] occurs. *)
Fixpoint find_from (rest sub : str) (i : nat) : option nat :=
  if starts_with rest sub then Some i
  else match rest with
       | [] => None
       | _ :: rest' => find_from rest' sub (S i)
       end.

(** [s.find(sub, idx)]; [None] is Python's [-1]. *)
Definition find (s sub : str) (idx : nat) : option nat :=
  if decide (idx ≤ length s) then find_from (drop idx s) sub idx else None.

(** The maximal run of non-whitespace at the head of [s], and what follows. *)
Fixpoint span_token (s : str) : str * str :=
  match s with
  | [] => ([], [])
  | c :: r =>
      if isspace c then ([], s)
      else let '(t, r') := span_token r in (c :: t, r')
  end.

(** [s.split(None, 1)] *)
Definition split_None_1 (s : str) : list str :=
  match lstrip s with
  | [] => []
  | (_ :: _) as s1 =>
      let '(tok, r) := span_token s1 in
      match lstrip r with
      | [] => [tok]
      | (_ :: _) as r' => [tok; r']
      end
  end.

(** [s[1:-1]] *)
Definition slice_1_m1 (s : str) : str := take (length s - 2) (drop 1 s).

(** An extracted block: [(None, body)] or [(layer_name, layer_body)]. *)
Abbreviation block := (option str * str)%type.

(** The [while True] loop of [extract_defblocks], with the cursor [idx] and
    the list [results] as its state.  [None]: the loop does not hand back a
    list ([expr_string] is Python's [None], on which [.strip()] raises, or
    the fuel is used up); [extract_loop_total] shows that this never
    happens.  The warnings printed on a scanner error are left out. *)
Fixpoint extract_loop (fuel : nat) (content block_type : str) (idx : nat)
    (results : list block) : option (list block) :=
  match fuel with
  | 0 => None
  | S fuel' =>
      match find content (LPAREN :: block_type) idx with
      | None => Some results
      | Some found =>
          match find_top_level_expression content found with
          | inl _ => extract_loop fuel' content block_type (found + 1) results
          | inr (None, _) => None
          | inr (Some expr_string, next_idx) =>
              let inner := strip (slice_1_m1 (strip expr_string)) in
              match split_None_1 inner with
              | block_keyword :: p1 :: _ =>
                  let remainder := strip p1 in
                  if decide (block_keyword = py "defsrc" ∧ block_type = py "defsrc")
                  then extract_loop fuel' content block_type next_idx
                         (results ++ [(None, remainder)])
                  else if decide (block_keyword = py "deflayer"
                                  ∧ block_type = py "deflayer")
                  then match split_None_1 remainder with
                       | [] => extract_loop fuel' content block_type next_idx results
                       | layer_name :: remainder_parts =>
                           let layer_body :=
                             match remainder_parts with
                             | b :: _ => b
                             | [] => []
                             end in
                           extract_loop fuel' content block_type next_idx
                             (results ++ [(Some layer_name, layer_body)])
                       end
                  else extract_loop fuel' content block_type next_idx results
              | _ => extract_loop fuel' content block_type next_idx results
              end
          end
      end
  end.

(** The extraction resumed at cursor [idx] with [results] collected so far. *)
Definition extract_from (content block_type : str) (idx : nat)
    (results : list block) : list block :=
  default [] (extract_loop (S (length content - idx)) content block_type idx results).

Definition extract_defblocks (content block_type : str) : list block :=
  extract_from content block_type 0 [].

(** ** Splitting a body: [split_top_level_forms] *)

(** [while i < body_len and body[i].isspace(): i += 1], on [rest = body[i:]] *)
Fixpoint skip_space (rest : str) (i : nat) : nat :=
  match rest with
  | c :: r => if isspace c then skip_space r (S i) else i
  | [] => i
  end.

(** [while i < body_len and not body[i].isspace(): i += 1] *)
Fixpoint skip_token (rest : str) (i : nat) : nat :=
  match rest with
  | c :: r => if isspace c then i else skip_token r (S i)
  | [] => i
  end.

Definition find_top_level_expression_in_body (body : str) (start_index : nat)
  : ValueError + (option str * nat) :=
  find_top_level_expression body start_index.

(** The outer [while i < body_len] loop.  [None]: no list is handed back
    (the fuel is used up, or [None] would be appended as a form);
    [split_loop_total] shows that this never happens. *)
Fixpoint split_loop (fuel : nat) (body : str) (i : nat) (forms : list str)
  : option (list str) :=
  match fuel with
  | 0 => None
  | S fuel' =>
      if decide (i < length body) then
        let i := skip_space (drop i body) i in
        if decide (length body ≤ i) then Some forms
        else if decide (body !! i = Some LPAREN) then
          match find_top_level_expression_in_body body i with
          | inr (Some expr_string, next_i) =>
              split_loop fuel' body next_i (forms ++ [expr_string])
          | inr (None, _) => None
          | inl _ => Some (forms ++ [strip (drop i body)])
          end
        else
          let start := i in
          let i := skip_token (drop i body) i in
          let token := slice body start i in
          split_loop fuel' body i (forms ++ [token])
      else Some forms
  end.

Definition split_top_level_forms (body : str) : list str :=
  default [] (split_loop (S (length body)) body 0 []).

(** ** Comment removal and [parse_kmonad_config] *)

(** Does the end marker of a block comment occur in [s]? *)
Fixpoint has_end (s : str) : bool :=
  match s with
  | [] => false
  | c :: r =>
      match r with
      | d :: _ => bool_decide (c = BAR ∧ d = HASH) || has_end r
      | [] => false
      end
  end.

(** [re.sub] of the pattern [#\|.*?\|#] (flag DOTALL) by the empty
    string.  Outside a match a
    character is copied unless a match starts at it, which takes the start
    marker and an end marker somewhere after it; inside a match
    ([in_comment]) the lazy [.*?] gives way to the first end marker. *)
Fixpoint sub_block_comments (in_comment : bool) (s : str) : str :=
  match s with
  | [] => []
  | c :: r =>
      match r with
      | [] => if in_comment then [] else [c]
      | d :: r' =>
          if in_comment then
            if decide (c = BAR ∧ d = HASH) then sub_block_comments false r'
            else sub_block_comments true r
          else
            if bool_decide (c = HASH ∧ d = BAR) && has_end r'
            then sub_block_comments true r'
            else c :: sub_block_comments false r
      end
  end.

(** [re.sub] of the pattern [;;.*?$] (flag MULTILINE) by the empty
    string: a match runs from the
    marker up to the next newline, which stays, or to the end. *)
Fixpoint sub_line_comments (in_comment : bool) (s : str) : str :=
  match s with
  | [] => []
  | c :: r =>
      if in_comment then
        if decide (c = NEWLINE) then c :: sub_line_comments false r
        else sub_line_comments true r
      else
        match r with
        | d :: r' =>
            if decide (c = SEMI ∧ d = SEMI) then sub_line_comments true r'
            else c :: sub_line_comments false r
        | [] => [c]
        end
  end.

Definition strip_comments (content : str) : str :=
  sub_line_comments false (sub_block_comments false content).

(** [layer_dict[layer_name] = forms] for each block in turn.  A block of
    type deflayer always carries a name ([extract_deflayer_named]). *)
Definition layer_dict_set (layer_dict : gmap str (list str)) (b : block)
  : gmap str (list str) :=
  match b with
  | (Some layer_name, layer_body) =>
      <[layer_name := split_top_level_forms layer_body]> layer_dict
  | (None, _) => layer_dict
  end.

Definition layer_dict_of (deflayer_blocks : list block) : gmap str (list str) :=
  foldl layer_dict_set ∅ deflayer_blocks.

(** [parse_kmonad_config] from the text read from the file on. *)
Definition parse_kmonad_config (content : str) : list str * gmap str (list str) :=
  let content := strip_comments content in
  let defsrc_blocks := extract_defblocks content (py "defsrc") in
  let defsrc_list :=
    match defsrc_blocks with
    | (_, defsrc_body) :: _ => split_top_level_forms defsrc_body
    | [] => []
    end in
  let deflayer_blocks := extract_defblocks content (py "deflayer") in
  (defsrc_list, layer_dict_of deflayer_blocks).

(** ** Labels, the physical layout and [generate_single_grid_image] *)

Definition get_short_label (original : str) (mapping : gmap str str) : str :=
  let stripped := strip original in
  default stripped (mapping !! stripped).

(** Canonical key name and its (column, row), in the order of the source. *)
Definition PHYSICAL_KEY_MAP : list (str * (nat * nat)) :=
  [ (py "esc", (0, 0)); (py "1", (1, 0)); (py "2", (2, 0)); (py "3", (3, 0));
    (py "4", (4, 0)); (py "5", (5, 0)); (py "6", (6, 0)); (py "7", (7, 0));
    (py "8", (8, 0)); (py "9", (9, 0)); (py "0", (10, 0)); (py "-", (11, 0));
    (py "=", (12, 0)); (py "bspc", (13, 0));
    (py "tab", (0, 1)); (py "q", (1, 1)); (py "w", (2, 1)); (py "e", (3, 1));
    (py "r", (4, 1)); (py "t", (5, 1)); (py "y", (6, 1)); (py "u", (7, 1));
    (py "i", (8, 1)); (py "o", (9, 1)); (py "p", (10, 1)); (py "[", (11, 1));
    (py "]", (12, 1)); (py "\", (13, 1));
    (py "caps", (0, 2)); (py "a", (1, 2)); (py "s", (2, 2)); (py "d", (3, 2));
    (py "f", (4, 2)); (py "g", (5, 2)); (py "h", (6, 2)); (py "j", (7, 2));
    (py "k", (8, 2)); (py "l", (9, 2)); (py ";", (10, 2)); (py "'", (11, 2));
    (py "ret", (12, 2));
    (py "lsft", (0, 3)); (py "z", (1, 3)); (py "x", (2, 3)); (py "c", (3, 3));
    (py "v", (4, 3)); (py "b", (5, 3)); (py "n", (6, 3)); (py "m", (7, 3));
    (py ",", (8, 3)); (py ".", (9, 3)); (py "/", (10, 3)); (py "rsft", (11, 3));
    (py "lctl", (0, 4)); (py "lmet", (1, 4)); (py "lalt", (2, 4));
    (py "spc", (3, 4)); (py "ralt", (4, 4)); (py "rmet", (5, 4));
    (py "cmp", (6, 4)); (py "rctl", (7, 4)) ].

(** [keyname in PHYSICAL_KEY_MAP] *)
Definition in_physical (keyname : str) : bool :=
  bool_decide (keyname ∈ PHYSICAL_KEY_MAP.*1).

(** [for i, keyname in enumerate(defsrc_list)], building
    [defsrc_index_for_key]; [l] is what is left of the list from [i] on. *)
Fixpoint index_loop (l : list str) (i : nat) (d : gmap str nat) : gmap str nat :=
  match l with
  | [] => d
  | keyname :: l' =>
      index_loop l' (S i) (if in_physical keyname then <[keyname := i]> d else d)
  end.

Definition defsrc_index_for_key (defsrc_list : list str) : gmap str nat :=
  index_loop defsrc_list 0 ∅.

(** Python's order on strings, by code points. *)
Fixpoint str_leb (a b : str) : bool :=
  match a, b with
  | [], _ => true
  | _ :: _, [] => false
  | x :: a', y :: b' =>
      if (x <? y)%N then true
      else if (y <? x)%N then false
      else str_leb a' b'
  end.

Definition str_le (a b : str) : Prop := str_leb a b.

#[global] Instance str_le_dec : RelDecision str_le.
Proof. intros a b. unfold str_le. apply _. Defined.

(** [sorted(layer_dict.keys())] *)
Definition sorted_layer_names (layer_dict : gmap str (list str)) : list str :=
  merge_sort str_le (map_to_list layer_dict).*1.

(** The form of a layer at source index [i], or the not-applicable mark. *)
Definition layer_assignment (layer_keys : list str) (i : nat) : str :=
  if decide (i < length layer_keys) then default [] (layer_keys !! i)
  else py "(N/A)".

(** From [assigned] to the text that is drawn. *)
Definition display_label (assigned : str) (expr_map : gmap str str) : str :=
  let assigned := if decide (assigned = py "XX") then [] else assigned in
  let short_assigned := get_short_label assigned expr_map in
  if decide (short_assigned = py "XX") then [] else short_assigned.

(** What is drawn in the rectangle of one physical key: the key name at its
    grid position and, when the key is in defsrc, one line per layer with
    the layer it belongs to, in the order of the sorted layer names. *)
Inductive key_cell :=
| Not_in_defsrc (keyname : str) (pos : nat * nat)
| In_defsrc (keyname : str) (pos : nat * nat) (lines : list (str * str)).

(** The lines of one key declared at source index [i].  [layer_dict[ln]]
    raises on a missing key: [None]. *)
Definition cell_lines (layer_dict : gmap str (list str)) (expr_map : gmap str str)
    (layer_names : list str) (i : nat) : option (list (str * str)) :=
  mapM (λ ln, layer_keys ← layer_dict !! ln;
              Some (ln, display_label (layer_assignment layer_keys i) expr_map))
       layer_names.

(** The cells in the order they are drawn, or [None] when an exception is
    raised.  Pixel positions, colours, fonts, the legend and the notices
    about long labels belong to the rendering and are left out. *)
Definition generate_single_grid_image (defsrc_list : list str)
    (layer_dict : gmap str (list str)) (expr_map : gmap str str)
  : option (list key_cell) :=
  let index := defsrc_index_for_key defsrc_list in
  let layer_names := sorted_layer_names layer_dict in
  mapM (λ '(keyname, pos),
          match index !! keyname with
          | None => Some (Not_in_defsrc keyname pos)
          | Some i =>
              lines ← cell_lines layer_dict expr_map layer_names i;
              Some (In_defsrc keyname pos lines)
          end) PHYSICAL_KEY_MAP.

(** ** Parenthesis counts and depth, for stating what the scanner finds *)

Definition opens (s : str) : nat := length (filter (λ c, c = LPAREN) s).
Definition closes (s : str) : nat := length (filter (λ c, c = RPAREN) s).

(** The running depth never drops below zero and ends at zero. *)
Fixpoint balanced_from (depth : nat) (s : str) : bool :=
  match s with
  | [] => bool_decide (depth = 0)
  | c :: r =>
      if decide (c = LPAREN) then balanced_from (S depth) r
      else if decide (c = RPAREN) then
        match depth with 0 => false | S d => balanced_from d r end
      else balanced_from depth r
  end.

Definition balanced (s : str) : bool := balanced_from 0 s.

(** Depth of the scan started at [start] when it stands before offset [j]. *)
Definition depth_pos (content : str) (start j : nat) : Prop :=
  closes (slice content start j) < opens (slice content start j).
Definition depth_zero (content : str) (start j : nat) : Prop :=
  opens (slice content start j) = closes (slice content start j).

(** The scan started at [start] gets to offset [i]: no closing parenthesis
    before [i] brought the depth to zero or found it at zero. *)
Definition reaches (content : str) (start i : nat) : Prop :=
  ∀ j, start ≤ j < i → content !! j = Some RPAREN → depth_pos content start (S j).

Definition close_at_depth_zero (content : str) (start i : nat) : Prop :=
  start ≤ i ∧ content !! i = Some RPAREN
  ∧ reaches content start i ∧ depth_zero content start i.

Definition end_with_depth_positive (content : str) (start : nat) : Prop :=
  reaches content start (length content)
  ∧ depth_pos content start (length content).

(** A balanced parenthesized expression: an opening parenthesis, a text
    with balanced parentheses, the closing parenthesis. *)
Definition expression (e : str) : Prop :=
  ∃ inner, e = LPAREN :: inner ++ [RPAREN] ∧ balanced inner = true.

(** The deepest nesting of parentheses in a text. *)
Fixpoint max_depth (depth : nat) (s : str) : nat :=
  match s with
  | [] => depth
  | c :: r =>
      if decide (c = LPAREN) then max_depth (S depth) r `max` depth
      else if decide (c = RPAREN) then max_depth (pred depth) r `max` depth
      else max_depth depth r
  end.

Definition nesting (s : str) : nat := max_depth 0 s.


(** ** Bodies made of forms, for stating what the splitter returns *)

Definition whitespace (ws : str) : Prop := Forall (λ c, isspace c = true) ws.

(** A bare token: a non-empty run of characters that are not whitespace,
    which does not begin with an opening parenthesis. *)
Definition bare_token (tok : str) : Prop :=
  tok ≠ [] ∧ Forall (λ c, isspace c = false) tok ∧ head tok ≠ Some LPAREN.

(** A bare token without any parenthesis. *)
Definition plain_token (tok : str) : Prop :=
  tok ≠ [] ∧ Forall (λ c, isspace c = false ∧ c ≠ LPAREN ∧ c ≠ RPAREN) tok.

(** The text of a body: each form preceded by its whitespace. *)
Fixpoint joined (items : list (str * str)) : str :=
  match items with
  | [] => []
  | (ws, form) :: items' => ws ++ form ++ joined items'
  end.

(** The text is empty or begins with whitespace. *)
Definition starts_space (r : str) : Prop :=
  match r with
  | [] => True
  | c :: _ => isspace c = true
  end.

(** A body is well formed when its forms are bare tokens and expressions
    set apart by whitespace; a bare token ends at whitespace or at the end
    of the body. *)
Fixpoint well_formed_body (items : list (str * str)) (trail : str) : Prop :=
  match items with
  | [] => whitespace trail
  | (ws, form) :: items' =>
      whitespace ws
      ∧ (expression form
         ∨ (bare_token form ∧ starts_space (joined items' ++ trail)))
      ∧ well_formed_body items' trail
  end.

(** An item of a body of plain tokens: whitespace, then the token. *)
Definition token_item (it : str * str) : Prop :=
  whitespace it.1 ∧ plain_token it.2.

(** Every token but the first is set apart from the one before it. *)
Definition set_apart (items : list (str * str)) : Prop :=
  Forall (λ it, it.1 ≠ []) (tail items).

(** [d] opening parentheses, then [d] closing ones. *)
Definition nested (d : nat) : str := replicate d LPAREN ++ replicate d RPAREN.

#[global] Instance key_cell_eq_dec : EqDecision key_cell.
Proof. solve_decision. Defined.

(** ** Texts with block comments, for stating what comment removal keeps *)

(** Does the start marker of a block comment occur in [s]? *)
Fixpoint has_start (s : str) : bool :=
  match s with
  | [] => false
  | c :: r =>
      match r with
      | d :: _ => bool_decide (c = HASH ∧ d = BAR) || has_start r
      | [] => false
      end
  end.

(** A text made of terminated block comments, each after some text
    outside comments, and then [rest]. *)
Fixpoint commented (comments : list (str * str)) (rest : str) : str :=
  match comments with
  | [] => rest
  | (plain, body) :: comments' =>
      plain ++ [HASH; BAR] ++ body ++ [BAR; HASH] ++ commented comments' rest
  end.

(** ** Documents made of blocks, for stating what the extractor returns *)

(** What one extracted expression adds to the results: the part of the
    loop body of [extract_defblocks] from [inner = ...] on. *)
Definition block_entry (block_type expr_string : str) : list block :=
  let inner := strip (slice_1_m1 (strip expr_string)) in
  match split_None_1 inner with
  | block_keyword :: p1 :: _ =>
      let remainder := strip p1 in
      if decide (block_keyword = py "defsrc" ∧ block_type = py "defsrc")
      then [(None, remainder)]
      else if decide (block_keyword = py "deflayer" ∧ block_type = py "deflayer")
      then match split_None_1 remainder with
           | [] => []
           | layer_name :: remainder_parts =>
               [(Some layer_name,
                 match remainder_parts with b :: _ => b | [] => [] end)]
           end
      else []
  | _ => []
  end.

(** A document: blocks, each after some text, and a last stretch of text. *)
Fixpoint document (items : list (str * str)) (rest : str) : str :=
  match items with
  | [] => rest
  | (filler, blk) :: items' => filler ++ blk ++ document items' rest
  end.

(** A block of type [block_type] after text in which no such block begins. *)
Definition block_item (block_type : str) (it : str * str) : Prop :=
  find it.1 (LPAREN :: block_type) 0 = None
  ∧ expression it.2
  ∧ (LPAREN :: block_type) `prefix_of` it.2.

(** The text neither begins nor ends with whitespace. *)
Definition trimmed (s : str) : Prop :=
  (∀ c, head s = Some c → isspace c = false)
  ∧ (∀ c, last s = Some c → isspace c = false).

(** A word: a non-empty run of characters that are not whitespace. *)
Definition word (w : str) : Prop :=
  w ≠ [] ∧ Forall (λ c, isspace c = false) w.

(** The text of a block: the keyword, and a payload set apart from it. *)
Definition block_text (keyword ws1 payload ws2 : str) : str :=
  LPAREN :: keyword ++ ws1 ++ payload ++ ws2 ++ [RPAREN].

(** A layer declaration: the whitespace after the keyword, the layer name,
    the whitespace after it, the body, the whitespace before the closing
    parenthesis. *)
Record layer_decl := {
  ld_ws1 : str;
  ld_name : str;
  ld_ws2 : str;
  ld_body : str;
  ld_ws3 : str
}.

Definition layer_block (d : layer_decl) : str :=
  block_text (py "deflayer") (ld_ws1 d) (ld_name d ++ ld_ws2 d ++ ld_body d)
    (ld_ws3 d).

Definition well_formed_layer (d : layer_decl) : Prop :=
  whitespace (ld_ws1 d) ∧ ld_ws1 d ≠ []
  ∧ word (ld_name d)
  ∧ whitespace (ld_ws2 d)
  ∧ (ld_body d = [] ∧ ld_ws2 d = []
     ∨ ld_body d ≠ [] ∧ ld_ws2 d ≠ [] ∧ trimmed (ld_body d))
  ∧ whitespace (ld_ws3 d)
  ∧ expression (layer_block d).

(** A document of layer declarations, each after some text. *)
Definition layer_document (items : list (str * layer_decl)) (rest : str) : str :=
  document ((λ it, (it.1, layer_block it.2)) <$> items) rest.

(** A source declaration: the whitespace after the keyword, the body, the
    whitespace before the closing parenthesis. *)
Record source_decl := {
  sd_ws1 : str;
  sd_body : str;
  sd_ws2 : str
}.

Definition source_block (d : source_decl) : str :=
  block_text (py "defsrc") (sd_ws1 d) (sd_body d) (sd_ws2 d).

Definition well_formed_source (d : source_decl) : Prop :=
  whitespace (sd_ws1 d) ∧ whitespace (sd_ws2 d)
  ∧ (sd_body d = [] ∨ sd_body d ≠ [] ∧ sd_ws1 d ≠ [] ∧ trimmed (sd_body d))
  ∧ expression (source_block d).

(** A document of source declarations, each after some text. *)
Definition source_document (items : list (str * source_decl)) (rest : str) : str :=
  document ((λ it, (it.1, source_block it.2)) <$> items) rest.

(** ** Offsets moved by the length of a text put in front *)

Definition shift_error (k : nat) (e : ValueError) : ValueError :=
  match e with
  | Unmatched_close i => Unmatched_close (k + i)
  | Unmatched_open start_index => Unmatched_open (k + start_index)
  end.

Definition shift_result (k : nat) (r : ValueError + (option str * nat))
  : ValueError + (option str * nat) :=
  match r with
  | inl e => inl (shift_error k e)
  | inr (e, next) => inr (e, k + next)
  end.

(** ** Forms, for stating what the splitter returns on any body *)

(** The characters of a text that are not whitespace, in order. *)
Definition non_space (s : str) : str := filter (λ c, isspace c = false) s.

(** A form as the splitter returns it: not empty, with no whitespace at
    either end, and with whitespace inside only when it begins with an
    opening parenthesis. *)
Definition is_form (f : str) : Prop :=
  f ≠ [] ∧ trimmed f
  ∧ (head f = Some LPAREN ∨ Forall (λ c, isspace c = false) f).

(** Forms at the head of a body that goes on with [rest]: bare tokens and
    expressions, a bare token ending at whitespace or at the end. *)
Fixpoint forms_before (items : list (str * str)) (rest : str) : Prop :=
  match items with
  | [] => True
  | (ws, form) :: items' =>
      whitespace ws
      ∧ (expression form
         ∨ (bare_token form ∧ starts_space (joined items' ++ rest)))
      ∧ forms_before items' rest
  end.

(** ** Line comments, for stating what comment removal leaves *)

(** Does the marker of a line comment occur in [s]? *)
Fixpoint has_line_marker (s : str) : bool :=
  match s with
  | [] => false
  | c :: r =>
      match r with
      | d :: _ => bool_decide (c = SEMI ∧ d = SEMI) || has_line_marker r
      | [] => false
      end
  end.

(** Does a block comment occur in [s]: a start marker and, somewhere after
    it, an end marker? *)
Fixpoint has_block_comment (s : str) : bool :=
  match s with
  | [] => false
  | c :: r =>
      match r with
      | d :: r' =>
          bool_decide (c = HASH ∧ d = BAR) && has_end r' || has_block_comment r
      | [] => false
      end
  end.

(** The number of newline characters of a text. *)
Definition newlines (s : str) : nat := length (filter (λ c, c = NEWLINE) s).

(** ** Cells, for stating what the aligner draws *)

(** The key a cell is drawn for, and its grid position. *)
Definition cell_key (cell : key_cell) : str * (nat * nat) :=
  match cell with
  | Not_in_defsrc keyname pos => (keyname, pos)
  | In_defsrc keyname pos _ => (keyname, pos)
  end.

(** What the aligner draws for one physical key. *)
Definition cell_of (defsrc_list : list str) (layer_dict : gmap str (list str))
    (expr_map : gmap str str) (key : str * (nat * nat)) (cell : key_cell) : Prop :=
  match defsrc_index_for_key defsrc_list !! key.1 with
  | None => cell = Not_in_defsrc key.1 key.2
  | Some i =>
      ∃ lines, cell = In_defsrc key.1 key.2 lines
        ∧ cell_lines layer_dict expr_map (sorted_layer_names layer_dict) i
          = Some lines
  end.

(** ** The geometry of the image *)

Definition max_x : nat := max_list PHYSICAL_KEY_MAP.*2.*1.
Definition max_y : nat := max_list PHYSICAL_KEY_MAP.*2.*2.
Definition physical_cols : nat := max_x + 1.
Definition physical_rows : nat := max_y + 1.

Definition cell_width : nat := 130.
Definition cell_height : nat := 180.

(** [n] stands for [len(layer_names)]. *)
Definition legend_height (n : nat) : nat := 50 + ((n + 3) / 4) * 20.
Definition image_width : nat := physical_cols * cell_width.
Definition image_height (n : nat) : nat :=
  physical_rows * cell_height + legend_height n.

(** The list [[x0, y0, x1, y1]] given to [draw.rectangle]; both corners
    belong to the rectangle. *)
Record rectangle := Rectangle { x0 : nat; y0 : nat; x1 : nat; y1 : nat }.

(** The swatch of the layer that stands at index [i] of the sorted names. *)
Definition legend_rectangle (i : nat) : rectangle :=
  let legend_x := 10 in
  let legend_y := 10 in
  let lx := legend_x + (i mod 4) * 200 in
  let ly := legend_y + (i / 4) * 20 in
  Rectangle lx ly (lx + 20) (ly + 15).

(** The rectangle of the key at grid position [(cx, cy)]. *)
Definition key_rectangle (n : nat) (pos : nat * nat) : rectangle :=
  let '(cx, cy) := pos in
  let grid_offset_y := legend_height n in
  let p_x := cx * cell_width in
  let p_y := grid_offset_y + cy * cell_height in
  Rectangle p_x p_y (p_x + cell_width - 2) (p_y + cell_height - 2).

(** Where the text of line [j] of a key is anchored: [line_y] starts at
    [py + 30] and grows by 15 with every layer. *)
Definition line_position (n : nat) (pos : nat * nat) (j : nat) : nat * nat :=
  let '(cx, cy) := pos in
  let p_x := cx * cell_width in
  let p_y := legend_height n + cy * cell_height in
  (p_x + 5, p_y + 30 + 15 * j).

(** A rectangle lies in an image of the given width and height. *)
Definition in_image (r : rectangle) (width height : nat) : Prop :=
  x0 r ≤ x1 r ∧ y0 r ≤ y1 r ∧ x1 r < width ∧ y1 r < height.

(** Two rectangles share no point. *)
Definition apart (r s : rectangle) : Prop :=
  x1 r < x0 s ∨ x1 s < x0 r ∨ y1 r < y0 s ∨ y1 s < y0 r.

(** A point lies in a rectangle. *)
Definition in_rectangle (p : nat * nat) (r : rectangle) : Prop :=
  x0 r ≤ p.1 ≤ x1 r ∧ y0 r ≤ p.2 ≤ y1 r.
(** * Properties *)

(** ** Sanity checks on the examples of the source *)

Example scan_docstring :
  find_top_level_expression (py "abc (tap-hold 200 a (around lsft b)) def") 4
  = inr (Some (py "(tap-hold 200 a (around lsft b))"), 36).
Proof. reflexivity. Qed.

Example split_docstring :
  split_top_level_forms (py "abc (tap-hold 200 a (around lsft b)) def")
  = [py "abc"; py "(tap-hold 200 a (around lsft b))"; py "def"].
Proof. vm_compute. reflexivity. Qed.

Example parse_example :
  parse_kmonad_config (py "(defsrc a b c) (deflayer base 1 2 3)")
  = ([py "a"; py "b"; py "c"], {[ py "base" := [py "1"; py "2"; py "3"] ]}).
Proof. vm_compute. reflexivity. Qed.

(** ** Counting parentheses *)

Section counts.
Implicit Types (s : str) (c : N).

Lemma opens_nil : opens [] = 0.
Proof. reflexivity. Qed.

Lemma closes_nil : closes [] = 0.
Proof. reflexivity. Qed.

Lemma opens_cons c s :
  opens (c :: s) = (if decide (c = LPAREN) then 1 else 0) + opens s.
Proof. unfold opens. rewrite filter_cons. by case_decide. Qed.

Lemma closes_cons c s :
  closes (c :: s) = (if decide (c = RPAREN) then 1 else 0) + closes s.
Proof. unfold closes. rewrite filter_cons. by case_decide. Qed.

Lemma opens_app s1 s2 : opens (s1 ++ s2) = opens s1 + opens s2.
Proof. unfold opens. by rewrite filter_app, length_app. Qed.

Lemma closes_app s1 s2 : closes (s1 ++ s2) = closes s1 + closes s2.
Proof. unfold closes. by rewrite filter_app, length_app. Qed.

Lemma length_removelast {A} (l : list A) :
  length (removelast l) = pred (length l).
Proof.
  induction l as [|x [|y l] IH]; [done..|].
  change (removelast (x :: y :: l)) with (x :: removelast (y :: l)).
  simpl length in *. lia.
Qed.
End counts.

Lemma paren_distinct : LPAREN ≠ RPAREN.
Proof. discriminate. Qed.

(** ** The scanner loop *)

Ltac count :=
  repeat first
    [ rewrite firstn_cons | rewrite take_0 | rewrite opens_cons
    | rewrite closes_cons | rewrite opens_nil | rewrite closes_nil ];
  repeat (rewrite decide_True by done);
  repeat (rewrite decide_False by (done || apply paren_distinct));
  simpl in *; try lia.

Ltac clia :=
  repeat case_decide; subst; try (by destruct paren_distinct); simpl in *; lia.

(** What each outcome of the loop says about the text it ran over: [n] is
    the number of characters before the one that stopped the scan. *)
Lemma scan_loop_spec rest : ∀ i stack,
  match scan_loop rest i stack with
  | inl (Unmatched_close k) =>
      ∃ n, k = i + n ∧ rest !! n = Some RPAREN
        ∧ length stack + opens (take n rest) = closes (take n rest)
        ∧ ∀ m, m < n → rest !! m = Some RPAREN →
            closes (take (S m) rest) < length stack + opens (take (S m) rest)
  | inl (Unmatched_open _) => False
  | inr (inl next) =>
      ∃ n, next = S (i + n) ∧ rest !! n = Some RPAREN
        ∧ length stack + opens (take (S n) rest) = closes (take (S n) rest)
        ∧ ∀ m, m < n → rest !! m = Some RPAREN →
            closes (take (S m) rest) < length stack + opens (take (S m) rest)
  | inr (inr st) =>
      length st + closes rest = length stack + opens rest
      ∧ ∀ m, rest !! m = Some RPAREN →
          closes (take (S m) rest) < length stack + opens (take (S m) rest)
  end.
Proof.
  induction rest as [|c rest IH]; intros i stack.
  { split; [done|]. intros m Hm. by rewrite lookup_nil in Hm. }
  cbn [scan_loop].
  assert (Hstep : ∀ stack',
    (c = RPAREN → stack' ≠ [] ∧ S (length stack') = length stack) →
    (c ≠ RPAREN → length stack' = (if decide (c = LPAREN) then 1 else 0) + length stack) →
    match scan_loop rest (S i) stack' with
    | inl (Unmatched_close k) =>
        ∃ n, k = i + n ∧ (c :: rest) !! n = Some RPAREN
          ∧ length stack + opens (take n (c :: rest)) = closes (take n (c :: rest))
          ∧ ∀ m, m < n → (c :: rest) !! m = Some RPAREN →
              closes (take (S m) (c :: rest)) < length stack + opens (take (S m) (c :: rest))
    | inl (Unmatched_open _) => False
    | inr (inl next) =>
        ∃ n, next = S (i + n) ∧ (c :: rest) !! n = Some RPAREN
          ∧ length stack + opens (take (S n) (c :: rest)) = closes (take (S n) (c :: rest))
          ∧ ∀ m, m < n → (c :: rest) !! m = Some RPAREN →
              closes (take (S m) (c :: rest)) < length stack + opens (take (S m) (c :: rest))
    | inr (inr st) =>
        length st + closes (c :: rest) = length stack + opens (c :: rest)
        ∧ ∀ m, (c :: rest) !! m = Some RPAREN →
            closes (take (S m) (c :: rest)) < length stack + opens (take (S m) (c :: rest))
    end).
  { intros stack' Hclose Hother. specialize (IH (S i) stack').
    assert (Hz : closes (take 1 (c :: rest)) < length stack + opens (take 1 (c :: rest))
                 ∨ c ≠ RPAREN).
    { destruct (decide (c = RPAREN)) as [->|]; [left|by right].
      destruct Hclose as [Hne Hl]; [done|]. destruct stack'; [done|]. count. }
    assert (Hlen : length stack' + (if decide (c = RPAREN) then 1 else 0)
                   = (if decide (c = LPAREN) then 1 else 0) + length stack).
    { destruct (decide (c = RPAREN)) as [->|Hc].
      - destruct Hclose as [_ Hl]; [done|]. count.
      - rewrite Hother by done. lia. }
    destruct (scan_loop rest (S i) stack') as [[k|?]|[next|st]]; [| done | |].
    - destruct IH as (n & -> & Hn & Hd & Hm). exists (S n).
      split; [clia|]. split; [done|]. rewrite firstn_cons, opens_cons, closes_cons.
      split; [clia|]. intros [|m] Hlt Hl.
      + destruct Hz as [Hz|Hz]; [done|]. simpl in Hl. congruence.
      + rewrite firstn_cons, opens_cons, closes_cons.
        simpl in Hl. specialize (Hm m ltac:(lia) Hl). clia.
    - destruct IH as (n & -> & Hn & Hd & Hm). exists (S n).
      split; [clia|]. split; [done|]. rewrite firstn_cons, opens_cons, closes_cons.
      split; [clia|]. intros [|m] Hlt Hl.
      + destruct Hz as [Hz|Hz]; [done|]. simpl in Hl. congruence.
      + rewrite firstn_cons, opens_cons, closes_cons.
        simpl in Hl. specialize (Hm m ltac:(lia) Hl). clia.
    - destruct IH as (Hd & Hm). rewrite opens_cons, closes_cons.
      split; [clia|]. intros [|m] Hl.
      + destruct Hz as [Hz|Hz]; [done|]. simpl in Hl. congruence.
      + rewrite firstn_cons, opens_cons, closes_cons.
        simpl in Hl. specialize (Hm m Hl). clia. }
  destruct (decide (c = LPAREN)) as [->|Hno].
  - apply Hstep; [intros; by destruct paren_distinct|].
    intros _. rewrite length_app. simpl. lia.
  - destruct (decide (c = RPAREN)) as [->|Hnc]; [|by apply Hstep].
    destruct stack as [|x stack].
    { exists 0. split; [clia|]. split; [done|]. split; [done|]. intros m ?; lia. }
    pose proof (length_removelast (x :: stack)) as Hlen.
    destruct (removelast (x :: stack)) as [|y stack'] eqn:Hrm.
    { exists 0. split; [clia|]. split; [done|]. split; [count|]. intros m ?; lia. }
    apply Hstep; [|done]. intros _. split; [done|]. simpl in *. lia.
Qed.

(** With something on the stack the loop never reports an unmatched
    closing parenthesis, and the depth stays positive up to where it ends. *)
Lemma scan_loop_open rest : ∀ i stack,
  stack ≠ [] →
  match scan_loop rest i stack with
  | inl _ => False
  | inr (inl next) =>
      ∃ n, next = S (i + n) ∧ rest !! n = Some RPAREN
        ∧ length stack + opens (take (S n) rest) = closes (take (S n) rest)
        ∧ ∀ m, m ≤ n → closes (take m rest) < length stack + opens (take m rest)
  | inr (inr st) =>
      st ≠ [] ∧ ∀ m, closes (take m rest) < length stack + opens (take m rest)
  end.
Proof.
  induction rest as [|c rest IH]; intros i stack Hne.
  { split; [done|]. intros m. rewrite take_nil. destruct stack; [done|]. count. }
  cbn [scan_loop].
  assert (Hpos : 0 < length stack) by (destruct stack; [done|simpl; lia]).
  assert (Hstep : ∀ stack', stack' ≠ [] →
    length stack' + (if decide (c = RPAREN) then 1 else 0)
      = (if decide (c = LPAREN) then 1 else 0) + length stack →
    match scan_loop rest (S i) stack' with
    | inl _ => False
    | inr (inl next) =>
        ∃ n, next = S (i + n) ∧ (c :: rest) !! n = Some RPAREN
          ∧ length stack + opens (take (S n) (c :: rest)) = closes (take (S n) (c :: rest))
          ∧ ∀ m, m ≤ n → closes (take m (c :: rest)) < length stack + opens (take m (c :: rest))
    | inr (inr st) =>
        st ≠ [] ∧ ∀ m, closes (take m (c :: rest)) < length stack + opens (take m (c :: rest))
    end).
  { intros stack' Hne' Hlen. specialize (IH (S i) stack' Hne').
    destruct (scan_loop rest (S i) stack') as [?|[next|st]]; [done| |].
    - destruct IH as (n & -> & Hn & Hd & Hm). exists (S n).
      split; [lia|]. split; [done|]. rewrite firstn_cons, opens_cons, closes_cons.
      split; [clia|]. intros [|m] Hle; [count|].
      rewrite firstn_cons, opens_cons, closes_cons.
      specialize (Hm m ltac:(lia)). clia.
    - destruct IH as (Hst & Hm). split; [done|]. intros [|m]; [count|].
      rewrite firstn_cons, opens_cons, closes_cons. specialize (Hm m). clia. }
  destruct (decide (c = LPAREN)) as [->|Hno].
  - apply Hstep; [by destruct stack|]. rewrite length_app. clia.
  - destruct (decide (c = RPAREN)) as [->|Hnc]; [|apply Hstep; [done|clia]].
    destruct stack as [|x stack]; [done|].
    pose proof (length_removelast (x :: stack)) as Hlen.
    destruct (removelast (x :: stack)) as [|y stack'] eqn:Hrm.
    { exists 0. split; [lia|]. split; [done|]. split; [count|].
      intros m Hm. assert (m = 0) as -> by lia. count. }
    apply Hstep; [done|]. clia.
Qed.

(** ** The scanner, in terms of the buffer and the start offset *)

Lemma slice_to_end (content : str) start :
  slice content start (length content) = drop start content.
Proof. unfold slice. apply take_ge. rewrite length_drop. lia. Qed.

Lemma slice_snoc (content : str) start i c :
  start ≤ i → content !! i = Some c →
  slice content start (S i) = slice content start i ++ [c].
Proof.
  intros Hle Hc. unfold slice. replace (S i - start) with (S (i - start)) by lia.
  apply take_S_r. rewrite lookup_drop. by replace (start + (i - start)) with i by lia.
Qed.

Lemma find_top_level_expression_cases content start :
  match find_top_level_expression content start with
  | inl (Unmatched_close i) => close_at_depth_zero content start i
  | inl (Unmatched_open s) => s = start ∧ end_with_depth_positive content start
  | inr (Some e, next) =>
      ∃ i, next = S i ∧ start ≤ i ∧ e = slice content start (S i)
        ∧ content !! i = Some RPAREN
        ∧ reaches content start i ∧ depth_zero content start (S i)
  | inr (None, next) =>
      next = length content ∧ reaches content start (length content)
      ∧ depth_zero content start (length content)
  end.
Proof.
  unfold find_top_level_expression.
  pose proof (scan_loop_spec (drop start content) start []) as H.
  assert (Hreach : ∀ n,
    (∀ m, m < n → drop start content !! m = Some RPAREN →
       closes (take (S m) (drop start content))
       < length (@nil N) + opens (take (S m) (drop start content))) →
    reaches content start (start + n)).
  { intros n Hm j Hj Hc. unfold depth_pos, slice.
    specialize (Hm (j - start) ltac:(lia)). rewrite lookup_drop in Hm.
    replace (start + (j - start)) with j in Hm by lia.
    replace (S j - start) with (S (j - start)) by lia. simpl in Hm. auto. }
  destruct (scan_loop (drop start content) start []) as [[k|?]|[next|st]]; [|done| |].
  - destruct H as (n & -> & Hn & Hd & Hm). rewrite lookup_drop in Hn.
    split; [lia|]. split; [done|]. split; [by apply Hreach|].
    unfold depth_zero, slice. replace (start + n - start) with n by lia. done.
  - destruct H as (n & -> & Hn & Hd & Hm). rewrite lookup_drop in Hn.
    exists (start + n). split; [done|]. split; [lia|]. split; [done|].
    split; [done|]. split; [by apply Hreach|].
    unfold depth_zero, slice. replace (S (start + n) - start) with (S n) by lia. done.
  - destruct H as (Hd & Hm).
    assert (reaches content start (length content)) as Hr.
    { intros j Hj Hc. unfold depth_pos, slice.
      specialize (Hm (j - start)). rewrite lookup_drop in Hm.
      replace (start + (j - start)) with j in Hm by lia.
      replace (S j - start) with (S (j - start)) by lia. simpl in Hm. auto. }
    destruct st as [|x st].
    + split; [done|]. split; [done|]. unfold depth_zero.
      rewrite slice_to_end. simpl in Hd. lia.
    + split; [done|]. split; [done|]. unfold depth_pos.
      rewrite slice_to_end. simpl in Hd. lia.
Qed.

(** A closing parenthesis met at depth zero leaves the depth below zero. *)
Lemma close_at_depth_zero_after content start i :
  close_at_depth_zero content start i →
  closes (slice content start (S i)) = S (opens (slice content start (S i))).
Proof.
  intros (Hle & Hc & _ & Hz). unfold depth_zero in Hz.
  rewrite (slice_snoc _ _ _ _ Hle Hc), opens_app, closes_app. count.
Qed.

Lemma close_at_depth_zero_unique content start i i' :
  close_at_depth_zero content start i → close_at_depth_zero content start i' →
  i = i'.
Proof.
  assert (∀ a b, close_at_depth_zero content start a →
                 close_at_depth_zero content start b → ¬ a < b) as Hlt.
  { intros a b Ha Hb Hab. pose proof (close_at_depth_zero_after _ _ _ Ha) as Hafter.
    destruct Ha as (Hle & Hc & _ & _). destruct Hb as (_ & _ & Hr & _).
    specialize (Hr a ltac:(lia) Hc). unfold depth_pos in Hr. lia. }
  intros H H'. pose proof (Hlt _ _ H H'). pose proof (Hlt _ _ H' H). lia.
Qed.

Lemma close_at_depth_zero_not_end content start i :
  close_at_depth_zero content start i → ¬ end_with_depth_positive content start.
Proof.
  intros Ha [Hr _]. pose proof (close_at_depth_zero_after _ _ _ Ha) as Hafter.
  destruct Ha as (Hle & Hc & _ & _).
  specialize (Hr i). unfold depth_pos in Hr.
  apply lookup_lt_Some in Hc as Hlt. specialize (Hr ltac:(lia) Hc). lia.
Qed.

(** Once the depth is back at zero after a closing parenthesis, the scan
    gets no further. *)
Lemma return_stops content start i j :
  start ≤ i → content !! i = Some RPAREN → depth_zero content start (S i) →
  i < j → ¬ reaches content start j.
Proof.
  intros Hle Hc Hz Hlt Hr. specialize (Hr i ltac:(lia) Hc).
  unfold depth_pos, depth_zero in *. lia.
Qed.

(** Started at an opening parenthesis, the scanner either returns the text
    up to the first offset where the depth is back at zero, or finds the
    depth positive all the way to the end. *)
Lemma find_top_level_expression_at_open content start :
  content !! start = Some LPAREN →
  match find_top_level_expression content start with
  | inl (Unmatched_close _) => False
  | inl (Unmatched_open s) =>
      s = start ∧ ∀ j, start < j ≤ length content → depth_pos content start j
  | inr (Some e, next) =>
      ∃ i, next = S i ∧ start < i ∧ e = slice content start (S i)
        ∧ content !! i = Some RPAREN ∧ depth_zero content start (S i)
        ∧ ∀ j, start < j ≤ i → depth_pos content start j
  | inr (None, _) => False
  end.
Proof.
  intros Hs. unfold find_top_level_expression.
  rewrite (drop_S _ _ _ Hs). cbn [scan_loop]. rewrite decide_True by done.
  pose proof (scan_loop_open (drop (S start) content) (S start) [LPAREN]) as H.
  simpl app. specialize (H ltac:(done)).
  assert (Hsl : ∀ m, slice content start (S start + m)
                     = LPAREN :: take m (drop (S start) content)).
  { intros m. unfold slice. replace (S start + m - start) with (S m) by lia.
    by rewrite (drop_S _ _ _ Hs). }
  destruct (scan_loop (drop (S start) content) (S start) [LPAREN])
    as [?|[next|st]]; [done| |].
  - destruct H as (n & -> & Hn & Hd & Hm). rewrite lookup_drop in Hn.
    exists (S start + n). split; [done|]. split; [lia|]. split; [done|].
    split; [done|]. split.
    + unfold depth_zero. replace (S (S start + n)) with (S start + S n) by lia.
      rewrite Hsl. count.
    + intros j Hj. unfold depth_pos.
      replace j with (S start + (j - S start)) by lia. rewrite Hsl.
      specialize (Hm (j - S start) ltac:(lia)). count.
  - destruct H as (Hst & Hm). destruct st as [|x st]; [done|].
    split; [done|]. intros j Hj. unfold depth_pos.
    replace j with (S start + (j - S start)) by lia. rewrite Hsl.
    specialize (Hm (j - S start)). count.
Qed.

(** ** Balanced buffers *)

Lemma balanced_from_spec s : ∀ d,
  balanced_from d s = true →
  d + opens s = closes s ∧ ∀ n, closes (take n s) ≤ d + opens (take n s).
Proof.
  induction s as [|c s IH]; intros d H; simpl in H.
  { apply bool_decide_eq_true in H as ->. split; [done|].
    intros n. rewrite take_nil. count. }
  assert (Hstep : ∀ d', balanced_from d' s = true →
    d' + (if decide (c = RPAREN) then 1 else 0)
      = (if decide (c = LPAREN) then 1 else 0) + d →
    d + opens (c :: s) = closes (c :: s)
    ∧ ∀ n, closes (take n (c :: s)) ≤ d + opens (take n (c :: s))).
  { intros d' Hb Hd. destruct (IH d' Hb) as [Heq Hpre].
    rewrite opens_cons, closes_cons. split; [clia|].
    intros [|n]; [count|]. rewrite firstn_cons, opens_cons, closes_cons.
    specialize (Hpre n). clia. }
  destruct (decide (c = LPAREN)) as [->|Hno]; [apply (Hstep (S d)); [done|clia]|].
  destruct (decide (c = RPAREN)) as [->|Hnc]; [|apply (Hstep d); [done|clia]].
  destruct d as [|d]; [done|]. apply (Hstep d); [done|clia].
Qed.

(** In a balanced buffer, what follows any offset closes at least as many
    parentheses as it opens. *)
Lemma balanced_suffix content start :
  balanced content = true →
  opens (drop start content) ≤ closes (drop start content).
Proof.
  intros H. destruct (balanced_from_spec _ _ H) as [Heq Hpre].
  specialize (Hpre start). rewrite <- (take_drop start content) in Heq.
  rewrite opens_app, closes_app in Heq. lia.
Qed.

(** C1: in a buffer with balanced parentheses, the scanner started at an
    opening parenthesis returns the text from the start offset through the
    matching closing parenthesis at [i] and the offset after it.  The text
    returned opens as many parentheses as it closes, and [i] is the
    matching one: at every offset in between the depth is positive. *)
Theorem find_top_level_expression_balanced content start :
  balanced content = true →
  content !! start = Some LPAREN →
  ∃ i, find_top_level_expression content start
       = inr (Some (slice content start (S i)), S i)
     ∧ start < i ∧ content !! i = Some RPAREN
     ∧ opens (slice content start (S i)) = closes (slice content start (S i))
     ∧ ∀ j, start < j ≤ i →
         closes (slice content start j) < opens (slice content start j).
Proof.
  intros Hbal Hs.
  pose proof (find_top_level_expression_at_open content start Hs) as H.
  destruct (find_top_level_expression content start) as [[k|s']|[[e|] next]];
    [done| | |done].
  - destruct H as [_ Hpos]. apply lookup_lt_Some in Hs as Hlt.
    specialize (Hpos (length content) ltac:(lia)). unfold depth_pos in Hpos.
    rewrite slice_to_end in Hpos.
    pose proof (balanced_suffix content start Hbal). lia.
  - destruct H as (i & -> & Hlt & -> & Hc & Hz & Hpos). by exists i.
Qed.

Lemma find_top_level_expression_balanced_witness :
  ∃ i, find_top_level_expression (py "a (b (c) d) (e)") 2
       = inr (Some (slice (py "a (b (c) d) (e)") 2 (S i)), S i)
     ∧ 2 < i ∧ py "a (b (c) d) (e)" !! i = Some RPAREN
     ∧ opens (slice (py "a (b (c) d) (e)") 2 (S i))
       = closes (slice (py "a (b (c) d) (e)") 2 (S i))
     ∧ ∀ j, 2 < j ≤ i →
         closes (slice (py "a (b (c) d) (e)") 2 j)
         < opens (slice (py "a (b (c) d) (e)") 2 j).
Proof.
  apply (find_top_level_expression_balanced (py "a (b (c) d) (e)") 2);
    reflexivity.
Defined.

(** C5: the scanner fails in exactly two cases.  It signals an unmatched
    closing parenthesis at offset [i] exactly when the scan meets a closing
    parenthesis at [i] with the depth at zero, and an unmatched opening
    parenthesis, naming the start offset, exactly when the scan gets to the
    end of the buffer with the depth still positive; in every other case
    it returns, and started at an opening parenthesis it returns an
    expression. *)
Theorem find_top_level_expression_failures content start :
  (∀ i, find_top_level_expression content start = inl (Unmatched_close i)
        ↔ close_at_depth_zero content start i)
  ∧ (∀ s, find_top_level_expression content start = inl (Unmatched_open s)
          ↔ s = start ∧ end_with_depth_positive content start)
  ∧ ((∀ i, ¬ close_at_depth_zero content start i) →
     ¬ end_with_depth_positive content start →
     ∃ e next, find_top_level_expression content start = inr (e, next)
               ∧ (content !! start = Some LPAREN → is_Some e)).
Proof.
  pose proof (find_top_level_expression_cases content start) as H.
  pose proof (find_top_level_expression_at_open content start) as Hopen.
  destruct (find_top_level_expression content start) as [[k|s']|[[e|] next]].
  - split; [|split].
    + intros i. split; [by intros [= <-]|].
      intros Hi. f_equal. f_equal. by eapply close_at_depth_zero_unique.
    + intros s. split; [done|]. intros [_ He].
      by destruct (close_at_depth_zero_not_end _ _ _ H).
    + intros Hno. by destruct (Hno k).
  - destruct H as [-> He]. split; [|split].
    + intros i. split; [done|]. intros Hi.
      by destruct (close_at_depth_zero_not_end _ _ _ Hi).
    + intros s. split; [by intros [= <-]|]. by intros [-> _].
    + intros _ Hno. done.
  - destruct H as (i & -> & Hle & -> & Hc & Hr & Hz). split; [|split].
    + intros k. split; [done|]. intros Hk.
      pose proof (close_at_depth_zero_after _ _ _ Hk) as Hafter.
      destruct Hk as (Hlek & Hck & Hrk & Hzk).
      destruct (decide (k < i)) as [Hki|Hki].
      { specialize (Hr k ltac:(lia) Hck). unfold depth_pos in Hr. lia. }
      destruct (decide (k = i)) as [->|Hne].
      { unfold depth_zero in Hz. lia. }
      destruct (return_stops content start i k); auto with lia.
    + intros s. split; [done|]. intros [_ [Hre _]].
      apply lookup_lt_Some in Hc as Hlt.
      destruct (return_stops content start i (length content)); auto.
    + intros _ _. eauto.
  - destruct H as (-> & Hr & Hz). split; [|split].
    + intros k. split; [done|]. intros Hk.
      pose proof (close_at_depth_zero_after _ _ _ Hk) as Hafter.
      destruct Hk as (Hlek & Hck & Hrk & Hzk).
      apply lookup_lt_Some in Hck as Hlt.
      specialize (Hr k ltac:(lia) Hck). unfold depth_pos in Hr. lia.
    + intros s. split; [done|]. intros [_ [_ Hp]].
      unfold depth_pos, depth_zero in *. lia.
    + intros Hno _. exists None, (length content). split; [done|].
      intros Hs. by destruct (Hopen Hs).
Qed.

Lemma find_top_level_expression_failures_witness :
  ∃ e next, find_top_level_expression (py "(a (b))") 0 = inr (e, next)
            ∧ (py "(a (b))" !! 0 = Some LPAREN → is_Some e).
Proof.
  apply (find_top_level_expression_failures (py "(a (b))") 0).
  - intros i H.
    apply (find_top_level_expression_failures (py "(a (b))") 0) in H.
    discriminate H.
  - intros H.
    assert (find_top_level_expression (py "(a (b))") 0 = inl (Unmatched_open 0)) as H'
      by (by apply (find_top_level_expression_failures (py "(a (b))") 0)).
    discriminate H'.
Defined.

(** ** The scanner on a parenthesized expression inside a longer text *)

Lemma scan_loop_balanced inner r : ∀ d i stack,
  balanced_from d inner = true → length stack = S d →
  scan_loop (inner ++ RPAREN :: r) i stack = inr (inl (S (i + length inner))).
Proof.
  induction inner as [|c inner IH]; intros d i stack Hb Hlen; simpl in Hb.
  - apply bool_decide_eq_true in Hb as ->. cbn [app scan_loop].
    rewrite decide_False by (symmetry; apply paren_distinct).
    rewrite decide_True by done.
    destruct stack as [|x [|y stack]]; [done| |done].
    simpl. do 2 f_equal. lia.
  - cbn [app scan_loop length].
    destruct (decide (c = LPAREN)) as [->|Hno].
    + rewrite (IH (S d)); [do 2 f_equal; lia|done|]. rewrite length_app. simpl. lia.
    + destruct (decide (c = RPAREN)) as [->|Hnc].
      * destruct d as [|d]; [done|].
        destruct stack as [|x stack]; [done|].
        pose proof (length_removelast (x :: stack)) as Hrm.
        destruct (removelast (x :: stack)) as [|y stack'] eqn:E.
        { simpl in *. lia. }
        rewrite (IH d); [do 2 f_equal; lia|done|]. simpl in *. lia.
      * rewrite (IH d); [do 2 f_equal; lia|done|done].
Qed.

Lemma find_top_level_expression_expression a e r :
  expression e →
  find_top_level_expression (a ++ e ++ r) (length a)
  = inr (Some e, length a + length e).
Proof.
  intros (inner & -> & Hb). unfold find_top_level_expression.
  rewrite drop_app_length. cbn [app scan_loop]. rewrite decide_True by done.
  rewrite <- app_assoc. cbn [app].
  rewrite (scan_loop_balanced inner r 0); [|done|done].
  simpl length. rewrite length_app. simpl length.
  replace (S (S (length a) + length inner)) with (length a + S (length inner + 1)) by lia.
  do 3 f_equal. unfold slice.
  rewrite drop_app_length.
  replace (length a + S (length inner + 1) - length a)
    with (length (LPAREN :: inner ++ [RPAREN])) by (simpl; rewrite length_app; simpl; lia).
  change (LPAREN :: inner ++ RPAREN :: r) with ((LPAREN :: inner) ++ RPAREN :: r).
  rewrite (app_assoc _ [RPAREN] r : (LPAREN :: inner) ++ RPAREN :: r = ((LPAREN :: inner) ++ [RPAREN]) ++ r).
  by rewrite take_app_length.
Qed.

(** ** The splitter on a well-formed body *)

Lemma skip_space_app ws r i :
  whitespace ws →
  match r with [] => True | c :: _ => isspace c = false end →
  skip_space (ws ++ r) i = i + length ws.
Proof.
  intros Hws Hr. revert i. induction Hws as [|c ws Hc _ IH]; intros i.
  - simpl. destruct r as [|c r]; simpl; [lia|]. rewrite Hr. lia.
  - simpl. rewrite Hc, IH. lia.
Qed.

Lemma skip_token_app tok r i :
  Forall (λ c, isspace c = false) tok → starts_space r →
  skip_token (tok ++ r) i = i + length tok.
Proof.
  intros Htok Hr. revert i. induction Htok as [|c tok Hc _ IH]; intros i.
  - simpl. destruct r as [|c r]; simpl; [lia|]. simpl in Hr. rewrite Hr. lia.
  - simpl. rewrite Hc, IH. lia.
Qed.

Lemma isspace_LPAREN : isspace LPAREN = false.
Proof. reflexivity. Qed.

Lemma expression_head e : expression e → ∃ r, e = LPAREN :: r.
Proof. intros (inner & -> & _). eauto. Qed.

(** One turn of the loop on a body that goes on with whitespace and a form. *)
Lemma split_loop_form fuel a ws form r forms :
  whitespace ws →
  expression form ∨ (bare_token form ∧ starts_space r) →
  split_loop (S fuel) (a ++ ws ++ form ++ r) (length a) forms
  = split_loop fuel (a ++ ws ++ form ++ r) (length (a ++ ws ++ form))
      (forms ++ [form]).
Proof.
  intros Hws Hform. cbn [split_loop].
  assert (∃ c form', form = c :: form' ∧ isspace c = false) as (c & form' & Hf & Hc).
  { destruct Hform as [He|[(Hne & Hall & _) _]].
    - destruct (expression_head _ He) as [r' ->]. eauto using isspace_LPAREN.
    - destruct form as [|c form']; [done|]. inversion Hall; subst. eauto. }
  rewrite decide_True by (subst form; rewrite !length_app; simpl; lia).
  rewrite drop_app_length.
  rewrite (skip_space_app ws (form ++ r)) by (by subst form).
  rewrite decide_False by (subst form; rewrite !length_app; simpl; lia).
  assert (Hbody : a ++ ws ++ form ++ r = (a ++ ws) ++ form ++ r)
    by by rewrite <- app_assoc.
  assert (Hi : length a + length ws = length (a ++ ws)) by by rewrite length_app.
  rewrite Hi, Hbody.
  assert (Hlook : ((a ++ ws) ++ form ++ r) !! length (a ++ ws) = Some c).
  { rewrite lookup_app_r by lia. rewrite Nat.sub_diag. by subst form. }
  assert (Hlen : length ((a ++ ws) ++ form) = length (a ++ ws) + length form)
    by by rewrite length_app.
  replace (length (a ++ ws ++ form)) with (length (a ++ ws) + length form)
    by (by rewrite app_assoc).
  destruct Hform as [He|[(Hne & Hall & Hhead) Hr]].
  - destruct (expression_head _ He) as [r' ->]. simplify_eq.
    rewrite decide_True by done.
    unfold find_top_level_expression_in_body.
    by rewrite find_top_level_expression_expression.
  - rewrite decide_False by (rewrite Hlook; subst form; naive_solver).
    rewrite drop_app_length. rewrite (skip_token_app form r) by done.
    do 3 f_equal. unfold slice. rewrite drop_app_length.
    replace (length (a ++ ws) + length form - length (a ++ ws)) with (length form) by lia.
    by rewrite take_app_length.
Qed.

Lemma split_loop_trail fuel a trail forms :
  whitespace trail →
  split_loop (S fuel) (a ++ trail) (length a) forms = Some forms.
Proof.
  intros Hws. cbn [split_loop]. case_decide; [|done].
  rewrite drop_app_length.
  pose proof (skip_space_app trail [] (length a) Hws I) as Hsk.
  rewrite app_nil_r in Hsk. rewrite Hsk.
  rewrite decide_True; [done|]. rewrite length_app. lia.
Qed.

Lemma split_loop_joined items : ∀ fuel a trail forms,
  well_formed_body items trail → length items < fuel →
  split_loop fuel (a ++ joined items ++ trail) (length a) forms
  = Some (forms ++ items.*2).
Proof.
  induction items as [|[ws form] items IH]; intros fuel a trail forms Hwf Hfuel.
  - destruct fuel as [|fuel]; [simpl in Hfuel; lia|].
    simpl. rewrite app_nil_r. by apply split_loop_trail.
  - destruct fuel as [|fuel]; [simpl in Hfuel; lia|].
    destruct Hwf as (Hws & Hform & Hwf). cbn [joined].
    rewrite <- !app_assoc.
    rewrite split_loop_form by done.
    replace (a ++ ws ++ form ++ joined items ++ trail)
      with ((a ++ ws ++ form) ++ joined items ++ trail)
      by (by rewrite <- !app_assoc).
    rewrite IH by (done || simpl in Hfuel; lia).
    by rewrite <- app_assoc.
Qed.

Lemma well_formed_body_length items trail :
  well_formed_body items trail → length items ≤ length (joined items).
Proof.
  induction items as [|[ws form] items IH]; intros Hwf; [done|].
  destruct Hwf as (_ & Hform & Hwf). specialize (IH Hwf).
  assert (0 < length form).
  { destruct Hform as [He|[(Hne & _) _]].
    - destruct (expression_head _ He) as [r ->]. simpl. lia.
    - destruct form; [done|simpl; lia]. }
  simpl. rewrite !length_app. lia.
Qed.

(** The splitter returns the forms of a well-formed body, in order. *)
Lemma split_top_level_forms_joined items trail :
  well_formed_body items trail →
  split_top_level_forms (joined items ++ trail) = items.*2.
Proof.
  intros Hwf. unfold split_top_level_forms.
  pose proof (split_loop_joined items (S (length (joined items ++ trail))) [] trail [] Hwf) as H.
  cbn [app length] in H. rewrite H; [done|].
  apply well_formed_body_length in Hwf. rewrite length_app. lia.
Qed.


Lemma plain_token_bare tok : plain_token tok → bare_token tok.
Proof.
  intros [Hne Hall]. split; [done|]. split.
  - eapply Forall_impl; [done|]. by intros c (? & _).
  - destruct tok as [|c tok]; [done|].
    apply Forall_cons in Hall as [(_ & Hc & _) _]. simpl. congruence.
Qed.

Lemma starts_space_app ws r : whitespace ws → ws ≠ [] → starts_space (ws ++ r).
Proof. intros Hws Hne. destruct ws as [|c ws]; [done|]. by inversion Hws. Qed.

Lemma whitespace_starts_space trail : whitespace trail → starts_space trail.
Proof. intros Hws. destruct trail; [done|]. by inversion Hws. Qed.

(** Plain tokens set apart by whitespace, and then a well-formed rest. *)
Lemma well_formed_body_tokens items rest trail :
  Forall token_item items → set_apart items →
  well_formed_body rest trail →
  (items ≠ [] → starts_space (joined rest ++ trail)) →
  well_formed_body (items ++ rest) trail.
Proof.
  induction items as [|[ws tok] items IH]; intros Hall Hsep Hrest Hnext; [done|].
  apply Forall_cons in Hall as [[Hws Htok] Hall']. simpl in Hws, Htok.
  unfold set_apart in *. simpl in Hsep. cbn [app well_formed_body].
  split; [done|]. split.
  - right. split; [by apply plain_token_bare|].
    destruct items as [|[ws' tok'] items]; [by apply Hnext|].
    apply Forall_cons in Hsep as [Hne' _].
    apply Forall_cons in Hall' as [[Hws' _] _]. simpl in Hne', Hws'.
    cbn [app joined]. rewrite <- !app_assoc. by apply starts_space_app.
  - apply IH; [done| |done|].
    + destruct items; [done|]. by apply Forall_cons in Hsep as [_ ?].
    + intros _. by apply Hnext.
Qed.

(** C6: a body of [k] bare tokens without parentheses, set apart by
    whitespace (with any whitespace before the first and after the last),
    splits into exactly [k] forms, which are the tokens in order. *)
Theorem split_top_level_forms_tokens (k : nat) (items : list (str * str))
    (trail : str) :
  length items = k →
  Forall token_item items → set_apart items → whitespace trail →
  split_top_level_forms (joined items ++ trail) = items.*2
  ∧ length (split_top_level_forms (joined items ++ trail)) = k.
Proof.
  intros Hk Hall Hsep Htrail.
  assert (split_top_level_forms (joined items ++ trail) = items.*2) as ->.
  { apply split_top_level_forms_joined.
    rewrite <- (app_nil_r items).
    apply well_formed_body_tokens; [done|done|exact Htrail|].
    intros _. by apply whitespace_starts_space. }
  by rewrite length_fmap.
Qed.

Ltac token_items :=
  repeat first
    [ progress (unfold set_apart, token_item, plain_token, whitespace; simpl)
    | apply Forall_nil_2 | apply Forall_cons_2 | split | discriminate
    | reflexivity ].

Lemma split_top_level_forms_tokens_witness :
  split_top_level_forms (py " esc 1  2 bspc ")
  = [py "esc"; py "1"; py "2"; py "bspc"]
  ∧ length (split_top_level_forms (py " esc 1  2 bspc ")) = 4.
Proof.
  apply (split_top_level_forms_tokens 4
           [(py " ", py "esc"); (py " ", py "1"); (py "  ", py "2");
            (py " ", py "bspc")] (py " ")); token_items.
Defined.




(** There is an expression of every nesting depth. *)
Lemma balanced_from_replicate d : ∀ k,
  balanced_from k (replicate d LPAREN ++ replicate (k + d) RPAREN) = true.
Proof.
  induction d as [|d IH]; intros k.
  - rewrite Nat.add_0_r. simpl. induction k as [|k IHk]; [done|]. exact IHk.
  - replace (k + S d) with (S k + d) by lia. apply (IH (S k)).
Qed.

Lemma max_depth_nested d : ∀ k,
  max_depth k (replicate d LPAREN ++ replicate d RPAREN) = k + d.
Proof.
  induction d as [|d IH]; intros k; [simpl; lia|].
  change (max_depth k (replicate (S d) LPAREN ++ replicate (S d) RPAREN))
    with (max_depth (S k) (replicate d LPAREN ++ RPAREN :: replicate d RPAREN) `max` k).
  replace (replicate d LPAREN ++ RPAREN :: replicate d RPAREN)
    with ((replicate d LPAREN ++ replicate d RPAREN) ++ [RPAREN]).
  2:{ rewrite <- app_assoc. f_equal.
      change (RPAREN :: replicate d RPAREN) with (replicate (S d) RPAREN).
      by rewrite replicate_S_end. }
  assert (∀ s j, max_depth j (s ++ [RPAREN]) = max_depth j s) as Hend.
  { induction s as [|c s IHs]; intros j.
    - change (max_depth j ([] ++ [RPAREN])) with (pred j `max` j).
      simpl. lia.
    - cbn [app max_depth]. repeat case_decide; by rewrite IHs. }
  rewrite Hend, IH. lia.
Qed.

Lemma nested_expression d :
  expression (nested (S d)) ∧ nesting (nested (S d)) = S d.
Proof.
  split.
  - exists (nested d). split.
    + unfold nested. simpl. f_equal. rewrite <- app_assoc. f_equal.
      change (RPAREN :: replicate d RPAREN) with (replicate (S d) RPAREN).
      by rewrite replicate_S_end.
    + pose proof (balanced_from_replicate d 0) as H. done.
  - unfold nesting, nested. by rewrite max_depth_nested.
Qed.

(** ** The splitter always returns *)

Lemma skip_space_spec rest i :
  ∃ n, skip_space rest i = i + n ∧ n ≤ length rest
       ∧ ∀ c, rest !! n = Some c → isspace c = false.
Proof.
  revert i. induction rest as [|c rest IH]; intros i.
  - exists 0. simpl. split; [lia|]. split; [lia|]. by intros c.
  - simpl. destruct (isspace c) eqn:Hc.
    + destruct (IH (S i)) as (n & -> & Hn & Hns). exists (S n).
      split; [lia|]. split; [simpl; lia|]. done.
    + exists 0. split; [lia|]. split; [simpl; lia|]. simpl. congruence.
Qed.

Lemma skip_token_spec rest i :
  ∃ n, skip_token rest i = i + n ∧ n ≤ length rest
       ∧ ∀ c, rest !! 0 = Some c → isspace c = false → 0 < n.
Proof.
  destruct rest as [|c rest].
  - exists 0. simpl. split; [lia|]. split; [lia|]. by intros c.
  - simpl. destruct (isspace c) eqn:Hc.
    + exists 0. split; [lia|]. split; [lia|]. simpl. congruence.
    + assert (∀ r j, ∃ n, skip_token r j = j + n ∧ n ≤ length r) as Hgen.
      { induction r as [|x r IH]; intros j.
        - exists 0. simpl. split; lia.
        - simpl. destruct (isspace x).
          + exists 0. split; lia.
          + destruct (IH (S j)) as (n & -> & Hn). exists (S n). split; lia. }
      destruct (Hgen rest (S i)) as (n & -> & Hn). exists (S n).
      split; [lia|]. split; [simpl; lia|]. intros; lia.
Qed.

Lemma split_loop_total fuel : ∀ body i forms,
  length body - i < fuel → is_Some (split_loop fuel body i forms).
Proof.
  induction fuel as [|fuel IH]; intros body i forms Hfuel; [lia|].
  cbn [split_loop]. case_decide as Hi; [|done].
  destruct (skip_space_spec (drop i body) i) as (n & -> & Hn & Hns).
  rewrite length_drop in Hn.
  case_decide as Hend; [done|].
  case_decide as Hparen.
  - unfold find_top_level_expression_in_body.
    pose proof (find_top_level_expression_at_open body (i + n) Hparen) as H.
    destruct (find_top_level_expression body (i + n)) as [?|[[e|] next]];
      [done| |done].
    destruct H as (k & -> & Hk & _). apply IH. lia.
  - destruct (skip_token_spec (drop (i + n) body) (i + n)) as (m & -> & Hm & Hpos).
    apply IH. rewrite length_drop in Hm.
    destruct (lookup_lt_is_Some_2 body (i + n) ltac:(lia)) as [c Hc].
    specialize (Hns c). rewrite lookup_drop in Hns. specialize (Hns Hc).
    specialize (Hpos c). rewrite lookup_drop, Nat.add_0_r in Hpos.
    specialize (Hpos Hc Hns). lia.
Qed.

(** The list [split_top_level_forms] stands for is the one the loop hands
    back: the loop never stops without one. *)
Lemma split_top_level_forms_total body :
  split_loop (S (length body)) body 0 [] = Some (split_top_level_forms body).
Proof.
  unfold split_top_level_forms.
  destruct (split_loop_total (S (length body)) body 0 []) as [forms ->]; [lia|done].
Qed.

(** ** Searching a substring *)

Lemma starts_with_spec s sub : starts_with s sub = true ↔ sub `prefix_of` s.
Proof.
  revert s. induction sub as [|x sub IH]; intros s.
  - destruct s; simpl; split; auto using prefix_nil.
  - destruct s as [|c s]; simpl.
    + split; [done|]. intros H. by apply prefix_nil_not in H.
    + rewrite andb_true_iff, bool_decide_eq_true, IH. split.
      * intros [-> H]. by apply prefix_cons.
      * intros H. split; [symmetry; by eapply prefix_cons_inv_1|by eapply prefix_cons_inv_2].
Qed.

Lemma find_from_Some rest sub i found :
  find_from rest sub i = Some found →
  i ≤ found ∧ sub `prefix_of` drop (found - i) rest.
Proof.
  revert i. induction rest as [|c rest IH]; intros i; cbn [find_from].
  - destruct (starts_with [] sub) eqn:Hs; [|done]. intros [= <-].
    split; [lia|]. rewrite Nat.sub_diag. by apply starts_with_spec.
  - destruct (starts_with (c :: rest) sub) eqn:Hs.
    + intros [= <-]. split; [lia|]. rewrite Nat.sub_diag. by apply starts_with_spec.
    + intros H. apply IH in H as [Hle Hp]. split; [lia|].
      replace (found - i) with (S (found - S i)) by lia. done.
Qed.

(** [find] hands back an offset from the cursor on at which [sub] stands. *)
Lemma find_Some s sub idx found :
  find s sub idx = Some found →
  idx ≤ found ∧ sub `prefix_of` drop found s.
Proof.
  unfold find. case_decide; [|done]. intros Hf.
  apply find_from_Some in Hf as [Hle Hp]. split; [done|].
  rewrite drop_drop in Hp. by replace (idx + (found - idx)) with found in Hp by lia.
Qed.

Lemma find_Some_lookup s c sub idx found :
  find s (c :: sub) idx = Some found → s !! found = Some c.
Proof.
  intros H. apply find_Some in H as [_ [k Hk]].
  rewrite <- (Nat.add_0_r found), <- lookup_drop, Hk. done.
Qed.

(** ** The block extractor always returns *)

Lemma extract_loop_total fuel : ∀ content block_type idx results,
  length content - idx < fuel →
  is_Some (extract_loop fuel content block_type idx results).
Proof.
  induction fuel as [|fuel IH]; intros content block_type idx results Hfuel; [lia|].
  cbn [extract_loop].
  destruct (find content (LPAREN :: block_type) idx) as [found|] eqn:Hfind; [|done].
  pose proof (find_Some_lookup _ _ _ _ _ Hfind) as Hparen.
  apply find_Some in Hfind as [Hle _]. apply lookup_lt_Some in Hparen as Hlt.
  pose proof (find_top_level_expression_at_open content found Hparen) as H.
  destruct (find_top_level_expression content found) as [?|[[e|] next]];
    [apply IH; lia| |done].
  destruct H as (k & -> & Hk & _).
  repeat (case_match || case_decide); apply IH; lia.
Qed.

(** More fuel does not change what the loop hands back. *)
Lemma extract_loop_fuel fuel : ∀ fuel' content block_type idx results r,
  extract_loop fuel content block_type idx results = Some r → fuel ≤ fuel' →
  extract_loop fuel' content block_type idx results = Some r.
Proof.
  induction fuel as [|fuel IH]; intros fuel' content block_type idx results r H Hle;
    [done|].
  destruct fuel' as [|fuel']; [lia|]. cbn [extract_loop] in *.
  repeat (case_match || case_decide); simplify_eq; try done; apply IH; (done || lia).
Qed.

Lemma extract_from_loop content block_type idx results fuel :
  length content - idx < fuel →
  extract_loop fuel content block_type idx results
  = Some (extract_from content block_type idx results).
Proof.
  intros Hfuel. unfold extract_from.
  destruct (extract_loop_total (S (length content - idx)) content block_type idx results)
    as [r Hr]; [lia|].
  rewrite Hr. simpl. eapply extract_loop_fuel; [done|lia].
Qed.

(** ** Blocks with fewer than two parts *)

(** C10: a balanced block whose inner text, the outer parentheses removed
    and trimmed, has fewer than two whitespace-separated parts is skipped:
    the extraction goes on after the block with the results it had, so the
    block adds nothing to them; when no further block follows, the results
    are handed back as they were. *)
Theorem extract_defblocks_skips_short_block content block_type idx results
    found expr_string next_idx :
  find content (LPAREN :: block_type) idx = Some found →
  find_top_level_expression content found = inr (Some expr_string, next_idx) →
  length (split_None_1 (strip (slice_1_m1 (strip expr_string)))) < 2 →
  extract_from content block_type idx results
  = extract_from content block_type next_idx results
  ∧ (find content (LPAREN :: block_type) next_idx = None →
     extract_from content block_type idx results = results).
Proof.
  intros Hfind Hscan Hparts.
  assert (extract_from content block_type idx results
          = extract_from content block_type next_idx results) as Heq.
  { pose proof (find_Some_lookup _ _ _ _ _ Hfind) as Hparen.
    pose proof (find_top_level_expression_at_open content found Hparen) as H.
    rewrite Hscan in H. destruct H as (k & -> & Hk & _).
    apply find_Some in Hfind as Hle. destruct Hle as [Hle _].
    apply lookup_lt_Some in Hparen as Hlt.
    apply (inj Some).
    rewrite <- (extract_from_loop content block_type idx results
                  (S (length content - idx))) by lia.
    cbn [extract_loop]. rewrite Hfind, Hscan.
    destruct (split_None_1 (strip (slice_1_m1 (strip expr_string))))
      as [|kw [|p1 parts]]; [| |simpl in Hparts; lia];
      apply extract_from_loop; lia. }
  split; [done|]. intros Hnone. rewrite Heq.
  apply (inj Some).
  rewrite <- (extract_from_loop content block_type next_idx results
                (S (length content - next_idx))) by lia.
  cbn [extract_loop]. by rewrite Hnone.
Qed.

Lemma extract_defblocks_skips_short_block_witness :
  extract_from (py "(defsrc) (defsrc a b)") (py "defsrc") 0 []
  = extract_from (py "(defsrc) (defsrc a b)") (py "defsrc") 8 []
  ∧ (find (py "(defsrc) (defsrc a b)") (LPAREN :: py "defsrc") 8 = None →
     extract_from (py "(defsrc) (defsrc a b)") (py "defsrc") 0 [] = []).
Proof.
  apply (extract_defblocks_skips_short_block
           (py "(defsrc) (defsrc a b)") (py "defsrc") 0 [] 0 (py "(defsrc)") 8).
  - reflexivity.
  - reflexivity.
  - vm_compute. lia.
Defined.

Example extract_empty_defsrc :
  extract_defblocks (py "(defsrc)") (py "defsrc") = [].
Proof. vm_compute. reflexivity. Qed.

Example extract_bare_deflayer :
  extract_defblocks (py "(deflayer)") (py "deflayer") = [].
Proof. vm_compute. reflexivity. Qed.

Example parse_keyword_only_blocks :
  parse_kmonad_config (py "(defsrc) (deflayer)") = ([], ∅).
Proof. vm_compute. reflexivity. Qed.

(** ** Duplicate layer names and several source declarations *)

Lemma layer_dict_fold_other (blocks : list block) name : ∀ layer_dict,
  Some name ∉ blocks.*1 →
  foldl layer_dict_set layer_dict blocks !! name = layer_dict !! name.
Proof.
  induction blocks as [|[[n|] body] blocks IH]; intros layer_dict Hnot; [done|..];
    simpl in *; rewrite not_elem_of_cons in Hnot; destruct Hnot as [Hne Hnot].
  - rewrite IH by done. apply lookup_insert_ne. congruence.
  - by rewrite IH.
Qed.

Lemma layer_dict_of_last blocks1 name body blocks2 :
  Some name ∉ blocks2.*1 →
  layer_dict_of (blocks1 ++ (Some name, body) :: blocks2) !! name
  = Some (split_top_level_forms body).
Proof.
  intros Hnot. unfold layer_dict_of. rewrite foldl_app. cbn [foldl].
  rewrite layer_dict_fold_other by done. apply lookup_insert_eq.
Qed.

(** C8: with the document the text after comment removal, a layer name is
    mapped to the forms of the last extracted layer block of that name, and
    the first extracted source block alone gives the source sequence. *)
Theorem parse_kmonad_config_duplicates content :
  (∀ blocks1 layer_name layer_body blocks2,
     extract_defblocks (strip_comments content) (py "deflayer")
     = blocks1 ++ (Some layer_name, layer_body) :: blocks2 →
     Some layer_name ∉ blocks2.*1 →
     (parse_kmonad_config content).2 !! layer_name
     = Some (split_top_level_forms layer_body))
  ∧ (∀ first others,
       extract_defblocks (strip_comments content) (py "defsrc") = first :: others →
       (parse_kmonad_config content).1 = split_top_level_forms first.2).
Proof.
  unfold parse_kmonad_config. split.
  - intros blocks1 layer_name layer_body blocks2 Hblocks Hlast. cbn [snd].
    rewrite Hblocks. by apply layer_dict_of_last.
  - intros [name body] others Hblocks. cbn [fst]. by rewrite Hblocks.
Qed.

Lemma parse_kmonad_config_duplicates_witness :
  (parse_kmonad_config
     (py "(defsrc a) (defsrc b c) (deflayer l 1) (deflayer l 2)")).2 !! py "l"
  = Some [py "2"]
  ∧ (parse_kmonad_config
       (py "(defsrc a) (defsrc b c) (deflayer l 1) (deflayer l 2)")).1
    = [py "a"].
Proof.
  destruct (parse_kmonad_config_duplicates
              (py "(defsrc a) (defsrc b c) (deflayer l 1) (deflayer l 2)"))
    as [Hlayer Hsrc].
  split.
  - apply (Hlayer [(Some (py "l"), py "1")] (py "l") (py "2") []).
    + vm_compute. reflexivity.
    + apply not_elem_of_nil.
  - apply (Hsrc (None, py "a") [(None, py "b c")]). vm_compute. reflexivity.
Defined.

(** A block extracted for the type deflayer carries a layer name. *)
Lemma extract_loop_deflayer_named fuel : ∀ content idx results r,
  extract_loop fuel content (py "deflayer") idx results = Some r →
  Forall (λ b : block, is_Some b.1) results →
  Forall (λ b : block, is_Some b.1) r.
Proof.
  induction fuel as [|fuel IH]; intros content idx results r H Hres; [done|].
  cbn [extract_loop] in H.
  repeat (case_match || case_decide); simplify_eq; try done;
    try (eapply IH; [done|]); try done.
  all: try (by destruct_and!).
  all: apply Forall_app; split; [done|]; by repeat constructor.
Qed.

Lemma extract_deflayer_named content :
  Forall (λ b : block, is_Some b.1) (extract_defblocks content (py "deflayer")).
Proof.
  eapply (extract_loop_deflayer_named (S (length content)) content 0 []); [|done].
  unfold extract_defblocks. apply extract_from_loop. lia.
Qed.

(** ** The key-to-index mapping *)

Lemma in_physical_elem_of keyname pos :
  (keyname, pos) ∈ PHYSICAL_KEY_MAP → in_physical keyname = true.
Proof.
  intros H. apply bool_decide_eq_true. apply list_elem_of_fmap. by exists (keyname, pos).
Qed.

Lemma index_loop_absent l keyname : ∀ i0 (d : gmap str nat),
  (∀ j, l !! j ≠ Some keyname) →
  index_loop l i0 d !! keyname = d !! keyname.
Proof.
  induction l as [|x l IH]; intros i0 d Habs; [done|].
  cbn [index_loop]. rewrite IH by (intros j; apply (Habs (S j))).
  destruct (in_physical x); [|done].
  apply lookup_insert_ne. intros ->. by apply (Habs 0).
Qed.

(** The index kept for a physical key is that of its last occurrence. *)
Lemma index_loop_last l keyname : ∀ i0 (d : gmap str nat) i,
  in_physical keyname = true →
  l !! i = Some keyname →
  (∀ j, l !! j = Some keyname → j ≤ i) →
  index_loop l i0 d !! keyname = Some (i0 + i).
Proof.
  induction l as [|x l IH]; intros i0 d i Hphys Hi Hlast; [done|].
  cbn [index_loop]. destruct i as [|i].
  - simpl in Hi. simplify_eq. rewrite Hphys. rewrite index_loop_absent.
    + rewrite lookup_insert_eq. f_equal. lia.
    + intros j Hj. specialize (Hlast (S j) Hj). lia.
  - rewrite (IH (S i0) _ i); [f_equal; lia|done|done|].
    intros j Hj. specialize (Hlast (S j) Hj). lia.
Qed.

Lemma defsrc_index_for_key_last defsrc_list keyname i :
  in_physical keyname = true →
  defsrc_list !! i = Some keyname →
  (∀ j, defsrc_list !! j = Some keyname → j ≤ i) →
  defsrc_index_for_key defsrc_list !! keyname = Some i.
Proof. intros. unfold defsrc_index_for_key. by erewrite index_loop_last. Qed.

(** ** The lines of a cell *)

Lemma sorted_layer_names_elem_of (layer_dict : gmap str (list str)) ln :
  ln ∈ sorted_layer_names layer_dict ↔ is_Some (layer_dict !! ln).
Proof.
  unfold sorted_layer_names. rewrite merge_sort_Permutation.
  rewrite list_elem_of_fmap. split.
  - intros ([k v] & -> & H). apply elem_of_map_to_list in H. by exists v.
  - intros [v H]. exists (ln, v). split; [done|]. by apply elem_of_map_to_list.
Qed.

Lemma cell_lines_spec (layer_dict : gmap str (list str))
    (expr_map : gmap str str) (i : nat) (names : list str) :
  (∀ ln, ln ∈ names → is_Some (layer_dict !! ln)) →
  ∃ lines, cell_lines layer_dict expr_map names i = Some lines
    ∧ lines.*1 = names
    ∧ ∀ ln txt, (ln, txt) ∈ lines ↔
        ln ∈ names ∧ ∃ layer_keys, layer_dict !! ln = Some layer_keys
          ∧ txt = display_label (layer_assignment layer_keys i) expr_map.
Proof.
  unfold cell_lines. induction names as [|n names IH]; intros Hdom.
  - exists []. split; [done|]. split; [done|]. intros ln txt.
    rewrite !elem_of_nil. split; [done|by intros [? _]].
  - destruct IH as (lines & Hlines & Hfst & Hspec).
    { intros ln Hln. apply Hdom. by right. }
    destruct (Hdom n) as [layer_keys Hn]; [by left|].
    exists ((n, display_label (layer_assignment layer_keys i) expr_map) :: lines).
    split; [|split].
    + cbn [mapM]. rewrite Hn. simpl. rewrite Hlines. done.
    + rewrite fmap_cons. by rewrite Hfst.
    + intros ln txt. rewrite !elem_of_cons, Hspec. split.
      * intros [[= -> ->]|[Hln Hl]]; [|by auto]. split; [by left|eauto].
      * intros [[->|Hln] (lk & Hlk & ->)]; [|by eauto].
        left. by simplify_eq.
Qed.

(** The aligner raises nothing, and draws for a physical key that is in
    defsrc one line per layer, from the index kept for the key. *)
Lemma generate_single_grid_image_spec (defsrc_list : list str)
    (layer_dict : gmap str (list str)) (expr_map : gmap str str) :
  ∃ cells,
    generate_single_grid_image defsrc_list layer_dict expr_map = Some cells
    ∧ ∀ keyname pos i,
        (keyname, pos) ∈ PHYSICAL_KEY_MAP →
        defsrc_index_for_key defsrc_list !! keyname = Some i →
        ∃ lines, In_defsrc keyname pos lines ∈ cells
          ∧ lines.*1 = sorted_layer_names layer_dict
          ∧ ∀ ln txt, (ln, txt) ∈ lines ↔
              ∃ layer_keys, layer_dict !! ln = Some layer_keys
                ∧ txt = display_label (layer_assignment layer_keys i) expr_map.
Proof.
  unfold generate_single_grid_image.
  generalize PHYSICAL_KEY_MAP as keys.
  induction keys as [|[k p] keys IH].
  - exists []. split; [done|]. intros ??? H. by apply elem_of_nil in H.
  - destruct IH as (cells & Hcells & Hspec).
    destruct (cell_lines_spec layer_dict expr_map
                (default 0 (defsrc_index_for_key defsrc_list !! k))
                (sorted_layer_names layer_dict))
      as (lines & Hlines & Hfst & Hl).
    { intros ln. apply sorted_layer_names_elem_of. }
    cbn [mapM]. rewrite Hcells.
    destruct (defsrc_index_for_key defsrc_list !! k) as [i|] eqn:Hk.
    + simpl in Hlines. rewrite Hlines. simpl.
      eexists. split; [done|]. intros keyname pos j Hin Hj.
      apply elem_of_cons in Hin as [[= -> ->]|Hin].
      * exists lines. simplify_eq. split; [by left|]. split; [done|].
        intros ln txt. rewrite Hl, sorted_layer_names_elem_of.
        split; [by intros [_ ?]|]. intros (lk & Hlk & ->). split; [by eexists|eauto].
      * destruct (Hspec keyname pos j Hin Hj) as (lines' & ? & ?).
        exists lines'. split; [by right|done].
    + simpl. eexists. split; [done|]. intros keyname pos j Hin Hj.
      apply elem_of_cons in Hin as [[= -> ->]|Hin]; [congruence|].
      destruct (Hspec keyname pos j Hin Hj) as (lines' & ? & ?).
      exists lines'. split; [by right|done].
Qed.

(** ** Alignment by source index *)

Lemma NoDup_filter_lookup (l : list str) (P : str → Prop) `{∀ x, Decision (P x)}
    i j x :
  NoDup (filter P l) → P x → l !! i = Some x → l !! j = Some x → i = j.
Proof.
  revert i j. induction l as [|y l IH]; intros i j Hnd HP Hi Hj; [done|].
  rewrite filter_cons in Hnd.
  assert (∀ k, l !! k = Some x → x ∈ filter P l) as Hin.
  { intros k Hk. apply list_elem_of_filter. split; [done|].
    by eapply list_elem_of_lookup_2. }
  destruct i as [|i], j as [|j]; simpl in *; simplify_eq.
  - done.
  - rewrite decide_True in Hnd by done. apply NoDup_cons in Hnd as [Hnot _].
    destruct Hnot. by eapply Hin.
  - rewrite decide_True in Hnd by done. apply NoDup_cons in Hnd as [Hnot _].
    destruct Hnot. by eapply Hin.
  - f_equal. apply IH; [|done..].
    destruct (decide (P y)); [by apply NoDup_cons in Hnd as [_ ?]|done].
Qed.

(** C9: when a physical key name stands at several source indices, the
    index [i] of its last occurrence is the one used: every line drawn for
    the key shows, for its layer, the form at index [i] (or the
    not-applicable mark), and no line comes from an earlier occurrence. *)
Theorem aligner_uses_last_occurrence (defsrc_list : list str)
    (layer_dict : gmap str (list str)) (expr_map : gmap str str)
    (keyname : str) (pos : nat * nat) (i : nat) :
  (keyname, pos) ∈ PHYSICAL_KEY_MAP →
  defsrc_list !! i = Some keyname →
  (∀ j, defsrc_list !! j = Some keyname → j ≤ i) →
  defsrc_index_for_key defsrc_list !! keyname = Some i
  ∧ ∃ cells lines,
      generate_single_grid_image defsrc_list layer_dict expr_map = Some cells
      ∧ In_defsrc keyname pos lines ∈ cells
      ∧ lines.*1 = sorted_layer_names layer_dict
      ∧ ∀ ln txt, (ln, txt) ∈ lines ↔
          ∃ layer_keys, layer_dict !! ln = Some layer_keys
            ∧ txt = display_label (layer_assignment layer_keys i) expr_map.
Proof.
  intros Hkey Hi Hlast.
  assert (defsrc_index_for_key defsrc_list !! keyname = Some i) as Hidx.
  { apply defsrc_index_for_key_last; [by eapply in_physical_elem_of|done..]. }
  split; [done|].
  destruct (generate_single_grid_image_spec defsrc_list layer_dict expr_map)
    as (cells & Hcells & Hspec).
  destruct (Hspec keyname pos i Hkey Hidx) as (lines & Hin & Hfst & Hlines).
  by exists cells, lines.
Qed.

Lemma aligner_uses_last_occurrence_witness :
  defsrc_index_for_key [py "a"; py "b"; py "a"] !! py "a" = Some 2
  ∧ ∃ cells lines,
      generate_single_grid_image [py "a"; py "b"; py "a"]
        {[ py "base" := [py "1"; py "2"; py "3"] ]} ∅ = Some cells
      ∧ In_defsrc (py "a") (1, 2) lines ∈ cells
      ∧ lines.*1 = sorted_layer_names {[ py "base" := [py "1"; py "2"; py "3"] ]}
      ∧ ∀ ln txt, (ln, txt) ∈ lines ↔
          ∃ layer_keys,
            ({[ py "base" := [py "1"; py "2"; py "3"] ]} : gmap str (list str))
              !! ln = Some layer_keys
            ∧ txt = display_label (layer_assignment layer_keys 2) ∅.
Proof.
  apply (aligner_uses_last_occurrence [py "a"; py "b"; py "a"]
           {[ py "base" := [py "1"; py "2"; py "3"] ]} ∅ (py "a") (1, 2) 2).
  - compute_done.
  - reflexivity.
  - intros [|[|[|j]]] Hj; [lia|discriminate Hj|lia|discriminate Hj].
Defined.

(** C4: when the physical-key entries of the source sequence are distinct,
    a physical key found at source index [i] is paired, in every layer,
    with the layer's form at index [i]; for a layer with at most [i] forms
    the pair is marked not applicable; and nothing is raised. *)
Theorem aligner_pairs_by_index (defsrc_list : list str)
    (layer_dict : gmap str (list str)) (expr_map : gmap str str)
    (keyname : str) (pos : nat * nat) (i : nat) :
  NoDup (filter (λ k, in_physical k = true) defsrc_list) →
  (keyname, pos) ∈ PHYSICAL_KEY_MAP →
  defsrc_list !! i = Some keyname →
  ∃ cells lines,
    generate_single_grid_image defsrc_list layer_dict expr_map = Some cells
    ∧ In_defsrc keyname pos lines ∈ cells
    ∧ ∀ ln layer_keys, layer_dict !! ln = Some layer_keys →
        (∀ form, layer_keys !! i = Some form →
           layer_assignment layer_keys i = form
           ∧ ∀ txt, (ln, txt) ∈ lines ↔ txt = display_label form expr_map)
        ∧ (length layer_keys ≤ i →
           layer_assignment layer_keys i = py "(N/A)"
           ∧ ∀ txt, (ln, txt) ∈ lines ↔ txt = display_label (py "(N/A)") expr_map).
Proof.
  intros Hnd Hkey Hi.
  pose proof (in_physical_elem_of _ _ Hkey) as Hphys.
  assert (defsrc_index_for_key defsrc_list !! keyname = Some i) as Hidx.
  { apply defsrc_index_for_key_last; [done..|].
    intros j Hj.
    by rewrite (NoDup_filter_lookup defsrc_list _ j i keyname Hnd Hphys Hj Hi). }
  destruct (generate_single_grid_image_spec defsrc_list layer_dict expr_map)
    as (cells & Hcells & Hspec).
  destruct (Hspec keyname pos i Hkey Hidx) as (lines & Hin & Hfst & Hlines).
  exists cells, lines. split; [done|]. split; [done|].
  intros ln layer_keys Hln. split.
  - intros form Hform.
    assert (layer_assignment layer_keys i = form) as Ha.
    { unfold layer_assignment. apply lookup_lt_Some in Hform as Hlt.
      rewrite decide_True by done. by rewrite Hform. }
    split; [done|]. intros txt. rewrite Hlines. split.
    + intros (lk & Hlk & ->). by simplify_eq.
    + intros ->. exists layer_keys. by rewrite Ha.
  - intros Hshort.
    assert (layer_assignment layer_keys i = py "(N/A)") as Ha.
    { unfold layer_assignment. by rewrite decide_False by lia. }
    split; [done|]. intros txt. rewrite Hlines. split.
    + intros (lk & Hlk & ->). simplify_eq. by rewrite Ha.
    + intros ->. exists layer_keys. by rewrite Ha.
Qed.

Lemma aligner_pairs_by_index_witness :
  ∃ cells lines,
    generate_single_grid_image [py "a"; py "b"]
      {[ py "short" := [py "1"] ]} ∅ = Some cells
    ∧ In_defsrc (py "b") (5, 3) lines ∈ cells
    ∧ ∀ ln layer_keys,
        ({[ py "short" := [py "1"] ]} : gmap str (list str)) !! ln
        = Some layer_keys →
        (∀ form, layer_keys !! 1 = Some form →
           layer_assignment layer_keys 1 = form
           ∧ ∀ txt, (ln, txt) ∈ lines ↔ txt = display_label form ∅)
        ∧ (length layer_keys ≤ 1 →
           layer_assignment layer_keys 1 = py "(N/A)"
           ∧ ∀ txt, (ln, txt) ∈ lines ↔ txt = display_label (py "(N/A)") ∅).
Proof.
  apply (aligner_pairs_by_index [py "a"; py "b"]
           {[ py "short" := [py "1"] ]} ∅ (py "b") (5, 3) 1).
  - compute_done.
  - compute_done.
  - reflexivity.
Defined.

Example align_example :
  ∃ cells,
    generate_single_grid_image [py "a"; py "b"]
      {[ py "short" := [py "1"] ]} ∅ = Some cells
    ∧ In_defsrc (py "a") (1, 2) [(py "short", py "1")] ∈ cells
    ∧ In_defsrc (py "b") (5, 3) [(py "short", py "(N/A)")] ∈ cells.
Proof.
  eexists. split; [vm_compute; reflexivity|].
  split; compute_done.
Qed.

(** ** The transparent placeholder *)

(** The text drawn is never the placeholder itself. *)
Lemma display_label_not_placeholder (assigned : str) (expr_map : gmap str str) :
  display_label assigned expr_map ≠ py "XX".
Proof. unfold display_label. by repeat case_decide. Qed.

(** Without an entry for the empty string in the label map, the
    placeholder is drawn as the empty string. *)
Lemma display_label_placeholder (expr_map : gmap str str) :
  expr_map !! [] = None → display_label (py "XX") expr_map = [].
Proof.
  intros Hnone. unfold display_label, get_short_label.
  destruct (decide (py "XX" = py "XX")); [|done].
  change (strip []) with (@nil N). rewrite Hnone. done.
Qed.

(** When label resolution gives the placeholder, the empty string is drawn. *)
Lemma display_label_resolved_placeholder (assigned : str)
    (expr_map : gmap str str) :
  get_short_label assigned expr_map = py "XX" →
  assigned ≠ py "XX" →
  display_label assigned expr_map = [].
Proof.
  intros Hres Hne. unfold display_label.
  rewrite (decide_False (P := assigned = py "XX")) by done.
  rewrite Hres. done.
Qed.

(** C3: with an entry for the empty string in the label map, the
    placeholder is drawn as the text of that entry, not as the empty
    string. *)
Theorem placeholder_drawn_as_empty_label_entry :
  display_label (py "XX") {[ [] := py "blank" ]} = py "blank"
  ∧ ∃ cells,
      generate_single_grid_image [py "a"] {[ py "l" := [py "XX"] ]}
        {[ [] := py "blank" ]} = Some cells
      ∧ In_defsrc (py "a") (1, 2) [(py "l", py "blank")] ∈ cells.
Proof.
  split; [vm_compute; reflexivity|].
  eexists. split; [vm_compute; reflexivity|].
  compute_done.
Qed.

(** ** Block comments: terminated ones go, an unterminated one stays *)

Lemma has_end_tail c s : has_end (c :: s) = false → has_end s = false.
Proof. destruct s as [|d s]; [done|]. cbn [has_end]. by intros [_ ?]%orb_false_elim. Qed.

Lemma has_end_head c d s : has_end (c :: d :: s) = false → ¬ (c = BAR ∧ d = HASH).
Proof. cbn [has_end]. intros [H _]%orb_false_elim. by apply bool_decide_eq_false in H. Qed.

Lemma has_start_tail c s : has_start (c :: s) = false → has_start s = false.
Proof. destruct s as [|d s]; [done|]. cbn [has_start]. by intros [_ ?]%orb_false_elim. Qed.

Lemma has_start_head c d s : has_start (c :: d :: s) = false → ¬ (c = HASH ∧ d = BAR).
Proof. cbn [has_start]. intros [H _]%orb_false_elim. by apply bool_decide_eq_false in H. Qed.

Lemma has_end_marker body rest : has_end (body ++ BAR :: HASH :: rest) = true.
Proof.
  induction body as [|c body IH]; [done|].
  cbn [app has_end]. destruct (body ++ BAR :: HASH :: rest) eqn:E.
  - by destruct body.
  - by rewrite IH, orb_true_r.
Qed.

Lemma sub_block_comments_outside c d r :
  sub_block_comments false (c :: d :: r)
  = if bool_decide (c = HASH ∧ d = BAR) && has_end r
    then sub_block_comments true r
    else c :: sub_block_comments false (d :: r).
Proof. done. Qed.

Lemma sub_block_comments_skip c d r :
  sub_block_comments true (c :: d :: r)
  = if decide (c = BAR ∧ d = HASH) then sub_block_comments false r
    else sub_block_comments true (d :: r).
Proof. done. Qed.

(** Without an end marker after it, a text is copied as it is. *)
Lemma sub_block_comments_no_end post : ∀ c,
  has_end post = false → sub_block_comments false (c :: post) = c :: post.
Proof.
  induction post as [|d post IH]; intros c Hend; [done|].
  rewrite sub_block_comments_outside, (has_end_tail _ _ Hend), andb_false_r.
  by rewrite IH by by eapply has_end_tail.
Qed.

Lemma sub_block_comments_unterminated plain post :
  has_start plain = false → has_end post = false →
  sub_block_comments false (plain ++ HASH :: BAR :: post)
  = plain ++ HASH :: BAR :: post.
Proof.
  intros Hstart Hend. induction plain as [|c plain IH].
  - cbn [app]. rewrite sub_block_comments_outside, Hend, andb_false_r.
    by rewrite sub_block_comments_no_end.
  - cbn [app].
    destruct (plain ++ HASH :: BAR :: post) as [|d r'] eqn:E; [by destruct plain|].
    rewrite sub_block_comments_outside.
    assert (¬ (c = HASH ∧ d = BAR)) as Hno.
    { destruct plain as [|d' plain]; simpl in E; simplify_eq.
      - by intros [_ ?].
      - by eapply has_start_head. }
    rewrite bool_decide_eq_false_2 by done. cbn [andb].
    by rewrite IH by by eapply has_start_tail.
Qed.

(** Inside a comment, the text up to the first end marker goes. *)
Lemma sub_block_comments_inside body rest :
  has_end body = false →
  sub_block_comments true (body ++ BAR :: HASH :: rest)
  = sub_block_comments false rest.
Proof.
  intros Hend. induction body as [|c body IH].
  - cbn [app]. rewrite sub_block_comments_skip. by rewrite decide_True.
  - cbn [app].
    destruct (body ++ BAR :: HASH :: rest) as [|d r'] eqn:E; [by destruct body|].
    rewrite sub_block_comments_skip.
    assert (¬ (c = BAR ∧ d = HASH)) as Hno.
    { destruct body as [|d' body]; simpl in E; simplify_eq.
      - by intros [_ ?].
      - by eapply has_end_head. }
    rewrite decide_False by done. by rewrite IH by by eapply has_end_tail.
Qed.

Lemma sub_block_comments_terminated plain body rest :
  has_start plain = false → has_end body = false →
  sub_block_comments false (plain ++ HASH :: BAR :: body ++ BAR :: HASH :: rest)
  = plain ++ sub_block_comments false rest.
Proof.
  intros Hstart Hend. induction plain as [|c plain IH].
  - cbn [app]. rewrite sub_block_comments_outside.
    rewrite bool_decide_eq_true_2 by done. rewrite has_end_marker. cbn [andb].
    by apply sub_block_comments_inside.
  - cbn [app].
    destruct (plain ++ HASH :: BAR :: body ++ BAR :: HASH :: rest)
      as [|d r'] eqn:E; [by destruct plain|].
    rewrite sub_block_comments_outside.
    assert (¬ (c = HASH ∧ d = BAR)) as Hno.
    { destruct plain as [|d' plain]; simpl in E; simplify_eq.
      - by intros [_ ?].
      - by eapply has_start_head. }
    rewrite bool_decide_eq_false_2 by done. cbn [andb].
    by rewrite IH by by eapply has_start_tail.
Qed.

(** C2, as the code has it: a block-comment start marker with no end marker
    after it, standing after any number of terminated block comments, stays
    in the text together with all that follows it; only the terminated
    comments before it are removed.  The comment stripper then takes the
    line comments out of that text. *)
Theorem unterminated_block_comment_stays (comments : list (str * str))
    (plain post : str) :
  Forall (λ cm, has_start cm.1 = false ∧ has_end cm.2 = false) comments →
  has_start plain = false →
  has_end post = false →
  sub_block_comments false (commented comments (plain ++ [HASH; BAR] ++ post))
  = concat comments.*1 ++ plain ++ [HASH; BAR] ++ post
  ∧ strip_comments (commented comments (plain ++ [HASH; BAR] ++ post))
    = sub_line_comments false (concat comments.*1 ++ plain ++ [HASH; BAR] ++ post).
Proof.
  intros Hcomments Hstart Hend.
  assert (sub_block_comments false (commented comments (plain ++ [HASH; BAR] ++ post))
          = concat comments.*1 ++ plain ++ [HASH; BAR] ++ post) as Hblock.
  { induction Hcomments as [|[p body] comments [Hp Hbody] _ IH].
    - by apply sub_block_comments_unterminated.
    - cbn [commented fmap list_fmap concat fst snd] in *.
      change (p ++ [HASH; BAR] ++ body ++ [BAR; HASH]
                ++ commented comments (plain ++ [HASH; BAR] ++ post))
        with (p ++ HASH :: BAR :: body ++ BAR :: HASH
                :: commented comments (plain ++ [HASH; BAR] ++ post)).
      rewrite sub_block_comments_terminated by done.
      by rewrite IH, <- app_assoc. }
  split; [done|]. unfold strip_comments. by rewrite Hblock.
Qed.

Lemma unterminated_block_comment_stays_witness :
  sub_block_comments false (py "x #| c |# y #| z") = py "x  y #| z"
  ∧ strip_comments (py "x #| c |# y #| z")
    = sub_line_comments false (py "x  y #| z").
Proof.
  apply (unterminated_block_comment_stays [(py "x ", py " c ")] (py " y ") (py " z")).
  - repeat constructor.
  - reflexivity.
  - reflexivity.
Defined.

(** C2, as the specification has it, fails: the text from an unterminated
    start marker on is not removed. *)
Lemma unterminated_block_comment_not_removed :
  has_end (py " b") = false
  ∧ strip_comments (py "a " ++ [HASH; BAR] ++ py " b") = py "a #| b"
  ∧ strip_comments (py "a " ++ [HASH; BAR] ++ py " b") ≠ strip_comments (py "a ").
Proof. split; [done|]. split; [done|]. compute_done. Qed.

(** ** The extractor on a document made of blocks *)

Lemma find_from_shift rest sub i :
  find_from rest sub i = (λ k, i + k) <$> find_from rest sub 0.
Proof.
  revert i. induction rest as [|c rest IH]; intros i; cbn [find_from].
  - destruct (starts_with [] sub); simpl; [f_equal; lia|done].
  - destruct (starts_with (c :: rest) sub); simpl; [f_equal; lia|].
    rewrite (IH (S i)), (IH 1). destruct (find_from rest sub 0); simpl; [f_equal; lia|done].
Qed.

Lemma find_app s sub pre :
  find (pre ++ s) sub (length pre) = (λ k, length pre + k) <$> find s sub 0.
Proof.
  unfold find. rewrite decide_True by (rewrite length_app; lia).
  rewrite decide_True by lia. rewrite drop_app_length, drop_0.
  apply find_from_shift.
Qed.

(** An occurrence of [x :: sub] that begins in [f] ends in [f] when what
    follows [f] begins with a character that is not in [sub]. *)
Lemma starts_with_within (sub f X : str) c :
  c ∉ sub → head X = Some c →
  starts_with (f ++ X) sub = true → f ≠ [] ∨ sub = [] → starts_with f sub = true.
Proof.
  intros Hc HX. revert f. induction sub as [|y sub IH]; intros f Hs Hne.
  { by destruct f. }
  apply not_elem_of_cons in Hc as [Hcy Hc].
  destruct f as [|d f]; [by destruct Hne|].
  cbn [app starts_with] in *. apply andb_true_iff in Hs as [-> Hs].
  rewrite andb_true_l.
  destruct f as [|d' f].
  - destruct sub as [|z sub]; [done|]. exfalso.
    destruct X as [|x X]; [done|]. simpl in HX, Hs. simplify_eq.
    apply andb_true_iff in Hs as [Hz _]. apply bool_decide_eq_true in Hz.
    apply Hc. subst. by left.
  - apply IH; [done|done|by left].
Qed.

Lemma find_from_skip filler (sub X : str) x c i :
  c ∉ sub → head X = Some c →
  find_from filler (x :: sub) 0 = None →
  find_from (filler ++ X) (x :: sub) i = find_from X (x :: sub) (i + length filler).
Proof.
  intros Hc HX. revert i. induction filler as [|d filler IH]; intros i Hnone.
  { simpl. by rewrite Nat.add_0_r. }
  cbn [find_from] in Hnone.
  destruct (starts_with (d :: filler) (x :: sub)) eqn:Hs; [done|].
  rewrite find_from_shift in Hnone.
  destruct (find_from filler (x :: sub) 0) eqn:Hf; [done|].
  cbn [app find_from].
  destruct (starts_with (d :: filler ++ X) (x :: sub)) eqn:Hs'.
  - exfalso. cbn [starts_with] in Hs, Hs'.
    apply andb_true_iff in Hs' as [Hd Hs']. rewrite Hd in Hs. simpl in Hs.
    destruct filler as [|d' filler].
    + destruct sub as [|z sub]; [done|].
      destruct X as [|x' X]; [done|]. simpl in HX, Hs'. simplify_eq.
      apply andb_true_iff in Hs' as [Hz _]. apply bool_decide_eq_true in Hz.
      apply Hc. subst. by left.
    + rewrite (starts_with_within sub (d' :: filler) X c) in Hs; [done|auto..].
  - rewrite IH by done. f_equal. simpl. lia.
Qed.

(** The search from the start of a stretch of text without a block start,
    followed by a block, finds the block. *)
Lemma find_block pre filler blk rest block_type :
  LPAREN ∉ block_type →
  find filler (LPAREN :: block_type) 0 = None →
  (LPAREN :: block_type) `prefix_of` blk →
  find (pre ++ filler ++ blk ++ rest) (LPAREN :: block_type) (length pre)
  = Some (length pre + length filler).
Proof.
  intros Hbt Hnone Hpre. unfold find in *.
  rewrite decide_True by (rewrite length_app; lia).
  rewrite decide_True in Hnone by lia. rewrite drop_0 in Hnone.
  rewrite drop_app_length.
  destruct Hpre as [k ->].
  rewrite (find_from_skip filler block_type _ LPAREN LPAREN) by done.
  cbn [app find_from]. rewrite <- !app_assoc.
  assert (starts_with (LPAREN :: block_type ++ k ++ rest) (LPAREN :: block_type) = true) as ->.
  { apply starts_with_spec. by apply prefix_cons, prefix_app_r. }
  done.
Qed.

(** One turn of the loop on a block that is found and scanned. *)
Lemma extract_from_step content block_type idx results found expr_string next_idx :
  find content (LPAREN :: block_type) idx = Some found →
  find_top_level_expression content found = inr (Some expr_string, next_idx) →
  extract_from content block_type idx results
  = extract_from content block_type next_idx
      (results ++ block_entry block_type expr_string).
Proof.
  intros Hfind Hscan.
  pose proof (find_Some_lookup _ _ _ _ _ Hfind) as Hparen.
  pose proof (find_top_level_expression_at_open content found Hparen) as H.
  rewrite Hscan in H. destruct H as (k & -> & Hk & _).
  apply find_Some in Hfind as Hle. destruct Hle as [Hle _].
  apply lookup_lt_Some in Hparen as Hlt.
  apply (inj Some).
  rewrite <- (extract_from_loop content block_type idx results
                (S (length content - idx))) by lia.
  cbn [extract_loop]. rewrite Hfind, Hscan. unfold block_entry.
  repeat (case_match || case_decide); rewrite ?app_nil_r;
    apply extract_from_loop; lia.
Qed.

Lemma extract_from_end content block_type idx results :
  find content (LPAREN :: block_type) idx = None →
  extract_from content block_type idx results = results.
Proof.
  intros Hnone. apply (inj Some).
  rewrite <- (extract_from_loop content block_type idx results
                (S (length content - idx))) by lia.
  cbn [extract_loop]. by rewrite Hnone.
Qed.

Lemma extract_from_document block_type items rest :
  LPAREN ∉ block_type →
  Forall (block_item block_type) items →
  find rest (LPAREN :: block_type) 0 = None →
  ∀ pre results,
    extract_from (pre ++ document items rest) block_type (length pre) results
    = results ++ concat ((λ it, block_entry block_type it.2) <$> items).
Proof.
  intros Hbt Hitems Hrest.
  induction Hitems as [|[filler blk] items (Hfiller & Hblk & Hstart) _ IH];
    intros pre results.
  - cbn [document fmap list_fmap concat]. rewrite app_nil_r.
    apply extract_from_end. by rewrite find_app, Hrest.
  - cbn [document fmap list_fmap concat fst snd] in *.
    rewrite (extract_from_step _ _ _ _ (length pre + length filler) blk
               (length (pre ++ filler ++ blk))).
    + replace (pre ++ filler ++ blk ++ document items rest)
        with ((pre ++ filler ++ blk) ++ document items rest)
        by (by rewrite <- !app_assoc).
      by rewrite IH, <- app_assoc.
    + by apply find_block.
    + replace (pre ++ filler ++ blk ++ document items rest)
        with ((pre ++ filler) ++ blk ++ document items rest)
        by (by rewrite <- !app_assoc).
      rewrite <- length_app, find_top_level_expression_expression by done.
      by rewrite <- length_app, <- app_assoc.
Qed.

(** The extractor returns the entries of the blocks of a document, in the
    order of the document. *)
Lemma extract_defblocks_document block_type items rest :
  LPAREN ∉ block_type →
  Forall (block_item block_type) items →
  find rest (LPAREN :: block_type) 0 = None →
  extract_defblocks (document items rest) block_type
  = concat ((λ it, block_entry block_type it.2) <$> items).
Proof.
  intros Hbt Hitems Hrest. unfold extract_defblocks.
  apply (extract_from_document block_type items rest Hbt Hitems Hrest [] []).
Qed.

(** ** Trimming and splitting the text of a block *)

Lemma lstrip_id (s : str) :
  (∀ c, head s = Some c → isspace c = false) → lstrip s = s.
Proof. destruct s as [|c s]; [done|]. intros H. simpl. by rewrite H. Qed.

Lemma lstrip_whitespace ws (s : str) :
  whitespace ws → lstrip (ws ++ s) = lstrip s.
Proof. induction 1 as [|c ws Hc _ IH]; [done|]. simpl. by rewrite Hc. Qed.

Lemma rstrip_id (s : str) :
  (∀ c, last s = Some c → isspace c = false) → rstrip s = s.
Proof.
  intros H. unfold rstrip. rewrite lstrip_id; [apply reverse_involutive|].
  intros c. rewrite head_reverse. apply H.
Qed.

Lemma rstrip_whitespace (s : str) ws :
  whitespace ws → rstrip (s ++ ws) = rstrip s.
Proof.
  intros Hws. unfold rstrip. rewrite reverse_app, lstrip_whitespace; [done|].
  by apply Forall_reverse.
Qed.

Lemma strip_trimmed (s : str) : trimmed s → strip s = s.
Proof. intros [Hh Hl]. unfold strip. by rewrite lstrip_id, rstrip_id. Qed.

Lemma word_head w (s : str) c :
  word w → head (w ++ s) = Some c → isspace c = false.
Proof.
  intros [Hne Hall]. destruct w as [|d w]; [done|].
  apply Forall_cons in Hall as [Hd _]. simpl. congruence.
Qed.

Lemma word_last w c : word w → last w = Some c → isspace c = false.
Proof.
  intros [_ Hall] Hlast. rewrite Forall_forall in Hall.
  apply Hall. rewrite last_lookup in Hlast. by eapply list_elem_of_lookup_2.
Qed.

(** A word, then possibly whitespace and a trimmed text: a trimmed text. *)
Lemma trimmed_word_app w ws (s : str) :
  word w → s = [] ∧ ws = [] ∨ s ≠ [] ∧ trimmed s → trimmed (w ++ ws ++ s).
Proof.
  intros Hw Hs. split.
  - intros c. by apply word_head.
  - intros c. destruct Hs as [[-> ->]|[Hne [_ Hl]]].
    + rewrite !app_nil_r. by apply word_last.
    + rewrite !last_app. destruct (last s) as [y|] eqn:Hy.
      * intros [= <-]. by apply Hl.
      * by apply last_None in Hy.
Qed.

Lemma span_token_word w (r : str) :
  Forall (λ c, isspace c = false) w → starts_space r →
  span_token (w ++ r) = (w, r).
Proof.
  intros Hall Hr. induction Hall as [|c w Hc _ IH].
  - destruct r as [|d r]; [done|]. simpl in *. by rewrite Hr.
  - simpl. by rewrite Hc, IH.
Qed.

Lemma split_None_1_word w : word w → split_None_1 w = [w].
Proof.
  intros Hw. unfold split_None_1.
  rewrite lstrip_id by (intros c; rewrite <- (app_nil_r w); by apply word_head).
  destruct Hw as [Hne Hall]. destruct w as [|c w]; [done|].
  pose proof (span_token_word (c :: w) [] Hall I) as Hspan.
  rewrite app_nil_r in Hspan. by rewrite Hspan.
Qed.

Lemma split_None_1_two w ws (s : str) :
  word w → whitespace ws → ws ≠ [] → s ≠ [] →
  (∀ c, head s = Some c → isspace c = false) →
  split_None_1 (w ++ ws ++ s) = [w; s].
Proof.
  intros Hw Hws Hwsne Hne Hhead. unfold split_None_1.
  rewrite lstrip_id by (intros c; by apply word_head).
  destruct Hw as [Hwne Hall].
  destruct (w ++ ws ++ s) as [|c r] eqn:E; [by destruct w|]. rewrite <- E.
  rewrite span_token_word; [|done|by apply starts_space_app].
  rewrite lstrip_whitespace, lstrip_id by done. by destruct s.
Qed.

Lemma slice_1_m1_parens (inner : str) c d :
  slice_1_m1 (c :: inner ++ [d]) = inner.
Proof.
  unfold slice_1_m1.
  replace (length (c :: inner ++ [d]) - 2) with (length inner)
    by (simpl; rewrite length_app; simpl; lia).
  change (drop 1 (c :: inner ++ [d])) with (inner ++ [d]).
  apply take_app_length.
Qed.

Lemma isspace_RPAREN : isspace RPAREN = false.
Proof. reflexivity. Qed.

(** The parts of the inner text of a block: the keyword, and the payload
    when there is one. *)
Lemma block_text_parts keyword ws1 payload ws2 :
  word keyword → whitespace ws1 → whitespace ws2 →
  payload = [] ∨ payload ≠ [] ∧ ws1 ≠ [] ∧ trimmed payload →
  split_None_1 (strip (slice_1_m1 (strip (block_text keyword ws1 payload ws2))))
  = keyword :: match payload with [] => [] | _ :: _ => [payload] end.
Proof.
  intros Hkw Hws1 Hws2 Hpayload. unfold block_text.
  rewrite (strip_trimmed (LPAREN :: _)).
  2:{ split; intros c.
      - simpl. intros Hc. simplify_eq. apply isspace_LPAREN.
      - rewrite last_cons, !app_assoc, last_snoc. intros Hc. simplify_eq.
        apply isspace_RPAREN. }
  rewrite !app_assoc, slice_1_m1_parens, <- !app_assoc.
  destruct Hpayload as [->|(Hne & Hws1ne & Htrim)].
  - cbn [app]. unfold strip.
    rewrite lstrip_id by (intros c; by apply word_head).
    rewrite app_assoc, rstrip_whitespace by done.
    rewrite rstrip_whitespace by done.
    rewrite rstrip_id by (intros c; by apply word_last).
    by apply split_None_1_word.
  - unfold strip. rewrite lstrip_id by (intros c; by apply word_head).
    rewrite !app_assoc, rstrip_whitespace by done. rewrite <- !app_assoc.
    rewrite rstrip_id.
    2:{ intros c. apply (trimmed_word_app keyword ws1 payload); auto. }
    destruct Htrim as [Hh _]. rewrite split_None_1_two by done.
    by destruct payload.
Qed.

Lemma block_text_parts_payload keyword ws1 payload ws2 :
  word keyword → whitespace ws1 → whitespace ws2 →
  payload ≠ [] → ws1 ≠ [] → trimmed payload →
  split_None_1 (strip (slice_1_m1 (strip (block_text keyword ws1 payload ws2))))
  = [keyword; payload].
Proof.
  intros Hkw Hws1 Hws2 Hne Hws1ne Htrim.
  rewrite block_text_parts by auto. by destruct payload.
Qed.

(** What a layer declaration adds to the results. *)
Lemma block_entry_layer d :
  well_formed_layer d →
  block_entry (py "deflayer") (layer_block d) = [(Some (ld_name d), ld_body d)].
Proof.
  intros (Hws1 & Hws1ne & Hname & Hws2 & Hbody & Hws3 & _).
  assert (trimmed (ld_name d ++ ld_ws2 d ++ ld_body d)) as Htrim.
  { apply trimmed_word_app; [done|]. destruct Hbody as [[? ?]|(? & ? & ?)]; auto. }
  assert (ld_name d ++ ld_ws2 d ++ ld_body d ≠ []) as Hne.
  { destruct Hname as [Hn _]. by destruct (ld_name d). }
  unfold block_entry, layer_block.
  rewrite block_text_parts_payload; [|by split; [|repeat constructor]|done..].
  rewrite decide_False by (by intros [? _]).
  rewrite decide_True by done.
  rewrite strip_trimmed by done.
  destruct Hbody as [[-> ->]|(Hb & Hw2 & [Hbh _])].
  - rewrite !app_nil_r. by rewrite split_None_1_word.
  - by rewrite split_None_1_two.
Qed.

(** What a source declaration adds to the results: its body, and nothing
    when it has none. *)
Lemma block_entry_source ws1 body ws2 :
  whitespace ws1 → whitespace ws2 →
  body = [] ∨ body ≠ [] ∧ ws1 ≠ [] ∧ trimmed body →
  block_entry (py "defsrc") (block_text (py "defsrc") ws1 body ws2)
  = match body with [] => [] | _ :: _ => [(None, body)] end.
Proof.
  intros Hws1 Hws2 Hbody. unfold block_entry.
  rewrite block_text_parts; [|by split; [|repeat constructor]|done..].
  destruct body as [|c s]; [done|].
  rewrite decide_True by done.
  destruct Hbody as [?|(_ & _ & Htrim)]; [done|]. by rewrite (strip_trimmed (c :: s)).
Qed.

(** A layer declaration with the keyword alone adds nothing. *)
Lemma block_entry_keyword_only keyword block_type ws :
  word keyword → whitespace ws →
  block_entry block_type (block_text keyword [] [] ws) = [].
Proof.
  intros Hkw Hws. unfold block_entry.
  by rewrite block_text_parts; [|done|constructor|done|by left].
Qed.

(** ** The layer table of a document of layer declarations *)

Lemma layer_document_blocks (items : list (str * layer_decl)) rest :
  Forall (λ it, find it.1 (LPAREN :: py "deflayer") 0 = None
                ∧ well_formed_layer it.2) items →
  find rest (LPAREN :: py "deflayer") 0 = None →
  extract_defblocks (layer_document items rest) (py "deflayer")
  = (λ it, (Some (ld_name it.2), ld_body it.2)) <$> items.
Proof.
  intros Hitems Hrest. unfold layer_document.
  rewrite extract_defblocks_document; [|compute_done| |done].
  - induction Hitems as [|[filler d] items [_ Hd] _ IH]; [done|].
    cbn [fmap list_fmap concat fst snd] in *.
    by rewrite block_entry_layer, IH.
  - apply Forall_fmap. eapply Forall_impl; [done|].
    intros [filler d] [Hf Hd]. split; [done|]. split.
    + by destruct Hd as (_ & _ & _ & _ & _ & _ & ?).
    + unfold layer_block, block_text. simpl. apply prefix_cons.
      by do 8 apply prefix_cons; apply prefix_nil.
Qed.

(** In a document of layer declarations, the layer table maps a name to
    the forms of the body of the last declaration of that name. *)
Lemma layer_document_last_wins content (items : list (str * layer_decl)) rest
    i filler d :
  strip_comments content = layer_document items rest →
  Forall (λ it, find it.1 (LPAREN :: py "deflayer") 0 = None
                ∧ well_formed_layer it.2) items →
  find rest (LPAREN :: py "deflayer") 0 = None →
  items !! i = Some (filler, d) →
  (∀ j it, i < j → items !! j = Some it → ld_name it.2 ≠ ld_name d) →
  (parse_kmonad_config content).2 !! ld_name d
  = Some (split_top_level_forms (ld_body d)).
Proof.
  intros Hdoc Hitems Hrest Hi Hlast.
  unfold parse_kmonad_config. cbn [snd].
  rewrite Hdoc, layer_document_blocks by done.
  rewrite <- (take_drop_middle items i (filler, d)) by done.
  rewrite fmap_app, fmap_cons. apply layer_dict_of_last.
  - rewrite <- list_fmap_compose. intros Hin.
    apply list_elem_of_fmap in Hin as (it & Heq & Hin). simpl in Heq.
    apply list_elem_of_lookup in Hin as [k Hk]. rewrite lookup_drop in Hk.
    apply (Hlast (S i + k) it); [lia|done|congruence].
Qed.

(** ** The source sequence of a document of source declarations *)

Lemma source_document_blocks (items : list (str * source_decl)) rest :
  Forall (λ it, find it.1 (LPAREN :: py "defsrc") 0 = None
                ∧ well_formed_source it.2) items →
  find rest (LPAREN :: py "defsrc") 0 = None →
  extract_defblocks (source_document items rest) (py "defsrc")
  = concat ((λ it, match sd_body it.2 with
                   | [] => []
                   | _ :: _ => [(None, sd_body it.2)]
                   end) <$> items).
Proof.
  intros Hitems Hrest. unfold source_document.
  rewrite extract_defblocks_document; [|compute_done| |done].
  - induction Hitems as [|[filler d] items [_ Hd] _ IH]; [done|].
    cbn [fmap list_fmap concat fst snd] in *.
    destruct Hd as (? & ? & ? & _).
    unfold source_block at 1. by rewrite block_entry_source, IH.
  - apply Forall_fmap. eapply Forall_impl; [done|].
    intros [filler d] [Hf Hd]. split; [done|]. split.
    + by destruct Hd as (_ & _ & _ & ?).
    + unfold source_block, block_text. simpl. apply prefix_cons.
      by do 6 apply prefix_cons; apply prefix_nil.
Qed.

(** In a document of source declarations, the first declaration that has
    a body gives the source sequence: declarations without a body before it
    are skipped, declarations after it are not used. *)
Lemma source_document_first content skipped filler d others rest :
  strip_comments content
  = source_document (skipped ++ (filler, d) :: others) rest →
  Forall (λ it, find it.1 (LPAREN :: py "defsrc") 0 = None
                ∧ well_formed_source it.2) (skipped ++ (filler, d) :: others) →
  find rest (LPAREN :: py "defsrc") 0 = None →
  Forall (λ it, sd_body it.2 = []) skipped →
  sd_body d ≠ [] →
  (parse_kmonad_config content).1 = split_top_level_forms (sd_body d).
Proof.
  intros Hdoc Hitems Hrest Hskipped Hbody.
  unfold parse_kmonad_config. cbn [fst].
  rewrite Hdoc, source_document_blocks by done.
  rewrite fmap_app, concat_app, fmap_cons.
  assert (concat ((λ it : str * source_decl,
                     match sd_body it.2 with
                     | [] => []
                     | _ :: _ => [(None, sd_body it.2) : block]
                     end) <$> skipped) = []) as ->.
  { clear Hdoc Hitems. induction Hskipped as [|it skipped Hit _ IH]; [done|].
    rewrite fmap_cons. cbn [concat]. by rewrite Hit, IH. }
  cbn [app concat fst snd]. by destruct (sd_body d).
Qed.

Example source_document_example :
  (parse_kmonad_config (py "(defsrc) (defsrc a b) (defsrc c)")).1
  = [py "a"; py "b"].
Proof.
  apply (source_document_first _
           [([], {| sd_ws1 := []; sd_body := []; sd_ws2 := [] |})]
           (py " ") {| sd_ws1 := py " "; sd_body := py "a b"; sd_ws2 := [] |}
           [(py " ", {| sd_ws1 := py " "; sd_body := py "c"; sd_ws2 := [] |})] []).
  - reflexivity.
  - repeat (apply Forall_cons_2 || apply Forall_nil_2);
      (split; [reflexivity|]); unfold well_formed_source, trimmed; simpl;
      (split; [by repeat constructor|]); (split; [by repeat constructor|]);
      (split; [first [by left | right; repeat split; try done;
                       intros c Hc; by simplify_eq]|]).
    + by exists (py "defsrc").
    + by exists (py "defsrc a b").
    + by exists (py "defsrc c").
  - reflexivity.
  - by repeat constructor.
  - done.
Qed.

(** * Further properties of the code *)

(** ** The scanner and the text around the expression *)

Lemma scan_loop_shift rest k : ∀ i stack,
  scan_loop rest (k + i) stack
  = match scan_loop rest i stack with
    | inl e => inl (shift_error k e)
    | inr (inl next) => inr (inl (k + next))
    | inr (inr st) => inr (inr st)
    end.
Proof.
  induction rest as [|c rest IH]; intros i stack; [done|].
  cbn [scan_loop]. replace (S (k + i)) with (k + S i) by lia.
  destruct (decide (c = LPAREN)); [by rewrite IH|].
  destruct (decide (c = RPAREN)); [|by rewrite IH].
  destruct stack as [|x stack]; [done|].
  destruct (removelast (x :: stack)); [done|by rewrite IH].
Qed.

Lemma find_top_level_expression_shift (pre s : str) (i : nat) :
  find_top_level_expression (pre ++ s) (length pre + i)
  = shift_result (length pre) (find_top_level_expression s i).
Proof.
  unfold find_top_level_expression.
  rewrite <- drop_drop, drop_app_length, scan_loop_shift.
  destruct (scan_loop (drop i s) i []) as [e|[next|[|x st]]]; simpl; try done.
  - do 3 f_equal. unfold slice. rewrite <- drop_drop, drop_app_length.
    f_equal. lia.
  - by rewrite length_app.
Qed.

(** X1: the scanner does not look at the text before the start offset:
    with a text put in front, it gives the same result with every offset
    moved by the length of that text. *)
Theorem find_top_level_expression_prefix (pre s : str) (i : nat) :
  find_top_level_expression (pre ++ s) (length pre + i)
  = shift_result (length pre) (find_top_level_expression s i).
Proof. apply find_top_level_expression_shift. Qed.

Lemma scan_loop_append rest post : ∀ i stack,
  match scan_loop rest i stack with
  | inr (inr st) => scan_loop (rest ++ post) i stack
                    = scan_loop post (i + length rest) st
  | r => scan_loop (rest ++ post) i stack = r
  end.
Proof.
  induction rest as [|c rest IH]; intros i stack.
  { simpl. by rewrite Nat.add_0_r. }
  cbn [app scan_loop length].
  assert (∀ st', match scan_loop rest (S i) st' with
                 | inr (inr st) => scan_loop (rest ++ post) (S i) st'
                                   = scan_loop post (i + S (length rest)) st
                 | r => scan_loop (rest ++ post) (S i) st' = r
                 end) as IH'.
  { intros st'. specialize (IH (S i) st').
    by replace (i + S (length rest)) with (S i + length rest) by lia. }
  destruct (decide (c = LPAREN)); [apply IH'|].
  destruct (decide (c = RPAREN)); [|apply IH'].
  destruct stack as [|x stack]; [done|].
  destruct (removelast (x :: stack)); [done|apply IH'].
Qed.

(** X2: once the scanner has returned an expression, or met a closing
    parenthesis at depth zero, text added at the end of the buffer does
    not change the result. *)
Theorem find_top_level_expression_suffix (content post : str) (start : nat)
    (r : ValueError + (option str * nat)) :
  find_top_level_expression content start = r →
  (∃ e next, r = inr (Some e, next)) ∨ (∃ i, r = inl (Unmatched_close i)) →
  find_top_level_expression (content ++ post) start = r.
Proof.
  intros Hr Hkind. unfold find_top_level_expression in *.
  assert (start ≤ length content) as Hle.
  { destruct (decide (start ≤ length content)); [done|].
    rewrite drop_ge in Hr by lia. simpl in Hr.
    destruct Hkind as [(? & ? & ->)|(? & ->)]; done. }
  rewrite drop_app_le by done.
  pose proof (scan_loop_append (drop start content) post start []) as H.
  pose proof (scan_loop_spec (drop start content) start []) as Hs.
  destruct (scan_loop (drop start content) start []) as [e|[next|[|x st]]].
  - by rewrite H.
  - rewrite H, <- Hr. destruct Hs as (m & -> & Hm & _).
    apply lookup_lt_Some in Hm. rewrite length_drop in Hm.
    do 3 f_equal. unfold slice. rewrite drop_app_le by done.
    rewrite take_app_le; [done|]. rewrite length_drop. lia.
  - destruct Hkind as [(? & ? & ->)|(? & ->)]; done.
  - destruct Hkind as [(? & ? & ->)|(? & ->)]; done.
Qed.

Lemma find_top_level_expression_suffix_witness :
  find_top_level_expression (py "x (a b)" ++ py " (c") 2 = inr (Some (py "(a b)"), 7).
Proof.
  apply (find_top_level_expression_suffix (py "x (a b)") (py " (c") 2).
  - reflexivity.
  - left. by eexists _, _.
Defined.

(** ** What the scanner returns *)

Ltac count_in H :=
  rewrite ?opens_app, ?closes_app, ?opens_cons, ?closes_cons, ?opens_nil,
    ?closes_nil in H.

Lemma balanced_from_complete s : ∀ d,
  d + opens s = closes s →
  (∀ n, closes (take n s) ≤ d + opens (take n s)) →
  balanced_from d s = true.
Proof.
  induction s as [|c s IH]; intros d Heq Hpre.
  { apply bool_decide_eq_true. rewrite opens_nil, closes_nil in Heq. lia. }
  rewrite opens_cons, closes_cons in Heq.
  assert (∀ n, closes (take n s) + (if decide (c = RPAREN) then 1 else 0)
               ≤ d + ((if decide (c = LPAREN) then 1 else 0) + opens (take n s)))
    as Hpre'.
  { intros n. specialize (Hpre (S n)).
    rewrite firstn_cons, opens_cons, closes_cons in Hpre. lia. }
  cbn [balanced_from].
  destruct (decide (c = LPAREN)) as [->|Hno].
  - apply IH; [clia|]. intros n. specialize (Hpre' n). clia.
  - destruct (decide (c = RPAREN)) as [->|Hnc].
    + destruct d as [|d].
      { specialize (Hpre' 0). rewrite take_0, opens_nil, closes_nil in Hpre'. clia. }
      apply IH; [clia|]. intros n. specialize (Hpre' n). clia.
    + apply IH; [clia|]. intros n. specialize (Hpre' n). clia.
Qed.

Lemma find_top_level_expression_open_cases (content : str) (start : nat) :
  content !! start = Some LPAREN →
  find_top_level_expression content start = inl (Unmatched_open start)
  ∨ ∃ e, find_top_level_expression content start
         = inr (Some e, start + length e)
       ∧ expression e
       ∧ content = take start content ++ e ++ drop (start + length e) content.
Proof.
  intros Hs.
  pose proof (find_top_level_expression_at_open content start Hs) as H.
  destruct (find_top_level_expression content start) as [[k|s']|[[e|] next]];
    [done| | |done].
  { left. by destruct H as [-> _]. }
  right. destruct H as (i & -> & Hlt & -> & Hc & Hz & Hpos).
  apply lookup_lt_Some in Hc as Hi.
  assert (length (slice content start (S i)) = S i - start) as Hlen.
  { unfold slice. rewrite length_take, length_drop. lia. }
  exists (slice content start (S i)).
  replace (start + length (slice content start (S i))) with (S i) by lia.
  split; [done|]. split.
  - exists (slice content (S start) i). split.
    + rewrite (slice_snoc content start i RPAREN ltac:(lia) Hc).
      unfold slice. rewrite (drop_S _ _ _ Hs).
      by replace (i - start) with (S (i - S start)) by lia.
    + apply balanced_from_complete.
      * unfold depth_zero in Hz. rewrite (slice_snoc content start i RPAREN ltac:(lia) Hc) in Hz.
        rewrite opens_app, closes_app in Hz.
        assert (slice content start i = LPAREN :: slice content (S start) i) as Hsl.
        { unfold slice. rewrite (drop_S _ _ _ Hs).
          by replace (i - start) with (S (i - S start)) by lia. }
        rewrite Hsl in Hz. count_in Hz. clia.
      * intros n.
        destruct (decide (n ≤ i - S start)) as [Hn|Hn].
        -- specialize (Hpos (S start + n) ltac:(lia)). unfold depth_pos in Hpos.
           assert (slice content start (S start + n)
                   = LPAREN :: take n (slice content (S start) i)) as Hsl.
           { unfold slice. rewrite (drop_S _ _ _ Hs).
             replace (S start + n - start) with (S n) by lia.
             rewrite firstn_cons. f_equal. rewrite take_take.
             f_equal. lia. }
           rewrite Hsl in Hpos. count_in Hpos. clia.
        -- rewrite take_ge by (unfold slice; rewrite length_take, length_drop; lia).
           specialize (Hpos i ltac:(lia)). unfold depth_pos in Hpos.
           assert (slice content start i = LPAREN :: slice content (S start) i) as Hsl.
           { unfold slice. rewrite (drop_S _ _ _ Hs).
             by replace (i - start) with (S (i - S start)) by lia. }
           rewrite Hsl in Hpos. count_in Hpos. clia.
  - unfold slice. rewrite <- (take_drop start content) at 1. f_equal.
    rewrite <- (take_drop (S i - start) (drop start content)) at 1. f_equal.
    rewrite drop_drop. f_equal. lia.
Qed.

(** X3: started at an opening parenthesis, the scanner never reports an
    unmatched closing parenthesis and never returns without an expression;
    what it returns is a balanced parenthesized expression that stands in
    the buffer at the start offset, and the offset just after it. *)
Theorem find_top_level_expression_sound (content : str) (start : nat) :
  content !! start = Some LPAREN →
  find_top_level_expression content start = inl (Unmatched_open start)
  ∨ ∃ e, find_top_level_expression content start
         = inr (Some e, start + length e)
       ∧ expression e
       ∧ content = take start content ++ e ++ drop (start + length e) content.
Proof. apply find_top_level_expression_open_cases. Qed.

Lemma find_top_level_expression_sound_witness :
  find_top_level_expression (py "ab (c (d") 3 = inl (Unmatched_open 3)
  ∨ ∃ e, find_top_level_expression (py "ab (c (d") 3 = inr (Some e, 3 + length e)
       ∧ expression e
       ∧ py "ab (c (d" = take 3 (py "ab (c (d") ++ e
                         ++ drop (3 + length e) (py "ab (c (d").
Proof. apply (find_top_level_expression_sound (py "ab (c (d") 3). reflexivity. Defined.

(** X4: a balanced parenthesized expression standing in a text is what the
    scanner returns when started at its opening parenthesis, whatever comes
    before and after it, together with the offset just after it. *)
Theorem find_top_level_expression_round_trip (a e r : str) :
  expression e →
  find_top_level_expression (a ++ e ++ r) (length a)
  = inr (Some e, length a + length e).
Proof. apply find_top_level_expression_expression. Qed.

Lemma find_top_level_expression_round_trip_witness :
  find_top_level_expression (py "q ) " ++ py "(a (b) c)" ++ py ") (") 4
  = inr (Some (py "(a (b) c)"), 13).
Proof.
  apply (find_top_level_expression_round_trip (py "q ) ") (py "(a (b) c)") (py ") (")).
  exists (py "a (b) c"). split; reflexivity.
Defined.

Lemma scan_loop_nothing rest : ∀ i stack,
  scan_loop rest i stack = inr (inr []) ↔
  stack = [] ∧ opens rest = 0 ∧ closes rest = 0.
Proof.
  induction rest as [|c rest IH]; intros i stack.
  { simpl. split; [by intros [= ->]|by intros (-> & _)]. }
  cbn [scan_loop]. rewrite opens_cons, closes_cons.
  destruct (decide (c = LPAREN)) as [->|Hno].
  - rewrite IH. rewrite decide_False by apply paren_distinct.
    split; [|intros (_ & ? & _); lia]. intros (Hst & _). by destruct stack.
  - destruct (decide (c = RPAREN)) as [->|Hnc].
    + split; [|intros (_ & _ & ?); lia].
      destruct stack as [|x stack]; [done|].
      pose proof (length_removelast (x :: stack)) as Hlen.
      destruct (removelast (x :: stack)) as [|y st]; [done|].
      rewrite IH. by intros (? & _).
    + rewrite IH. simpl. done.
Qed.

(** X5: the scanner returns without an expression exactly when no
    parenthesis stands at or after the start offset (in particular when
    the start offset is at or past the end); the offset it returns with is
    the length of the buffer. *)
Theorem find_top_level_expression_none (content : str) (start next : nat) :
  find_top_level_expression content start = inr (None, next) ↔
  next = length content
  ∧ opens (drop start content) = 0 ∧ closes (drop start content) = 0.
Proof.
  unfold find_top_level_expression.
  pose proof (scan_loop_nothing (drop start content) start []) as H.
  destruct (scan_loop (drop start content) start []) as [e|[n|[|x st]]].
  - split; [done|]. intros (_ & Ho & Hc).
    by pose proof (proj2 H (conj eq_refl (conj Ho Hc))).
  - split; [done|]. intros (_ & Ho & Hc).
    by pose proof (proj2 H (conj eq_refl (conj Ho Hc))).
  - destruct (proj1 H eq_refl) as (_ & Ho & Hc). split.
    + by intros [= <-].
    + by intros (-> & _).
  - split; [done|]. intros (_ & Ho & Hc).
    by pose proof (proj2 H (conj eq_refl (conj Ho Hc))).
Qed.

(** ** Trimming *)

Lemma non_space_whitespace ws : whitespace ws → non_space ws = [].
Proof.
  unfold non_space. induction 1 as [|c ws Hc _ IH]; [done|].
  rewrite filter_cons. rewrite decide_False by congruence. done.
Qed.

Lemma non_space_app (s1 s2 : str) : non_space (s1 ++ s2) = non_space s1 ++ non_space s2.
Proof. apply filter_app. Qed.

Lemma non_space_nil_whitespace (s : str) : non_space s = [] → whitespace s.
Proof.
  unfold non_space, whitespace. induction s as [|c s IH]; [constructor|].
  rewrite filter_cons. destruct (isspace c) eqn:Hc.
  - rewrite decide_False by done. intros H. constructor; auto.
  - by rewrite decide_True.
Qed.

Lemma lstrip_spec (s : str) :
  ∃ ws, whitespace ws ∧ s = ws ++ lstrip s
        ∧ ∀ c, head (lstrip s) = Some c → isspace c = false.
Proof.
  induction s as [|c s (ws & Hws & Heq & Hh)].
  - exists []. split; [constructor|]. by split.
  - simpl. destruct (isspace c) eqn:Hc.
    + exists (c :: ws). split; [by constructor|]. split; [|done].
      simpl. by rewrite <- Heq.
    + exists []. split; [constructor|]. split; [done|].
      simpl. congruence.
Qed.

Lemma rstrip_spec (s : str) :
  ∃ ws, whitespace ws ∧ s = rstrip s ++ ws
        ∧ ∀ c, last (rstrip s) = Some c → isspace c = false.
Proof.
  destruct (lstrip_spec (reverse s)) as (ws & Hws & Heq & Hh).
  exists (reverse ws). split; [by apply Forall_reverse|]. split.
  - unfold rstrip. rewrite <- reverse_app, <- Heq. by rewrite reverse_involutive.
  - intros c. unfold rstrip. rewrite last_reverse. apply Hh.
Qed.

(** Trimming takes whitespace, and nothing else, from both ends. *)
Lemma strip_spec (s : str) :
  ∃ ws1 ws2, whitespace ws1 ∧ whitespace ws2
             ∧ s = ws1 ++ strip s ++ ws2 ∧ trimmed (strip s).
Proof.
  destruct (lstrip_spec s) as (ws1 & Hws1 & Heq1 & Hh).
  destruct (rstrip_spec (lstrip s)) as (ws2 & Hws2 & Heq2 & Hl).
  exists ws1, ws2. split; [done|]. split; [done|]. unfold strip. split.
  - by rewrite <- Heq2.
  - split; [|done]. intros c Hc. apply Hh. rewrite Heq2.
    destruct (rstrip (lstrip s)); [done|]. done.
Qed.

Lemma non_space_strip (s : str) : non_space (strip s) = non_space s.
Proof.
  destruct (strip_spec s) as (ws1 & ws2 & Hws1 & Hws2 & Heq & _).
  rewrite Heq at 2. rewrite !non_space_app.
  rewrite (non_space_whitespace ws1), (non_space_whitespace ws2) by done.
  by rewrite app_nil_r.
Qed.

(** Trimming keeps a first character that is not whitespace. *)
Lemma strip_head (s : str) c :
  head s = Some c → isspace c = false → head (strip s) = Some c.
Proof.
  intros Hc Hns. unfold strip.
  rewrite (lstrip_id s) by (intros d; congruence).
  destruct (rstrip_spec s) as (ws & Hws & Heq & _).
  destruct (rstrip s) as [|d r] eqn:E.
  - simpl in Heq. subst s. destruct ws as [|d ws]; [done|].
    apply Forall_cons in Hws as [Hd _]. simpl in Hc. congruence.
  - rewrite Heq in Hc. done.
Qed.

(** ** One turn of the splitter's loop, on any body *)

Lemma skip_space_take rest i :
  ∃ n, skip_space rest i = i + n ∧ n ≤ length rest
       ∧ whitespace (take n rest)
       ∧ ∀ c, rest !! n = Some c → isspace c = false.
Proof.
  revert i. induction rest as [|c rest IH]; intros i.
  - exists 0. simpl. split; [lia|]. split; [lia|]. split; [constructor|]. by intros c.
  - simpl. destruct (isspace c) eqn:Hc.
    + destruct (IH (S i)) as (n & -> & Hn & Hws & Hns). exists (S n).
      split; [lia|]. split; [simpl; lia|]. split; [by constructor|]. done.
    + exists 0. split; [lia|]. split; [simpl; lia|]. split; [constructor|].
      simpl. congruence.
Qed.

Lemma skip_token_take rest i :
  ∃ n, skip_token rest i = i + n ∧ n ≤ length rest
       ∧ Forall (λ c, isspace c = false) (take n rest)
       ∧ ∀ c, rest !! n = Some c → isspace c = true.
Proof.
  revert i. induction rest as [|c rest IH]; intros i.
  - exists 0. simpl. split; [lia|]. split; [lia|]. split; [constructor|]. by intros c.
  - simpl. destruct (isspace c) eqn:Hc.
    + exists 0. split; [lia|]. split; [simpl; lia|]. split; [constructor|].
      simpl. congruence.
    + destruct (IH (S i)) as (n & -> & Hn & Hws & Hns). exists (S n).
      split; [lia|]. split; [simpl; lia|]. split; [by constructor|]. done.
Qed.

(** What one turn of the loop does, from an offset inside the body: it
    passes over whitespace up to [j] and then stops at the end of the body,
    or takes an expression, or gives up on an unbalanced rest, or takes a
    token. *)
Lemma split_loop_turn fuel (body : str) i forms :
  i < length body →
  ∃ j, i ≤ j ≤ length body ∧ whitespace (slice body i j)
     ∧ ( (j = length body
          ∧ split_loop (S fuel) body i forms = Some forms)
       ∨ (∃ e, expression e
             ∧ drop j body = e ++ drop (j + length e) body
             ∧ split_loop (S fuel) body i forms
               = split_loop fuel body (j + length e) (forms ++ [e]))
       ∨ (head (drop j body) = Some LPAREN
          ∧ (∃ err, find_top_level_expression body j = inl err)
          ∧ split_loop (S fuel) body i forms
            = Some (forms ++ [strip (drop j body)]))
       ∨ (∃ tok, bare_token tok
             ∧ drop j body = tok ++ drop (j + length tok) body
             ∧ starts_space (drop (j + length tok) body)
             ∧ split_loop (S fuel) body i forms
               = split_loop fuel body (j + length tok) (forms ++ [tok])) ).
Proof.
  intros Hi. cbn [split_loop]. rewrite decide_True by done.
  destruct (skip_space_take (drop i body) i) as (n & -> & Hn & Hws & Hns).
  rewrite length_drop in Hn. exists (i + n).
  split; [lia|]. split.
  { unfold slice. by replace (i + n - i) with n by lia. }
  destruct (decide (length body ≤ i + n)) as [Hend|Hend].
  { left. split; [lia|done]. }
  right.
  destruct (lookup_lt_is_Some_2 body (i + n) ltac:(lia)) as [c Hc].
  specialize (Hns c). rewrite lookup_drop in Hns. specialize (Hns Hc).
  destruct (decide (body !! (i + n) = Some LPAREN)) as [Hparen|Hparen].
  - unfold find_top_level_expression_in_body.
    destruct (find_top_level_expression_open_cases body (i + n) Hparen)
      as [Herr|(e & He & Hexpr & Hdec)].
    + right. left. rewrite Herr. split; [|split; [by eexists|done]].
      by rewrite (drop_S _ _ _ Hparen).
    + left. rewrite He. exists e. split; [done|]. split; [|done].
      rewrite Hdec at 1. rewrite drop_app_length'; [done|].
      rewrite length_take. lia.
  - right. right.
    destruct (skip_token_take (drop (i + n) body) (i + n))
      as (m & -> & Hm & Htok & Hsp).
    rewrite length_drop in Hm.
    assert (slice body (i + n) (i + n + m) = take m (drop (i + n) body)) as Hsl.
    { unfold slice. f_equal. lia. }
    assert (0 < m) as Hpos.
    { destruct m as [|m]; [|lia]. specialize (Hsp c).
      rewrite lookup_drop, Nat.add_0_r in Hsp. specialize (Hsp Hc). congruence. }
    assert (length (take m (drop (i + n) body)) = m) as Hlen.
    { rewrite length_take, length_drop. lia. }
    exists (take m (drop (i + n) body)). rewrite Hlen, Hsl.
    split; [|split; [|split; [|done]]].
    + split; [|split; [done|]].
      * intros Hnil. rewrite Hnil in Hlen. simpl in Hlen. lia.
      * rewrite (drop_S _ _ _ Hc). destruct m; [lia|]. simpl. congruence.
    + by rewrite <- (drop_drop body m (i + n)), take_drop.
    + rewrite <- (drop_drop body m (i + n)). destruct (drop m (drop (i + n) body)) as [|d r] eqn:E; [done|].
      simpl. apply Hsp. rewrite <- (Nat.add_0_r m), <- lookup_drop, E. done.
Qed.

(** ** What the splitter returns on any body *)

Lemma expression_is_form e : expression e → is_form e.
Proof.
  intros (inner & -> & _). split; [done|]. split; [|by left].
  split; intros c.
  - simpl. intros Hc. simplify_eq. apply isspace_LPAREN.
  - rewrite last_cons, last_snoc. intros Hc. simplify_eq. apply isspace_RPAREN.
Qed.

Lemma Forall_non_space_trimmed (s : str) :
  Forall (λ c, isspace c = false) s → trimmed s.
Proof.
  intros Hall. rewrite Forall_forall in Hall. split; intros c Hc; apply Hall.
  - destruct s; simplify_eq/=. by left.
  - by apply last_Some_elem_of.
Qed.

Lemma bare_token_is_form tok : bare_token tok → is_form tok.
Proof.
  intros (Hne & Hall & _). split; [done|].
  split; [by apply Forall_non_space_trimmed|by right].
Qed.

Lemma split_loop_result fuel : ∀ (body : str) i forms r,
  split_loop fuel body i forms = Some r →
  ∃ new, r = forms ++ new ∧ Forall is_form new
         ∧ non_space (concat new) = non_space (drop i body).
Proof.
  induction fuel as [|fuel IH]; intros body i forms r Hr; [done|].
  destruct (decide (i < length body)) as [Hi|Hi].
  2:{ cbn [split_loop] in Hr. rewrite decide_False in Hr by done. simplify_eq.
      exists []. rewrite app_nil_r, drop_ge by lia. by repeat split. }
  destruct (split_loop_turn fuel body i forms Hi) as (j & Hj & Hws & Hturn).
  assert (non_space (drop i body) = non_space (drop j body)) as ->.
  { rewrite <- (take_drop (j - i) (drop i body)), non_space_app.
    unfold slice in Hws. rewrite (non_space_whitespace _ Hws), drop_drop.
    by replace (i + (j - i)) with j by lia. }
  destruct Hturn as [[-> Heq]|[(e & He & Hdec & Heq)|[(Hh & _ & Heq)
                    |(tok & Htok & Hdec & _ & Heq)]]]; rewrite Heq in Hr.
  - simplify_eq. exists []. rewrite app_nil_r, drop_ge by lia. by repeat split.
  - destruct (IH _ _ _ _ Hr) as (new & -> & Hnew & Hns).
    exists (e :: new). rewrite <- app_assoc. split; [done|].
    split; [constructor; [by apply expression_is_form|done]|].
    cbn [concat]. by rewrite non_space_app, Hns, <- non_space_app, <- Hdec.
  - simplify_eq. exists [strip (drop j body)]. split; [done|]. split.
    + constructor; [|constructor].
      pose proof (strip_head _ _ Hh isspace_LPAREN) as Hhead.
      destruct (strip_spec (drop j body)) as (_ & _ & _ & _ & _ & Htrim).
      split; [by destruct (strip (drop j body))|]. split; [done|by left].
    + cbn [concat]. by rewrite app_nil_r, non_space_strip.
  - destruct (IH _ _ _ _ Hr) as (new & -> & Hnew & Hns).
    exists (tok :: new). rewrite <- app_assoc. split; [done|].
    split; [constructor; [by apply bare_token_is_form|done]|].
    cbn [concat]. by rewrite non_space_app, Hns, <- non_space_app, <- Hdec.
Qed.

(** X6: every form the splitter returns, for any body, is not empty and
    has no whitespace at either end, and holds whitespace inside only when
    it begins with an opening parenthesis. *)
Theorem split_top_level_forms_forms (body : str) :
  Forall is_form (split_top_level_forms body).
Proof.
  destruct (split_loop_result _ _ _ _ _ (split_top_level_forms_total body))
    as (new & -> & Hnew & _).
  done.
Qed.

(** X7: the splitter loses, adds and reorders no character that is not
    whitespace: the forms put end to end hold the non-whitespace characters
    of the body, in order. *)
Theorem split_top_level_forms_non_space (body : str) :
  non_space (concat (split_top_level_forms body)) = non_space body.
Proof.
  destruct (split_loop_result _ _ _ _ _ (split_top_level_forms_total body))
    as (new & -> & _ & Hns).
  done.
Qed.

(** X8: the splitter returns no form exactly when the body is empty or
    holds whitespace only. *)
Theorem split_top_level_forms_nil (body : str) :
  split_top_level_forms body = [] ↔ whitespace body.
Proof.
  split.
  - intros Hnil. apply non_space_nil_whitespace.
    destruct (split_loop_result _ _ _ _ _ (split_top_level_forms_total body))
      as (new & Heq & _ & Hns).
    rewrite drop_0 in Hns. rewrite <- Hns. simpl in Heq. rewrite <- Heq, Hnil. done.
  - intros Hws.
    pose proof (split_top_level_forms_joined [] body Hws) as H. done.
Qed.

(** X9: a body of bare tokens and balanced parenthesized expressions, set
    apart by whitespace where a token ends, splits into exactly these
    forms, in order: joining forms and splitting gives the forms back. *)
Theorem split_top_level_forms_round_trip (items : list (str * str)) (trail : str) :
  well_formed_body items trail →
  split_top_level_forms (joined items ++ trail) = items.*2.
Proof. apply split_top_level_forms_joined. Qed.

Lemma split_top_level_forms_round_trip_witness :
  split_top_level_forms (py "(a (b))(c) d  (e f) ") 
  = [py "(a (b))"; py "(c)"; py "d"; py "(e f)"].
Proof.
  apply (split_top_level_forms_round_trip
           [([], py "(a (b))"); ([], py "(c)"); (py " ", py "d");
            (py "  ", py "(e f)")] (py " ")).
  repeat split; try compute_done.
  - left. by exists (py "a (b)").
  - left. by exists (py "c").
  - right. repeat split; compute_done.
  - left. by exists (py "e f").
Defined.

(** ** The splitter on a body with an unbalanced rest *)

(** More fuel does not change what the loop hands back. *)
Lemma split_loop_fuel fuel : ∀ fuel' (body : str) i forms r,
  split_loop fuel body i forms = Some r → fuel ≤ fuel' →
  split_loop fuel' body i forms = Some r.
Proof.
  induction fuel as [|fuel IH]; intros fuel' body i forms r H Hle; [done|].
  destruct fuel' as [|fuel']; [lia|]. cbn [split_loop] in *.
  repeat (case_match || case_decide); simplify_eq; try done; apply IH; (done || lia).
Qed.

Lemma split_loop_before items : ∀ fuel (a rest : str) forms,
  forms_before items rest →
  split_loop (length items + fuel) (a ++ joined items ++ rest) (length a) forms
  = split_loop fuel (a ++ joined items ++ rest) (length (a ++ joined items))
      (forms ++ items.*2).
Proof.
  induction items as [|[ws form] items IH]; intros fuel a rest forms Hitems.
  { simpl. by rewrite !app_nil_r. }
  destruct Hitems as (Hws & Hform & Hitems). cbn [joined length plus].
  rewrite <- !app_assoc. rewrite split_loop_form by done.
  replace (a ++ ws ++ form ++ joined items ++ rest)
    with ((a ++ ws ++ form) ++ joined items ++ rest) by (by rewrite <- !app_assoc).
  rewrite IH by done. rewrite <- !app_assoc. by rewrite fmap_cons, cons_middle, app_assoc.
Qed.

Lemma forms_before_length items rest :
  forms_before items rest → length items ≤ length (joined items).
Proof.
  induction items as [|[ws form] items IH]; intros Hitems; [done|].
  destruct Hitems as (_ & Hform & Hitems). specialize (IH Hitems).
  assert (0 < length form).
  { destruct Hform as [He|[(Hne & _) _]].
    - destruct (expression_head _ He) as [r ->]. simpl. lia.
    - destruct form; [done|simpl; lia]. }
  simpl. rewrite !length_app. lia.
Qed.

(** X10: when the scanner fails on a parenthesis of the body (it is never
    closed), the forms before it are returned and the rest of the body
    from that parenthesis on, trimmed, is the last form. *)
Theorem split_top_level_forms_unbalanced (items : list (str * str)) (ws u : str)
    (err : ValueError) :
  forms_before items (ws ++ u) →
  whitespace ws →
  head u = Some LPAREN →
  find_top_level_expression u 0 = inl err →
  split_top_level_forms (joined items ++ ws ++ u) = items.*2 ++ [strip u].
Proof.
  intros Hitems Hws Hhead Herr. unfold split_top_level_forms.
  destruct u as [|c u]; [done|]. simpl in Hhead. simplify_eq.
  assert (split_loop (length items + 1) (joined items ++ ws ++ LPAREN :: u) 0 []
          = Some (items.*2 ++ [strip (LPAREN :: u)])) as H.
  { pose proof (split_loop_before items 1 [] (ws ++ LPAREN :: u) [] Hitems) as H.
    cbn [app length] in H. rewrite H. clear H.
    set (a := joined items).
    cbn [split_loop]. rewrite decide_True by (rewrite !length_app; simpl; lia).
    rewrite drop_app_length.
    rewrite (skip_space_app ws (LPAREN :: u)) by done.
    rewrite decide_False by (rewrite !length_app; simpl; lia).
    assert (a ++ ws ++ LPAREN :: u = (a ++ ws) ++ LPAREN :: u) as ->
      by by rewrite <- app_assoc.
    rewrite <- length_app.
    rewrite decide_True
      by (rewrite lookup_app_r by lia; by rewrite Nat.sub_diag).
    unfold find_top_level_expression_in_body.
    rewrite <- (Nat.add_0_r (length (a ++ ws))) at 1.
    rewrite find_top_level_expression_shift, Herr. simpl.
    by rewrite drop_app_length. }
  apply (split_loop_fuel _ (S (length (joined items ++ ws ++ LPAREN :: u)))) in H.
  - by rewrite H.
  - apply forms_before_length in Hitems. rewrite !length_app. simpl. lia.
Qed.

Lemma split_top_level_forms_unbalanced_witness :
  split_top_level_forms (py "a (b) (c (d) e  ")
  = [py "a"; py "(b)"; py "(c (d) e"].
Proof.
  apply (split_top_level_forms_unbalanced
           [([], py "a"); (py " ", py "(b)")] (py " ") (py "(c (d) e  ")
           (Unmatched_open 0)).
  - repeat split; try compute_done.
    + right. repeat split; compute_done.
    + left. by exists (py "b").
  - compute_done.
  - reflexivity.
  - reflexivity.
Defined.

(** ** The extractor's loop, turn by turn *)

Lemma extract_loop_turn fuel content block_type idx results :
  extract_loop (S fuel) content block_type idx results
  = match find content (LPAREN :: block_type) idx with
    | None => Some results
    | Some found =>
        match find_top_level_expression content found with
        | inl _ => extract_loop fuel content block_type (found + 1) results
        | inr (None, _) => None
        | inr (Some expr_string, next_idx) =>
            extract_loop fuel content block_type next_idx
              (results ++ block_entry block_type expr_string)
        end
    end.
Proof.
  cbn [extract_loop]. unfold block_entry.
  repeat (case_match || case_decide); by rewrite ?app_nil_r.
Qed.

(** What holds of every entry holds of every block the extractor returns. *)
Lemma extract_loop_entries (P : block → Prop) block_type :
  (∀ e, Forall P (block_entry block_type e)) →
  ∀ fuel content idx results r,
    extract_loop fuel content block_type idx results = Some r →
    Forall P results → Forall P r.
Proof.
  intros Hentry. induction fuel as [|fuel IH]; intros content idx results r Hr Hres;
    [done|].
  rewrite extract_loop_turn in Hr.
  repeat case_match; simplify_eq; try done.
  - by eapply IH.
  - eapply IH; [done|]. apply Forall_app. auto.
Qed.

Lemma extract_defblocks_entries (P : block → Prop) content block_type :
  (∀ e, Forall P (block_entry block_type e)) →
  Forall P (extract_defblocks content block_type).
Proof.
  intros Hentry.
  eapply (extract_loop_entries P block_type Hentry (S (length content)) content 0 []);
    [|done].
  unfold extract_defblocks. apply extract_from_loop. lia.
Qed.

(** X11: on a document made of balanced blocks of the type looked for,
    each after text in which no such block begins, the extractor returns
    what each block adds, in the order of the document; blocks that stand
    inside one of these blocks are not looked at. *)
Theorem extract_defblocks_in_document_order (block_type : str)
    (items : list (str * str)) (rest : str) :
  LPAREN ∉ block_type →
  Forall (block_item block_type) items →
  find rest (LPAREN :: block_type) 0 = None →
  extract_defblocks (document items rest) block_type
  = concat ((λ it, block_entry block_type it.2) <$> items).
Proof. apply extract_defblocks_document. Qed.

Lemma extract_defblocks_in_document_order_witness :
  extract_defblocks
    (py "x (defsrc a (defsrc q)) (deflayer l 1) (defsrc  b c ) y")
    (py "defsrc")
  = [(None, py "a (defsrc q)"); (None, py "b c")].
Proof.
  apply (extract_defblocks_in_document_order (py "defsrc")
           [(py "x ", py "(defsrc a (defsrc q))");
            (py " (deflayer l 1) ", py "(defsrc  b c )")] (py " y")).
  - compute_done.
  - repeat apply Forall_cons_2; [| |apply Forall_nil_2].
    + split; [reflexivity|]. split; [by exists (py "defsrc a (defsrc q)")|].
      by exists (py " a (defsrc q))").
    + split; [reflexivity|]. split; [by exists (py "defsrc  b c ")|].
      by exists (py "  b c )").
  - reflexivity.
Defined.

(** X12: a document of well-formed layer declarations
    [(deflayer name body)] gives the list of their names and bodies, in the
    order of the document, the whitespace around name and body left out. *)
Theorem extract_defblocks_layer_document (items : list (str * layer_decl))
    (rest : str) :
  Forall (λ it, find it.1 (LPAREN :: py "deflayer") 0 = None
                ∧ well_formed_layer it.2) items →
  find rest (LPAREN :: py "deflayer") 0 = None →
  extract_defblocks (layer_document items rest) (py "deflayer")
  = (λ it, (Some (ld_name it.2), ld_body it.2)) <$> items.
Proof. apply layer_document_blocks. Qed.

Ltac layer_item :=
  split; [reflexivity|];
  unfold well_formed_layer, word, trimmed; simpl;
  repeat split; try compute_done;
  try (intros c Hc; simplify_eq; reflexivity).

Lemma extract_defblocks_layer_document_witness :
  extract_defblocks
    (py "(defsrc a b) (deflayer base  1 (around x y) ) (deflayer nav)")
    (py "deflayer")
  = [(Some (py "base"), py "1 (around x y)"); (Some (py "nav"), [])].
Proof.
  apply (extract_defblocks_layer_document
           [(py "(defsrc a b) ",
             {| ld_ws1 := py " "; ld_name := py "base"; ld_ws2 := py "  ";
                ld_body := py "1 (around x y)"; ld_ws3 := py " " |});
            (py " ",
             {| ld_ws1 := py " "; ld_name := py "nav"; ld_ws2 := [];
                ld_body := []; ld_ws3 := [] |})] []).
  - repeat apply Forall_cons_2; [| |apply Forall_nil_2].
    + layer_item.
      * right. repeat split; try compute_done; intros c Hc; by simplify_eq.
      * by exists (py "deflayer base  1 (around x y) ").
    + layer_item.
      * by left.
      * by exists (py "deflayer nav").
  - reflexivity.
Defined.

(** X13: for a block type other than defsrc and deflayer the extractor
    returns nothing, whatever the document holds. *)
Theorem extract_defblocks_other_type (content block_type : str) :
  block_type ≠ py "defsrc" → block_type ≠ py "deflayer" →
  extract_defblocks content block_type = [].
Proof.
  intros Hsrc Hlayer.
  assert (Forall (λ _, False) (extract_defblocks content block_type)) as H.
  { apply extract_defblocks_entries. intros e. unfold block_entry.
    repeat (case_match || case_decide); try constructor; by destruct_and?. }
  destruct (extract_defblocks content block_type) as [|b l]; [done|].
  by apply Forall_cons in H as [? _].
Qed.

Lemma extract_defblocks_other_type_witness :
  extract_defblocks (py "(defalias a b) (defsrc c)") (py "defalias") = [].
Proof.
  apply (extract_defblocks_other_type (py "(defalias a b) (defsrc c)")
           (py "defalias")); discriminate.
Defined.

(** X14: when the scanner fails on a block (its parenthesis is never
    closed), the extraction goes on one character after the start of the
    block with the results it had: blocks that stand inside the unclosed
    one are still found. *)
Theorem extract_defblocks_unclosed_block content block_type idx results
    found err :
  find content (LPAREN :: block_type) idx = Some found →
  find_top_level_expression content found = inl err →
  extract_from content block_type idx results
  = extract_from content block_type (found + 1) results.
Proof.
  intros Hfind Hscan.
  apply find_Some in Hfind as Hle. destruct Hle as [Hle _].
  pose proof (find_Some_lookup _ _ _ _ _ Hfind) as Hlt.
  apply lookup_lt_Some in Hlt.
  apply (inj Some).
  rewrite <- (extract_from_loop content block_type idx results
                (S (length content - idx))) by lia.
  rewrite extract_loop_turn, Hfind, Hscan.
  apply extract_from_loop. lia.
Qed.

Lemma extract_defblocks_unclosed_block_witness :
  extract_from (py "(defsrc a (defsrc b c)") (py "defsrc") 0 []
  = extract_from (py "(defsrc a (defsrc b c)") (py "defsrc") (0 + 1) [].
Proof.
  apply (extract_defblocks_unclosed_block (py "(defsrc a (defsrc b c)")
           (py "defsrc") 0 [] 0 (Unmatched_open 0)); reflexivity.
Defined.

Example extract_inside_unclosed_block :
  extract_defblocks (py "(defsrc a (defsrc b c)") (py "defsrc")
  = [(None, py "b c")].
Proof. vm_compute. reflexivity. Qed.

(** ** The shape of the extracted blocks *)

Lemma span_token_spec (s : str) :
  s = (span_token s).1 ++ (span_token s).2
  ∧ Forall (λ c, isspace c = false) (span_token s).1
  ∧ starts_space (span_token s).2.
Proof.
  induction s as [|c s (Heq & Hall & Hsp)]; [by repeat split|].
  simpl. destruct (isspace c) eqn:Hc; [by repeat split|].
  destruct (span_token s) as [t r]. simpl in *.
  split; [by f_equal|]. split; [by constructor|done].
Qed.

(** The parts [split_None_1] gives: none; or a word; or a word and a rest
    that is not empty, begins without whitespace and ends the text. *)
Lemma split_None_1_spec (s : str) :
  split_None_1 s = []
  ∨ (∃ tok, split_None_1 s = [tok] ∧ word tok)
  ∨ (∃ tok r pre, split_None_1 s = [tok; r] ∧ word tok ∧ r ≠ []
       ∧ (∀ c, head r = Some c → isspace c = false) ∧ s = pre ++ r).
Proof.
  unfold split_None_1.
  destruct (lstrip_spec s) as (ws & Hws & Heq & Hh).
  destruct (lstrip s) as [|c s1] eqn:E; [by left|]. right.
  pose proof (span_token_spec (c :: s1)) as (Hst & Hall & Hsp).
  destruct (span_token (c :: s1)) as [tok r] eqn:Es. simpl in *.
  assert (word tok) as Hw.
  { split; [|done]. intros ->. simpl in Hst. subst r.
    specialize (Hh c eq_refl). simpl in Hsp. congruence. }
  destruct (lstrip_spec r) as (ws' & Hws' & Heq' & Hh').
  destruct (lstrip r) as [|d r'] eqn:Er.
  - left. by exists tok.
  - right. exists tok, (d :: r'), (ws ++ tok ++ ws').
    split; [done|]. split; [done|]. split; [done|]. split; [done|].
    rewrite Heq, Hst, Heq'. by rewrite <- !app_assoc.
Qed.

Lemma trimmed_nil : trimmed [].
Proof. by split. Qed.

Lemma strip_non_empty (s : str) c :
  head s = Some c → isspace c = false → strip s ≠ [] ∧ trimmed (strip s).
Proof.
  intros Hc Hns. pose proof (strip_head s c Hc Hns) as Hh.
  destruct (strip_spec s) as (_ & _ & _ & _ & _ & Htrim).
  split; [|done]. by destruct (strip s).
Qed.

(** What one expression adds for the type defsrc: nothing, or a body that
    is not empty and is trimmed, under no name. *)
Lemma block_entry_source_shape e :
  Forall (λ b : block, b.1 = None ∧ b.2 ≠ [] ∧ trimmed b.2)
    (block_entry (py "defsrc") e).
Proof.
  unfold block_entry.
  destruct (split_None_1_spec (strip (slice_1_m1 (strip e))))
    as [->|[(tok & -> & _)|(tok & r & pre & -> & _ & Hne & Hh & _)]];
    [constructor..|].
  destruct r as [|c r]; [done|]. specialize (Hh c eq_refl).
  case_decide; [|case_decide; [by destruct_and?|constructor]].
  apply Forall_cons_2; [|constructor].
  simpl. split; [done|]. by apply (strip_non_empty _ c).
Qed.

(** What one expression adds for the type deflayer: nothing, or a name
    that is a word with a body that is trimmed (and may be empty). *)
Lemma block_entry_layer_shape e :
  Forall (λ b : block, (∃ name, b.1 = Some name ∧ word name) ∧ trimmed b.2)
    (block_entry (py "deflayer") e).
Proof.
  unfold block_entry.
  destruct (split_None_1_spec (strip (slice_1_m1 (strip e))))
    as [->|[(tok & -> & _)|(tok & r & pre & -> & _ & Hne & Hh & _)]];
    [constructor..|].
  destruct r as [|c r]; [done|]. specialize (Hh c eq_refl).
  destruct (strip_non_empty (c :: r) c eq_refl Hh) as [Hsne Htrim].
  case_decide; [by destruct_and?|]. case_decide; [|constructor].
  destruct (split_None_1_spec (strip (c :: r)))
    as [->|[(name & -> & Hname)|(name & body & pre' & -> & Hname & Hbne & Hbh & Hsuf)]];
    [constructor|apply Forall_cons_2; [|constructor]..]; simpl.
  - split; [by exists name|apply trimmed_nil].
  - split; [by exists name|]. split; [done|].
    intros d Hd. destruct Htrim as [_ Hl]. apply Hl.
    rewrite Hsuf, last_app. by rewrite Hd.
Qed.

(** X15: the blocks extracted for the type deflayer each carry a layer name
    that is a non-empty run of non-whitespace characters, and a body with no
    whitespace at either end (it may be empty); the blocks extracted for the
    type defsrc carry no name and a body that is not empty and has no
    whitespace at either end. *)
Theorem extract_defblocks_shape (content : str) :
  Forall (λ b : block, (∃ name, b.1 = Some name ∧ word name) ∧ trimmed b.2)
    (extract_defblocks content (py "deflayer"))
  ∧ Forall (λ b : block, b.1 = None ∧ b.2 ≠ [] ∧ trimmed b.2)
      (extract_defblocks content (py "defsrc")).
Proof.
  split; apply extract_defblocks_entries.
  - apply block_entry_layer_shape.
  - apply block_entry_source_shape.
Qed.

(** ** The layer table *)

Lemma layer_dict_fold_lookup (blocks : list block) name :
  ∀ layer_dict : gmap str (list str),
    foldl layer_dict_set layer_dict blocks !! name
    = match last (filter (λ b : block, b.1 = Some name) blocks) with
      | Some b => Some (split_top_level_forms b.2)
      | None => layer_dict !! name
      end.
Proof.
  induction blocks as [|[[n|] body] blocks IH]; intros layer_dict; [done|..];
    cbn [foldl]; rewrite IH, filter_cons; simpl.
  - destruct (decide (Some n = Some name)) as [[= ->]|Hne].
    + rewrite last_cons.
      destruct (last (filter (λ b : block, b.1 = Some name) blocks)); [done|].
      apply lookup_insert_eq.
    + destruct (last (filter (λ b : block, b.1 = Some name) blocks)); [done|].
      apply lookup_insert_ne. congruence.
  - done.
Qed.

(** X16: the layer table holds a name exactly when a layer block of that
    name was extracted, and what it holds for the name are the forms of the
    body of one of the extracted blocks of that name. *)
Theorem parse_kmonad_config_layer_names (content : str) (name : str) :
  (is_Some ((parse_kmonad_config content).2 !! name)
   ↔ Some name
     ∈ (extract_defblocks (strip_comments content) (py "deflayer")).*1)
  ∧ ∀ forms, (parse_kmonad_config content).2 !! name = Some forms →
      ∃ body, (Some name, body)
              ∈ extract_defblocks (strip_comments content) (py "deflayer")
              ∧ forms = split_top_level_forms body.
Proof.
  unfold parse_kmonad_config. cbn [snd]. unfold layer_dict_of.
  set (blocks := extract_defblocks (strip_comments content) (py "deflayer")).
  rewrite layer_dict_fold_lookup, lookup_empty.
  destruct (last (filter (λ b : block, b.1 = Some name) blocks)) as [[n body]|] eqn:E.
  - apply last_Some_elem_of, list_elem_of_filter in E as [Hn Hin].
    simpl in Hn. subst n. split.
    + split; [|by eexists]. intros _. apply list_elem_of_fmap.
      by exists (Some name, body).
    + intros forms [= <-]. by exists body.
  - apply last_None in E. split; [|done]. split; [by intros [? ?]|].
    intros Hin. apply list_elem_of_fmap in Hin as ([n body] & Hn & Hin).
    simpl in Hn. subst n.
    assert ((Some name, body) ∈ filter (λ b : block, b.1 = Some name) blocks) as Hf
      by by apply list_elem_of_filter.
    rewrite E in Hf. by apply elem_of_nil in Hf.
Qed.

(** ** Line comments *)

Lemma sub_line_comments_outside c d r :
  sub_line_comments false (c :: d :: r)
  = if decide (c = SEMI ∧ d = SEMI) then sub_line_comments true r
    else c :: sub_line_comments false (d :: r).
Proof. done. Qed.

Lemma has_line_marker_cons c d r :
  has_line_marker (c :: d :: r)
  = bool_decide (c = SEMI ∧ d = SEMI) || has_line_marker (d :: r).
Proof. done. Qed.

Lemma newlines_cons c s :
  newlines (c :: s) = (if decide (c = NEWLINE) then 1 else 0) + newlines s.
Proof. unfold newlines. rewrite filter_cons. by case_decide. Qed.

(** What is left of a comment begins with the newline that ended it, and
    what is left outside a comment holds no marker. *)
Lemma sub_line_comments_no_marker (s : str) :
  has_line_marker (sub_line_comments false s) = false
  ∧ has_line_marker (sub_line_comments true s) = false
  ∧ head (sub_line_comments true s) ≠ Some SEMI.
Proof.
  induction s as [|c s (IHf & IHt & IHh)]; [done|].
  assert (Hskip : ∀ x r, x ≠ NEWLINE →
            sub_line_comments true (x :: r) = sub_line_comments true r).
  { intros x r Hx. cbn [sub_line_comments]. by rewrite decide_False. }
  split; [|split].
  - destruct s as [|d r]; [done|]. rewrite sub_line_comments_outside.
    case_decide as Hm.
    + destruct Hm as [-> ->]. by rewrite Hskip in IHt.
    + destruct (sub_line_comments false (d :: r)) as [|x l] eqn:E; [done|].
      rewrite has_line_marker_cons, IHf, orb_false_r.
      apply bool_decide_eq_false. intros [-> ->]. apply Hm. split; [done|].
      destruct r as [|y r]; [by simplify_eq/=|].
      rewrite sub_line_comments_outside in E. case_decide as Hm'; [|by simplify_eq].
      destruct Hm' as [-> ->]. rewrite !Hskip in IHh by done.
      rewrite E in IHh. by destruct IHh.
  - cbn [sub_line_comments]. case_decide as Hn; [|done]. subst c.
    destruct (sub_line_comments false s) as [|x l] eqn:E; [done|].
    rewrite has_line_marker_cons, IHf, orb_false_r.
    apply bool_decide_eq_false. by intros [? _].
  - cbn [sub_line_comments]. case_decide as Hn; [|done]. subst c.
    simpl. by intros [= ?].
Qed.

Lemma sub_line_comments_newlines (s : str) :
  newlines (sub_line_comments false s) = newlines s
  ∧ newlines (sub_line_comments true s) = newlines s.
Proof.
  induction s as [|c s (IHf & IHt)]; [done|]. split.
  - destruct s as [|d r]; [done|]. rewrite sub_line_comments_outside.
    case_decide as Hm.
    + destruct Hm as [-> ->]. rewrite !newlines_cons.
      rewrite !decide_False by done. cbn [sub_line_comments] in IHt.
      rewrite decide_False in IHt by done. rewrite IHt, newlines_cons.
      by rewrite decide_False.
    + by rewrite !newlines_cons, IHf, newlines_cons.
  - cbn [sub_line_comments]. case_decide as Hn.
    + by rewrite !newlines_cons, IHf.
    + rewrite IHt, newlines_cons. by rewrite decide_False.
Qed.

(** X17: after comment removal no line-comment marker is left in the
    document, and the removal of line comments keeps every newline: the
    lines of the text stay apart as they were. *)
Theorem strip_comments_line_comments (content : str) :
  has_line_marker (strip_comments content) = false
  ∧ newlines (sub_line_comments false content) = newlines content.
Proof.
  split.
  - apply sub_line_comments_no_marker.
  - apply sub_line_comments_newlines.
Qed.

Lemma sub_line_comments_none (s : str) :
  has_line_marker s = false → sub_line_comments false s = s.
Proof.
  induction s as [|c s IH]; [done|]. destruct s as [|d r]; [done|].
  rewrite has_line_marker_cons, sub_line_comments_outside.
  intros [Hm Hr]%orb_false_elim. apply bool_decide_eq_false in Hm.
  rewrite decide_False by done. by rewrite IH.
Qed.

Lemma sub_line_comments_inside comment rest :
  NEWLINE ∉ comment →
  sub_line_comments true (comment ++ NEWLINE :: rest)
  = NEWLINE :: sub_line_comments false rest.
Proof.
  induction comment as [|c comment IH]; intros Hn.
  - cbn [app sub_line_comments]. by rewrite decide_True.
  - apply not_elem_of_cons in Hn as [Hc Hn].
    cbn [app sub_line_comments]. rewrite decide_False by done. by apply IH.
Qed.

Lemma sub_line_comments_inside_end comment :
  NEWLINE ∉ comment → sub_line_comments true comment = [].
Proof.
  induction comment as [|c comment IH]; intros Hn; [done|].
  apply not_elem_of_cons in Hn as [Hc Hn].
  cbn [sub_line_comments]. rewrite decide_False by done. by apply IH.
Qed.

Lemma sub_line_comments_before pre rest :
  has_line_marker (pre ++ [SEMI]) = false →
  sub_line_comments false (pre ++ SEMI :: SEMI :: rest)
  = pre ++ sub_line_comments true rest.
Proof.
  induction pre as [|c pre IH]; intros Hpre.
  - cbn [app]. rewrite sub_line_comments_outside. by rewrite decide_True.
  - cbn [app] in *.
    destruct (pre ++ SEMI :: SEMI :: rest) as [|d r] eqn:E; [by destruct pre|].
    rewrite sub_line_comments_outside.
    destruct (pre ++ [SEMI]) as [|d' r'] eqn:E'; [by destruct pre|].
    rewrite has_line_marker_cons in Hpre.
    apply orb_false_elim in Hpre as [Hm Hr]. apply bool_decide_eq_false in Hm.
    assert (d' = d) as ->.
    { destruct pre; simpl in *; by simplify_eq. }
    rewrite decide_False by done. by rewrite IH.
Qed.

(** X18: a line comment runs from its marker to the end of its line: the
    text before the marker stays, the comment goes, and the newline and the
    lines after it are treated in turn; a comment on the last line runs to
    the end of the text. *)
Theorem sub_line_comments_line (pre comment rest : str) :
  has_line_marker (pre ++ [SEMI]) = false →
  NEWLINE ∉ comment →
  sub_line_comments false (pre ++ [SEMI; SEMI] ++ comment ++ NEWLINE :: rest)
  = pre ++ NEWLINE :: sub_line_comments false rest
  ∧ sub_line_comments false (pre ++ [SEMI; SEMI] ++ comment) = pre.
Proof.
  intros Hpre Hn. cbn [app]. split.
  - by rewrite sub_line_comments_before, sub_line_comments_inside.
  - by rewrite sub_line_comments_before, sub_line_comments_inside_end, app_nil_r.
Qed.

Lemma sub_line_comments_line_witness :
  sub_line_comments false
    (py "a ; b " ++ [SEMI; SEMI] ++ py " c ;; d" ++ NEWLINE :: py "e ;; f")
  = py "a ; b " ++ NEWLINE :: sub_line_comments false (py "e ;; f")
  ∧ sub_line_comments false (py "a ; b " ++ [SEMI; SEMI] ++ py " c ;; d")
    = py "a ; b ".
Proof.
  apply (sub_line_comments_line (py "a ; b ") (py " c ;; d") (py "e ;; f")).
  - reflexivity.
  - compute_done.
Defined.

(** ** Texts without comments *)

Lemma has_block_comment_cons c d r :
  has_block_comment (c :: d :: r)
  = bool_decide (c = HASH ∧ d = BAR) && has_end r || has_block_comment (d :: r).
Proof. done. Qed.

Lemma sub_block_comments_no_comment (s : str) :
  has_block_comment s = false → sub_block_comments false s = s.
Proof.
  induction s as [|c s IH]; [done|]. destruct s as [|d r]; [done|].
  rewrite has_block_comment_cons, sub_block_comments_outside.
  intros [-> Hr]%orb_false_elim. by rewrite IH.
Qed.

Lemma sub_block_comments_length (s : str) : ∀ in_comment,
  length (sub_block_comments in_comment s) ≤ length s.
Proof.
  induction s as [s IH] using (induction_ltof1 _ length). unfold ltof in IH.
  intros in_comment. destruct s as [|c [|d r]]; [done|destruct in_comment; simpl; lia|].
  destruct in_comment.
  - rewrite sub_block_comments_skip. case_decide.
    + specialize (IH r ltac:(simpl; lia) false). simpl. lia.
    + specialize (IH (d :: r) ltac:(simpl; lia) true). simpl in *. lia.
  - rewrite sub_block_comments_outside.
    destruct (bool_decide (c = HASH ∧ d = BAR) && has_end r).
    + specialize (IH r ltac:(simpl; lia) true). simpl. lia.
    + specialize (IH (d :: r) ltac:(simpl; lia) false). simpl in *. lia.
Qed.

(** A text that holds a block comment gets shorter. *)
Lemma sub_block_comments_shorter (s : str) :
  has_block_comment s = true →
  length (sub_block_comments false s) < length s.
Proof.
  induction s as [|c s IH]; [done|]. destruct s as [|d r]; [done|].
  rewrite has_block_comment_cons, sub_block_comments_outside.
  destruct (bool_decide (c = HASH ∧ d = BAR) && has_end r).
  - intros _. pose proof (sub_block_comments_length r true). simpl. lia.
  - cbn [orb]. intros Hr. specialize (IH Hr). simpl in *. lia.
Qed.

Lemma sub_line_comments_length (s : str) : ∀ in_comment,
  length (sub_line_comments in_comment s) ≤ length s.
Proof.
  induction s as [s IH] using (induction_ltof1 _ length). unfold ltof in IH.
  intros in_comment. destruct s as [|c r]; [done|]. destruct in_comment.
  - cbn [sub_line_comments]. case_decide.
    + specialize (IH r ltac:(simpl; lia) false). simpl. lia.
    + specialize (IH r ltac:(simpl; lia) true). simpl. lia.
  - destruct r as [|d r]; [done|]. rewrite sub_line_comments_outside. case_decide.
    + specialize (IH r ltac:(simpl; lia) true). simpl. lia.
    + specialize (IH (d :: r) ltac:(simpl; lia) false). simpl in *. lia.
Qed.

Lemma strip_comments_unchanged (content : str) :
  strip_comments content = content
  ↔ has_block_comment content = false ∧ has_line_marker content = false.
Proof.
  unfold strip_comments. split.
  - intros Heq.
    destruct (has_block_comment content) eqn:Hblock.
    { apply sub_block_comments_shorter in Hblock.
      pose proof (sub_line_comments_length (sub_block_comments false content) false).
      apply (f_equal length) in Heq. lia. }
    split; [done|]. rewrite sub_block_comments_no_comment in Heq by done.
    rewrite <- Heq. apply sub_line_comments_no_marker.
  - intros [Hblock Hline].
    by rewrite sub_block_comments_no_comment, sub_line_comments_none.
Qed.

(** X19: comment removal leaves a text as it is exactly when the text holds
    no block comment, that is no start marker with an end marker somewhere
    after it, and no line-comment marker; a start marker alone, an end
    marker alone, and an end marker that stands before the start marker
    make no comment. *)
Theorem strip_comments_no_comment (content : str) :
  strip_comments content = content
  ↔ has_block_comment content = false ∧ has_line_marker content = false.
Proof. apply strip_comments_unchanged. Qed.

Lemma strip_comments_no_comment_witness :
  strip_comments (py "(defsrc a ; |# b) #| c") = py "(defsrc a ; |# b) #| c"
  ∧ strip_comments (py "#|#") = py "#|#"
  ∧ strip_comments (py "a #||# b") ≠ py "a #||# b".
Proof.
  split; [|split].
  - by apply (strip_comments_no_comment (py "(defsrc a ; |# b) #| c")).
  - by apply (strip_comments_no_comment (py "#|#")).
  - intros H. by apply (strip_comments_no_comment (py "a #||# b")) in H as [? _].
Defined.

(** ** Declarations in document order *)

(** X20: in a document of well-formed layer declarations, the layer table
    maps a layer name to the forms of the body of the last declaration of
    that name in the document. *)
Theorem parse_kmonad_config_last_layer_declaration content
    (items : list (str * layer_decl)) rest i filler d :
  strip_comments content = layer_document items rest →
  Forall (λ it, find it.1 (LPAREN :: py "deflayer") 0 = None
                ∧ well_formed_layer it.2) items →
  find rest (LPAREN :: py "deflayer") 0 = None →
  items !! i = Some (filler, d) →
  (∀ j it, i < j → items !! j = Some it → ld_name it.2 ≠ ld_name d) →
  (parse_kmonad_config content).2 !! ld_name d
  = Some (split_top_level_forms (ld_body d)).
Proof. apply layer_document_last_wins. Qed.

Lemma parse_kmonad_config_last_layer_declaration_witness :
  (parse_kmonad_config (py "(deflayer l 1 2) (deflayer m 3) (deflayer l 4)")).2
    !! py "l"
  = Some [py "4"].
Proof.
  apply (parse_kmonad_config_last_layer_declaration
           (py "(deflayer l 1 2) (deflayer m 3) (deflayer l 4)")
           [([], {| ld_ws1 := py " "; ld_name := py "l"; ld_ws2 := py " ";
                    ld_body := py "1 2"; ld_ws3 := [] |});
            (py " ", {| ld_ws1 := py " "; ld_name := py "m"; ld_ws2 := py " ";
                        ld_body := py "3"; ld_ws3 := [] |});
            (py " ", {| ld_ws1 := py " "; ld_name := py "l"; ld_ws2 := py " ";
                        ld_body := py "4"; ld_ws3 := [] |})] [] 2 (py " ")
           {| ld_ws1 := py " "; ld_name := py "l"; ld_ws2 := py " ";
              ld_body := py "4"; ld_ws3 := [] |}).
  - reflexivity.
  - repeat apply Forall_cons_2; [| | |apply Forall_nil_2]; layer_item.
    + right. repeat split; try compute_done; intros c Hc; by simplify_eq.
    + by exists (py "deflayer l 1 2").
    + right. repeat split; try compute_done; intros c Hc; by simplify_eq.
    + by exists (py "deflayer m 3").
    + right. repeat split; try compute_done; intros c Hc; by simplify_eq.
    + by exists (py "deflayer l 4").
  - reflexivity.
  - reflexivity.
  - intros [|[|[|j]]] it Hj Hit; (lia || discriminate Hit).
Defined.

(** X21: in a document of well-formed source declarations, the first
    declaration that has a body gives the source sequence: declarations
    without a body that stand before it are passed over, and declarations
    after it are not used. *)
Theorem parse_kmonad_config_first_source_declaration content skipped filler d
    others rest :
  strip_comments content
  = source_document (skipped ++ (filler, d) :: others) rest →
  Forall (λ it, find it.1 (LPAREN :: py "defsrc") 0 = None
                ∧ well_formed_source it.2) (skipped ++ (filler, d) :: others) →
  find rest (LPAREN :: py "defsrc") 0 = None →
  Forall (λ it, sd_body it.2 = []) skipped →
  sd_body d ≠ [] →
  (parse_kmonad_config content).1 = split_top_level_forms (sd_body d).
Proof. apply source_document_first. Qed.

Lemma parse_kmonad_config_first_source_declaration_witness :
  (parse_kmonad_config (py "(defsrc ) (defsrc a (b c)) (defsrc d)")).1
  = [py "a"; py "(b c)"].
Proof.
  apply (parse_kmonad_config_first_source_declaration _
           [([], {| sd_ws1 := py " "; sd_body := []; sd_ws2 := [] |})]
           (py " ") {| sd_ws1 := py " "; sd_body := py "a (b c)"; sd_ws2 := [] |}
           [(py " ", {| sd_ws1 := py " "; sd_body := py "d"; sd_ws2 := [] |})] []).
  - reflexivity.
  - repeat (apply Forall_cons_2 || apply Forall_nil_2);
      (split; [reflexivity|]); unfold well_formed_source, trimmed; simpl;
      (split; [by repeat constructor|]); (split; [by repeat constructor|]);
      (split; [first [by left | right; repeat split; try done;
                       intros c Hc; by simplify_eq]|]).
    + by exists (py "defsrc ").
    + by exists (py "defsrc a (b c)").
    + by exists (py "defsrc d").
  - reflexivity.
  - by repeat constructor.
  - done.
Defined.

(** ** Labels *)

Lemma lstrip_app (s t : str) :
  lstrip (s ++ t) = match lstrip s with [] => lstrip t | _ :: _ => lstrip s ++ t end.
Proof.
  induction s as [|c s IH]; [done|].
  simpl. by destruct (isspace c).
Qed.

Lemma lstrip_all_whitespace ws : whitespace ws → lstrip ws = [].
Proof.
  intros Hws. pose proof (lstrip_whitespace ws [] Hws) as H.
  by rewrite app_nil_r in H.
Qed.

Lemma strip_whitespace_around (ws1 s ws2 : str) :
  whitespace ws1 → whitespace ws2 → strip (ws1 ++ s ++ ws2) = strip s.
Proof.
  intros Hws1 Hws2. unfold strip. rewrite lstrip_whitespace by done.
  rewrite lstrip_app. destruct (lstrip s) as [|c r] eqn:E.
  - by rewrite lstrip_all_whitespace.
  - by rewrite rstrip_whitespace.
Qed.

(** X22: whitespace around a text makes no difference to its label: the
    text is looked up, and passed through when it has no entry, without
    the whitespace at its ends. *)
Theorem get_short_label_whitespace (ws1 original ws2 : str)
    (mapping : gmap str str) :
  whitespace ws1 → whitespace ws2 →
  get_short_label (ws1 ++ original ++ ws2) mapping
  = get_short_label original mapping
  ∧ (mapping !! strip original = None →
     get_short_label (ws1 ++ original ++ ws2) mapping = strip original).
Proof.
  intros Hws1 Hws2. unfold get_short_label.
  rewrite strip_whitespace_around by done. split; [done|].
  by intros ->.
Qed.

Lemma get_short_label_whitespace_witness :
  get_short_label (py "  " ++ py "tap a" ++ py " ") {[ py "tap a" := py "T" ]}
  = get_short_label (py "tap a") {[ py "tap a" := py "T" ]}
  ∧ (({[ py "tap a" := py "T" ]} : gmap str str) !! strip (py "tap a") = None →
     get_short_label (py "  " ++ py "tap a" ++ py " ") {[ py "tap a" := py "T" ]}
     = strip (py "tap a")).
Proof.
  apply (get_short_label_whitespace (py "  ") (py "tap a") (py " ")); compute_done.
Defined.

(** X23: a form returned by the splitter is looked up in the label map by
    its exact text, and is its own label when it has no entry: trimming
    changes no form. *)
Theorem get_short_label_form (body form : str) (mapping : gmap str str) :
  form ∈ split_top_level_forms body →
  get_short_label form mapping = default form (mapping !! form).
Proof.
  intros Hin.
  destruct (split_loop_result _ _ _ _ _ (split_top_level_forms_total body))
    as (new & Heq & Hnew & _).
  simpl in Heq. rewrite <- Heq in Hnew. rewrite Forall_forall in Hnew.
  destruct (Hnew form Hin) as (_ & Htrim & _).
  unfold get_short_label. by rewrite strip_trimmed.
Qed.

Lemma get_short_label_form_witness :
  get_short_label (py "(tap b)") {[ py "(tap b)" := py "TB" ]}
  = default (py "(tap b)")
      (({[ py "(tap b)" := py "TB" ]} : gmap str str) !! py "(tap b)").
Proof.
  apply (get_short_label_form (py "a (tap b) c")). compute_done.
Defined.

(** ** The cells of the aligner *)

Lemma generate_cells (defsrc_list : list str) (layer_dict : gmap str (list str))
    (expr_map : gmap str str) :
  ∃ cells,
    generate_single_grid_image defsrc_list layer_dict expr_map = Some cells
    ∧ Forall2 (cell_of defsrc_list layer_dict expr_map) PHYSICAL_KEY_MAP cells.
Proof.
  unfold generate_single_grid_image. generalize PHYSICAL_KEY_MAP as keys.
  induction keys as [|[k p] keys (cells & Hcells & Hall)].
  - exists []. split; [done|constructor].
  - cbn [mapM]. rewrite Hcells. unfold cell_of at 1.
    destruct (defsrc_index_for_key defsrc_list !! k) as [i|] eqn:Hk.
    + destruct (cell_lines_spec layer_dict expr_map i (sorted_layer_names layer_dict))
        as (lines & Hlines & _).
      { intros ln. apply sorted_layer_names_elem_of. }
      rewrite Hlines. simpl. eexists. split; [done|]. constructor; [|done].
      unfold cell_of. simpl. rewrite Hk. by exists lines.
    + simpl. eexists. split; [done|]. constructor; [|done].
      unfold cell_of. simpl. by rewrite Hk.
Qed.


(** ** The index of a key *)

Lemma last_occurrence (l : list str) k :
  k ∈ l → ∃ i, l !! i = Some k ∧ ∀ j, l !! j = Some k → j ≤ i.
Proof.
  induction l as [|x l IH]; intros Hin; [by apply elem_of_nil in Hin|].
  destruct (decide (k ∈ l)) as [Hl|Hl].
  - destruct (IH Hl) as (i & Hi & Hlast). exists (S i). split; [done|].
    intros [|j] Hj; [lia|]. specialize (Hlast j Hj). lia.
  - apply elem_of_cons in Hin as [->|?]; [|done]. exists 0. split; [done|].
    intros [|j] Hj; [lia|]. destruct Hl. by eapply list_elem_of_lookup_2.
Qed.

Lemma index_loop_Some l keyname : ∀ i0 (d : gmap str nat) j,
  index_loop l i0 d !! keyname = Some j →
  d !! keyname = Some j
  ∨ ∃ i, j = i0 + i ∧ l !! i = Some keyname ∧ in_physical keyname = true.
Proof.
  induction l as [|x l IH]; intros i0 d j Hj; [by left|].
  cbn [index_loop] in Hj. apply IH in Hj as [Hd|(i & -> & Hi & Hp)].
  - destruct (in_physical x) eqn:Hx; [|by left].
    destruct (decide (x = keyname)) as [->|Hne].
    + rewrite lookup_insert_eq in Hd. simplify_eq. right. exists 0.
      split; [lia|done].
    + rewrite lookup_insert_ne in Hd by done. by left.
  - right. exists (S i). split; [lia|done].
Qed.

(** A key has an index exactly when it is a physical key that stands in
    the source sequence, and the index is one of its places there. *)
Lemma defsrc_index_for_key_spec (defsrc_list : list str) keyname :
  (is_Some (defsrc_index_for_key defsrc_list !! keyname)
   ↔ keyname ∈ defsrc_list ∧ in_physical keyname = true)
  ∧ ∀ i, defsrc_index_for_key defsrc_list !! keyname = Some i →
      defsrc_list !! i = Some keyname.
Proof.
  assert (∀ i, defsrc_index_for_key defsrc_list !! keyname = Some i →
               defsrc_list !! i = Some keyname ∧ in_physical keyname = true) as Hsome.
  { intros i Hi. apply index_loop_Some in Hi as [Hd|(i' & -> & Hi' & Hp)];
      [by rewrite lookup_empty in Hd|done]. }
  split; [|by intros i [? _]%Hsome]. split.
  - intros [i Hi]. destruct (Hsome i Hi) as [Hl Hp]. split; [|done].
    by eapply list_elem_of_lookup_2.
  - intros [Hin Hp]. destruct (last_occurrence _ _ Hin) as (i & Hi & Hlast).
    exists i. by apply defsrc_index_for_key_last.
Qed.

(** X25: a key of the physical layout is drawn as not in defsrc exactly
    when its name does not stand in the source sequence, and with layer
    lines exactly when it does; entries of the source sequence that are not
    keys of the physical layout get no cell. *)
Theorem generate_single_grid_image_declared (defsrc_list : list str)
    (layer_dict : gmap str (list str)) (expr_map : gmap str str)
    (cells : list key_cell) (keyname : str) (pos : nat * nat) :
  generate_single_grid_image defsrc_list layer_dict expr_map = Some cells →
  (Not_in_defsrc keyname pos ∈ cells
   ↔ (keyname, pos) ∈ PHYSICAL_KEY_MAP ∧ keyname ∉ defsrc_list)
  ∧ ((∃ lines, In_defsrc keyname pos lines ∈ cells)
     ↔ (keyname, pos) ∈ PHYSICAL_KEY_MAP ∧ keyname ∈ defsrc_list).
Proof.
  intros Hgen.
  destruct (generate_cells defsrc_list layer_dict expr_map) as (cells' & Hcells & Hall).
  simplify_eq.
  destruct (defsrc_index_for_key_spec defsrc_list keyname) as [Hidx _].
  assert (∀ cell, cell ∈ cells ↔
            ∃ key, key ∈ PHYSICAL_KEY_MAP
                   ∧ cell_of defsrc_list layer_dict expr_map key cell) as Hcell.
  { intros cell. split.
    - intros [n Hn]%list_elem_of_lookup.
      destruct (Forall2_lookup_r _ _ _ _ _ Hall Hn) as (key & Hkey & Hof).
      exists key. split; [by eapply list_elem_of_lookup_2|done].
    - intros (key & [n Hn]%list_elem_of_lookup & Hof).
      destruct (Forall2_lookup_l _ _ _ _ _ Hall Hn) as (cell' & Hc & Hof').
      assert (cell' = cell) as <-.
      { unfold cell_of in *.
        destruct (defsrc_index_for_key defsrc_list !! key.1).
        - destruct Hof as (l1 & -> & H1), Hof' as (l2 & -> & H2). congruence.
        - congruence. }
      by eapply list_elem_of_lookup_2. }
  split.
  - rewrite Hcell. split.
    + intros ([k p] & Hkey & Hof). unfold cell_of in Hof. simpl in Hof.
      destruct (defsrc_index_for_key defsrc_list !! k) as [i|] eqn:Hk.
      { by destruct Hof as (? & ? & _). }
      injection Hof as Hk' Hp'. subst k p. split; [done|]. intros Hin.
      assert (is_Some (defsrc_index_for_key defsrc_list !! keyname)) as [? ?].
      { apply Hidx. split; [done|]. by eapply in_physical_elem_of. }
      congruence.
    + intros [Hkey Hnot]. exists (keyname, pos). split; [done|].
      unfold cell_of. simpl.
      destruct (defsrc_index_for_key defsrc_list !! keyname) as [i|] eqn:Hk; [|done].
      destruct Hnot. apply Hidx. by eexists.
  - split.
    + intros (lines & ([k p] & Hkey & Hof)%Hcell). unfold cell_of in Hof. simpl in Hof.
      destruct (defsrc_index_for_key defsrc_list !! k) as [i|] eqn:Hk; [|done].
      destruct Hof as (? & Hof & _). injection Hof as Hk' Hp' _. subst k p.
      split; [done|]. apply Hidx. by eexists.
    + intros [Hkey Hin].
      assert (is_Some (defsrc_index_for_key defsrc_list !! keyname)) as [i Hi].
      { apply Hidx. split; [done|]. by eapply in_physical_elem_of. }
      destruct (cell_lines_spec layer_dict expr_map i (sorted_layer_names layer_dict))
        as (lines & Hlines & _).
      { intros ln. apply sorted_layer_names_elem_of. }
      exists lines. apply Hcell. exists (keyname, pos). split; [done|].
      unfold cell_of. simpl. rewrite Hi. by exists lines.
Qed.

Lemma generate_single_grid_image_declared_witness :
  ∃ cells,
    generate_single_grid_image [py "a"; py "nokey"] ∅ ∅ = Some cells
    ∧ (Not_in_defsrc (py "esc") (0, 0) ∈ cells
       ↔ (py "esc", (0, 0)) ∈ PHYSICAL_KEY_MAP ∧ py "esc" ∉ [py "a"; py "nokey"])
    ∧ ((∃ lines, In_defsrc (py "esc") (0, 0) lines ∈ cells)
       ↔ (py "esc", (0, 0)) ∈ PHYSICAL_KEY_MAP ∧ py "esc" ∈ [py "a"; py "nokey"]).
Proof.
  eexists. split; [vm_compute; reflexivity|].
  apply (generate_single_grid_image_declared [py "a"; py "nokey"] ∅ ∅).
  vm_compute. reflexivity.
Defined.

(** ** The order of the layer lines *)

Lemma str_leb_total (a : str) : ∀ b : str, str_leb a b = true ∨ str_leb b a = true.
Proof.
  induction a as [|x a IH]; intros [|y b]; simpl; auto.
  destruct (N.ltb_spec x y), (N.ltb_spec y x); auto.
Qed.

Lemma str_leb_trans (a : str) : ∀ b c : str,
  str_leb a b = true → str_leb b c = true → str_leb a c = true.
Proof.
  induction a as [|x a IH]; intros [|y b] [|z c]; simpl; try done.
  destruct (N.ltb_spec x y), (N.ltb_spec y x), (N.ltb_spec y z),
    (N.ltb_spec z y), (N.ltb_spec x z), (N.ltb_spec z x);
    try done; try lia.
  apply IH.
Qed.

#[local] Instance str_le_total : Total str_le.
Proof. intros a b. unfold str_le. destruct (str_leb_total a b) as [->| ->]; auto. Qed.

#[local] Instance str_le_trans : Transitive str_le.
Proof.
  intros a b c. unfold str_le. intros Hab Hbc.
  apply Is_true_true. eapply str_leb_trans; by apply Is_true_true.
Qed.

Lemma cells_In_defsrc (defsrc_list : list str) (layer_dict : gmap str (list str))
    (expr_map : gmap str str) (cells : list key_cell) (keyname : str)
    (pos : nat * nat) (lines : list (str * str)) :
  generate_single_grid_image defsrc_list layer_dict expr_map = Some cells →
  In_defsrc keyname pos lines ∈ cells →
  (keyname, pos) ∈ PHYSICAL_KEY_MAP
  ∧ ∃ i, defsrc_index_for_key defsrc_list !! keyname = Some i
      ∧ cell_lines layer_dict expr_map (sorted_layer_names layer_dict) i
        = Some lines.
Proof.
  intros Hgen [n Hn]%list_elem_of_lookup.
  destruct (generate_cells defsrc_list layer_dict expr_map) as (cells' & Hcells & Hall).
  simplify_eq.
  destruct (Forall2_lookup_r _ _ _ _ _ Hall Hn) as ([k p] & Hkey & Hof).
  unfold cell_of in Hof. simpl in Hof.
  destruct (defsrc_index_for_key defsrc_list !! k) as [i|] eqn:Hk; [|done].
  destruct Hof as (lines' & Heq & Hlines). injection Heq as Hk' Hp' Hl'. subst k p lines'.
  split; [by eapply list_elem_of_lookup_2|]. by exists i.
Qed.

Lemma cells_layer_names (defsrc_list : list str) (layer_dict : gmap str (list str))
    (expr_map : gmap str str) (cells : list key_cell) (keyname : str)
    (pos : nat * nat) (lines : list (str * str)) :
  generate_single_grid_image defsrc_list layer_dict expr_map = Some cells →
  In_defsrc keyname pos lines ∈ cells →
  lines.*1 = sorted_layer_names layer_dict.
Proof.
  intros Hgen Hin.
  destruct (cells_In_defsrc _ _ _ _ _ _ _ Hgen Hin) as (_ & i & _ & Hlines).
  destruct (cell_lines_spec layer_dict expr_map i (sorted_layer_names layer_dict))
    as (lines' & Hlines' & Hfst & _).
  { intros ln. apply sorted_layer_names_elem_of. }
  congruence.
Qed.

(** X26: the lines of a key that is in defsrc stand in the ascending order
    of the layer names, compared code point by code point, with one line
    for each layer of the table and no layer twice. *)
Theorem generate_single_grid_image_layer_order (defsrc_list : list str)
    (layer_dict : gmap str (list str)) (expr_map : gmap str str)
    (cells : list key_cell) (keyname : str) (pos : nat * nat)
    (lines : list (str * str)) :
  generate_single_grid_image defsrc_list layer_dict expr_map = Some cells →
  In_defsrc keyname pos lines ∈ cells →
  StronglySorted str_le lines.*1
  ∧ NoDup lines.*1
  ∧ ∀ ln, ln ∈ lines.*1 ↔ is_Some (layer_dict !! ln).
Proof.
  intros Hgen Hin. rewrite (cells_layer_names _ _ _ _ _ _ _ Hgen Hin).
  split; [|split].
  - unfold sorted_layer_names. apply StronglySorted_merge_sort; apply _.
  - unfold sorted_layer_names. rewrite merge_sort_Permutation.
    apply NoDup_fst_map_to_list.
  - apply sorted_layer_names_elem_of.
Qed.

Lemma generate_single_grid_image_layer_order_witness :
  let layer_dict : gmap str (list str) :=
    {[ py "nav" := [py "left"]; py "base" := [py "a"]; py "Sym" := [py "!"] ]} in
  let lines := [(py "Sym", py "!"); (py "base", py "a"); (py "nav", py "left")] in
  StronglySorted str_le lines.*1
  ∧ NoDup lines.*1
  ∧ ∀ ln, ln ∈ lines.*1 ↔ is_Some (layer_dict !! ln).
Proof.
  intros layer_dict lines.
  destruct (generate_single_grid_image [py "a"] layer_dict ∅) as [cells|] eqn:Hgen;
    [|by vm_compute in Hgen].
  apply (generate_single_grid_image_layer_order [py "a"] layer_dict ∅ cells
           (py "a") (1, 2) lines Hgen).
  vm_compute in Hgen. injection Hgen as <-. compute_done.
Defined.

(** X27: no line of a cell reads as the placeholder: whatever the layer
    table and the label map hold, the text drawn for a layer is never
    the two letters XX. *)
Theorem generate_single_grid_image_never_placeholder (defsrc_list : list str)
    (layer_dict : gmap str (list str)) (expr_map : gmap str str)
    (cells : list key_cell) (keyname : str) (pos : nat * nat)
    (lines : list (str * str)) (ln txt : str) :
  generate_single_grid_image defsrc_list layer_dict expr_map = Some cells →
  In_defsrc keyname pos lines ∈ cells →
  (ln, txt) ∈ lines →
  txt ≠ py "XX".
Proof.
  intros Hgen Hin Hline.
  destruct (cells_In_defsrc _ _ _ _ _ _ _ Hgen Hin) as (_ & i & _ & Hlines).
  destruct (cell_lines_spec layer_dict expr_map i (sorted_layer_names layer_dict))
    as (lines' & Hlines' & _ & Hspec).
  { intros ln'. apply sorted_layer_names_elem_of. }
  assert (lines' = lines) as -> by congruence.
  destruct (proj1 (Hspec ln txt) Hline) as (_ & layer_keys & _ & Htxt).
  rewrite Htxt. apply display_label_not_placeholder.
Qed.

Lemma generate_single_grid_image_never_placeholder_witness :
  py "mapped" ≠ py "XX".
Proof.
  pose (layer_dict := ({[ py "l" := [py "(a b)"] ]} : gmap str (list str))).
  pose (expr_map := ({[ py "(a b)" := py "mapped" ]} : gmap str str)).
  destruct (generate_single_grid_image [py "a"] layer_dict expr_map)
    as [cells|] eqn:Hgen; [|by vm_compute in Hgen].
  apply (generate_single_grid_image_never_placeholder [py "a"] layer_dict expr_map
           cells (py "a") (1, 2) [(py "l", py "mapped")] (py "l") (py "mapped") Hgen).
  - vm_compute in Hgen. injection Hgen as <-. compute_done.
  - compute_done.
Defined.

(** ** Forms beyond the source sequence *)

Lemma mapM_ext_elem_of {A B} (f g : A → option B) (l : list A) :
  (∀ x, x ∈ l → f x = g x) → mapM f l = mapM g l.
Proof.
  induction l as [|x l IH]; intros Hfg; [done|].
  cbn [mapM]. rewrite (Hfg x) by left.
  rewrite IH; [done|]. intros y Hy. apply Hfg. by right.
Qed.

Lemma layer_assignment_take (layer_keys : list str) (n i : nat) :
  i < n → layer_assignment (take n layer_keys) i = layer_assignment layer_keys i.
Proof.
  intros Hi. unfold layer_assignment. rewrite length_take, lookup_take_lt by done.
  repeat case_decide; try done; lia.
Qed.

Lemma sorted_layer_names_fmap (f : list str → list str)
    (layer_dict : gmap str (list str)) :
  sorted_layer_names (f <$> layer_dict) = sorted_layer_names layer_dict.
Proof.
  unfold sorted_layer_names. rewrite map_to_list_fmap.
  by rewrite <- list_fmap_compose.
Qed.

Lemma truncated_layers (defsrc_list : list str) (layer_dict : gmap str (list str))
    (expr_map : gmap str str) :
  generate_single_grid_image defsrc_list
    (take (length defsrc_list) <$> layer_dict) expr_map
  = generate_single_grid_image defsrc_list layer_dict expr_map.
Proof.
  unfold generate_single_grid_image. rewrite sorted_layer_names_fmap.
  apply mapM_ext_elem_of. intros [k p] _.
  destruct (defsrc_index_for_key defsrc_list !! k) as [i|] eqn:Hk; [|done].
  destruct (defsrc_index_for_key_spec defsrc_list k) as [_ Hidx].
  apply Hidx, lookup_lt_Some in Hk.
  unfold cell_lines. erewrite mapM_ext; [done|]. intros ln. simpl.
  rewrite lookup_fmap. destruct (layer_dict !! ln) as [layer_keys|]; [|done].
  simpl. by rewrite layer_assignment_take.
Qed.

(** X28: the forms of a layer that stand beyond the length of the source
    sequence are never drawn: cutting every layer down to that length
    leaves the cells as they are. *)
Theorem generate_single_grid_image_beyond_defsrc (defsrc_list : list str)
    (layer_dict : gmap str (list str)) (expr_map : gmap str str) :
  generate_single_grid_image defsrc_list
    (take (length defsrc_list) <$> layer_dict) expr_map
  = generate_single_grid_image defsrc_list layer_dict expr_map.
Proof. apply truncated_layers. Qed.

(** ** The geometry of the image *)

Lemma physical_position_bounds keyname cx cy :
  (keyname, (cx, cy)) ∈ PHYSICAL_KEY_MAP → cx < physical_cols ∧ cy < physical_rows.
Proof.
  intros Hkey. unfold physical_cols, physical_rows, max_x, max_y.
  assert (cx ∈ PHYSICAL_KEY_MAP.*2.*1) as Hx.
  { apply list_elem_of_fmap. exists (cx, cy). split; [done|].
    apply list_elem_of_fmap. by exists (keyname, (cx, cy)). }
  assert (cy ∈ PHYSICAL_KEY_MAP.*2.*2) as Hy.
  { apply list_elem_of_fmap. exists (cx, cy). split; [done|].
    apply list_elem_of_fmap. by exists (keyname, (cx, cy)). }
  apply max_list_elem_of_le in Hx, Hy. lia.
Qed.

Lemma physical_positions_NoDup : NoDup PHYSICAL_KEY_MAP.*2.
Proof. compute_done. Qed.

Lemma physical_position_key k1 k2 pos :
  (k1, pos) ∈ PHYSICAL_KEY_MAP → (k2, pos) ∈ PHYSICAL_KEY_MAP → k1 = k2.
Proof.
  intros [i1 H1]%list_elem_of_lookup [i2 H2]%list_elem_of_lookup.
  assert (i1 = i2) as ->.
  { apply (NoDup_lookup PHYSICAL_KEY_MAP.*2 i1 i2 pos physical_positions_NoDup);
      rewrite list_lookup_fmap; [by rewrite H1|by rewrite H2]. }
  congruence.
Qed.

Lemma legend_height_ge n : 50 ≤ legend_height n.
Proof. unfold legend_height. lia. Qed.

Lemma key_rectangles_apart n cx1 cy1 cx2 cy2 :
  (cx1, cy1) ≠ (cx2, cy2) →
  apart (key_rectangle n (cx1, cy1)) (key_rectangle n (cx2, cy2)).
Proof.
  intros Hne. unfold apart, key_rectangle, cell_width, cell_height.
  cbn [x0 y0 x1 y1].
  destruct (decide (cx1 = cx2)) as [->|Hx].
  - assert (cy1 ≠ cy2) by congruence. lia.
  - lia.
Qed.

Lemma frame (n : nat) (k1 k2 : str) (pos1 pos2 : nat * nat) (i j : nat) :
  (k1, pos1) ∈ PHYSICAL_KEY_MAP → (k2, pos2) ∈ PHYSICAL_KEY_MAP →
  i < n → j < n →
  in_image (key_rectangle n pos1) image_width (image_height n)
  ∧ in_image (legend_rectangle i) image_width (legend_height n)
  ∧ legend_height n ≤ y0 (key_rectangle n pos1)
  ∧ (k1 ≠ k2 → apart (key_rectangle n pos1) (key_rectangle n pos2))
  ∧ (i ≠ j → apart (legend_rectangle i) (legend_rectangle j)).
Proof.
  intros H1 H2 Hi Hj. destruct pos1 as [cx1 cy1], pos2 as [cx2 cy2].
  destruct (physical_position_bounds _ _ _ H1) as [Hx1 Hy1].
  split; [|split; [|split; [|split]]].
  - unfold in_image, key_rectangle, image_width, image_height,
      cell_width, cell_height. cbn [x0 y0 x1 y1]. lia.
  - assert (14 ≤ physical_cols) by (by vm_compute).
    unfold in_image, legend_rectangle, image_width, legend_height, cell_width.
    cbn [x0 y0 x1 y1]. pose proof (Nat.mod_upper_bound i 4).
    assert (i / 4 < (n + 3) / 4).
    { apply Nat.Div0.div_lt_upper_bound.
      pose proof (Nat.div_mod_eq (n + 3) 4).
      pose proof (Nat.mod_upper_bound (n + 3) 4). lia. }
    lia.
  - unfold key_rectangle. cbn [y0]. lia.
  - intros Hne. apply key_rectangles_apart. intros [= -> ->].
    destruct Hne. by eapply physical_position_key.
  - intros Hne. unfold apart, legend_rectangle. cbn [x0 y0 x1 y1].
    pose proof (Nat.div_mod_eq i 4). pose proof (Nat.div_mod_eq j 4).
    pose proof (Nat.mod_upper_bound i 4). pose proof (Nat.mod_upper_bound j 4).
    destruct (decide (i / 4 = j / 4)); lia.
Qed.

(** X29: in an image drawn for [n] layers, the rectangle of every key of
    the physical layout lies inside the image and below the legend band,
    the swatch of every layer lies inside the legend band, the rectangles
    of two different keys share no point, and neither do the swatches of
    two different layers. *)
Theorem generate_single_grid_image_frame (n : nat) (k1 k2 : str)
    (pos1 pos2 : nat * nat) (i j : nat) :
  (k1, pos1) ∈ PHYSICAL_KEY_MAP → (k2, pos2) ∈ PHYSICAL_KEY_MAP →
  i < n → j < n →
  in_image (key_rectangle n pos1) image_width (image_height n)
  ∧ in_image (legend_rectangle i) image_width (legend_height n)
  ∧ legend_height n ≤ y0 (key_rectangle n pos1)
  ∧ (k1 ≠ k2 → apart (key_rectangle n pos1) (key_rectangle n pos2))
  ∧ (i ≠ j → apart (legend_rectangle i) (legend_rectangle j)).
Proof. apply frame. Qed.

Lemma generate_single_grid_image_frame_witness :
  in_image (key_rectangle 6 (13, 1)) image_width (image_height 6)
  ∧ in_image (legend_rectangle 5) image_width (legend_height 6)
  ∧ legend_height 6 ≤ y0 (key_rectangle 6 (13, 1))
  ∧ (py "\" ≠ py "]" → apart (key_rectangle 6 (13, 1)) (key_rectangle 6 (12, 1)))
  ∧ (5 ≠ 1 → apart (legend_rectangle 5) (legend_rectangle 1)).
Proof.
  apply (generate_single_grid_image_frame 6 (py "\") (py "]") (13, 1) (12, 1) 5 1);
    [compute_done|compute_done|lia|lia].
Defined.

Lemma line_positions (n cx cy j : nat) :
  (in_rectangle (line_position n (cx, cy) j) (key_rectangle n (cx, cy)) ↔ j < 10)
  ∧ (10 ≤ j → y0 (key_rectangle n (cx, cy + 1)) ≤ (line_position n (cx, cy) j).2)
  ∧ (10 ≤ j → cy = max_y → image_height n ≤ (line_position n (cx, cy) j).2).
Proof.
  unfold in_rectangle, line_position, key_rectangle, image_height,
    physical_rows, cell_width, cell_height. cbn [x0 y0 x1 y1 fst snd].
  split; [|split]; [lia|lia|]. intros Hj ->. lia.
Qed.

(** X30: a key's rectangle has room for ten lines: the text of line [j],
    counted from 0, is anchored inside the rectangle of its key exactly
    when [j < 10]; from the eleventh layer on the text is anchored at or
    below the top of the rectangle one row down, and for a key of the
    bottom row below the image. *)
Theorem generate_single_grid_image_line_positions (n cx cy j : nat) :
  (in_rectangle (line_position n (cx, cy) j) (key_rectangle n (cx, cy)) ↔ j < 10)
  ∧ (10 ≤ j → y0 (key_rectangle n (cx, cy + 1)) ≤ (line_position n (cx, cy) j).2)
  ∧ (10 ≤ j → cy = max_y → image_height n ≤ (line_position n (cx, cy) j).2).
Proof. apply line_positions. Qed.

Lemma generate_single_grid_image_line_positions_witness :
  (in_rectangle (line_position 11 (3, 4) 10) (key_rectangle 11 (3, 4)) ↔ 10 < 10)
  ∧ (10 ≤ 10 → y0 (key_rectangle 11 (3, 4 + 1)) ≤ (line_position 11 (3, 4) 10).2)
  ∧ (10 ≤ 10 → 4 = max_y → image_height 11 ≤ (line_position 11 (3, 4) 10).2).
Proof.
  apply (generate_single_grid_image_line_positions 11 3 4 10).
Defined.
